(** * Forward-tester: the statistical aggregation engine

    A shallow embedding of [src/services/analysisService.ts] (with the record
    types of the repository's [types.ts]) and the properties its
    specification states about it.

    Modelling conventions.
    - A JavaScript [number] is an exact rational ([Q]); equality of computed
      numbers is [Qeq] ([==]) unless both sides are built by the same
      operations.  [NaN] and the infinities of IEEE doubles are outside the
      model, and so is the rounding error of sums and averages.  The one
      place where the last bit of a double decides a result is the index
      [Math.floor((percentile / 100) * length)] of the percentile estimator:
      there the division and the product are rounded to binary64
      ([Binary64]).
    - A JavaScript string is a [string]; the default [Array.prototype.sort]
      order (code-unit order) is [String.leb].
    - [Array.prototype.sort] is a stable sort; it is modelled by a stable
      insertion sort over a boolean "less or equal" test.
    - A JavaScript [Map] keeps its keys in insertion order and [Map.set] on
      an existing key keeps the key's position: an association list.
      A JavaScript [Set] is a duplicate-free list in insertion order. *)

From Stdlib Require Import String Ascii Bool Arith ZArith QArith Qround Qabs.
From Stdlib Require Import Qpower SpecFloat.
From Stdlib Require Import Lia Lqa DecimalString List Permutation Sorted.
Import ListNotations.

Local Open Scope string_scope.
Local Open Scope Q_scope.

(* ================================================================== *)
(** ** JavaScript primitives *)

Module Js.

(** [a > b] on numbers. *)
Definition gtb (a b : Q) : bool := negb (Qle_bool a b).

(** [a < b] on numbers. *)
Definition ltb (a b : Q) : bool := negb (Qle_bool b a).

(** [Math.round]: the nearest integer, halves rounded towards plus infinity. *)
Definition round (x : Q) : Z := Qfloor (x + (1 # 2)).

(** Truncation towards zero, the rounding of the quotient in [%]. *)
Definition trunc (x : Q) : Z := if Qle_bool 0 x then Qfloor x else Qceiling x.

(** [x % m]: the remainder with the sign of the dividend. *)
Definition rem (x m : Q) : Q := x - m * inject_Z (trunc (x / m)).

(** The decimal rendering of an integer inside a template literal. *)
Definition showZ (z : Z) : string := NilZero.string_of_int (Z.to_int z).

(** [Array.prototype.sort(cmp)] with [leb a b] standing for [cmp(a,b) <= 0]:
    each element is put before the first element it is less or equal to, so
    equal elements keep their order. *)
Fixpoint insert {A : Type} (leb : A -> A -> bool) (x : A) (l : list A) : list A :=
  match l with
  | [] => [x]
  | y :: r => if leb x y then x :: y :: r else y :: insert leb x r
  end.

Fixpoint sort {A : Type} (leb : A -> A -> bool) (l : list A) : list A :=
  match l with
  | [] => []
  | x :: r => insert leb x (sort leb r)
  end.

(** [values.sort((a, b) => a - b)]. *)
Definition sortNum (l : list Q) : list Q := sort Qle_bool l.

(** [strings.sort()]. *)
Definition sortStr (l : list string) : list string := sort String.leb l.

(** [values.reduce((a, b) => a + b, 0)]. *)
Definition sum (l : list Q) : Q := fold_left Qplus l 0.

(** [array.indexOf(x)], [-1] when absent. *)
Fixpoint indexFrom (i : Z) (x : string) (l : list string) : Z :=
  match l with
  | [] => (-1)%Z
  | y :: r => if String.eqb y x then i else indexFrom (i + 1)%Z x r
  end.

Definition indexOf (x : string) (l : list string) : Z := indexFrom 0%Z x l.

(** [new Set(array)] and [set.add(x)]. *)
Definition setAdd (x : string) (s : list string) : list string :=
  if existsb (String.eqb x) s then s else (s ++ [x])%list.

Definition setOf (l : list string) : list string :=
  fold_left (fun s x => setAdd x s) l [].

(** [map.get(k)] and [map.set(k, v)]. *)
Fixpoint get {V : Type} (k : string) (m : list (string * V)) : option V :=
  match m with
  | [] => None
  | (k', v) :: r => if String.eqb k' k then Some v else get k r
  end.

Fixpoint set {V : Type} (k : string) (v : V) (m : list (string * V))
  : list (string * V) :=
  match m with
  | [] => [(k, v)]
  | (k', v') :: r =>
      if String.eqb k' k then (k, v) :: r else (k', v') :: set k v r
  end.

End Js.

(** A count as a number. *)
Definition numOfNat (n : nat) : Q := inject_Z (Z.of_nat n).

(* ================================================================== *)
(** ** Binary64 arithmetic

    The result of a division or a product of two doubles is the exact
    quotient or product rounded to the nearest double, ties to the even
    significand.  A double is a rational [m * 2^e] with [|m| < 2^53] and
    [e >= -1074]; below, a rational stands for itself.  A result of [2^1024]
    or more is the infinity of JavaScript; the model keeps the finite value
    (the one use of these operations clamps its result from above). *)

Module Binary64.

(** [2^e] as a number. *)
Definition pow2 (e : Z) : Q := 2 ^ e.

(** The integer part of the binary logarithm of a positive number. *)
Definition flog2 (x : Q) : Z :=
  let k := (Z.log2 (Qnum x) - Z.log2 (Zpos (Qden x)))%Z in
  if Qle_bool (pow2 k) x then k else (k - 1)%Z.

(** The nearest integer, a half going to the even neighbour. *)
Definition rne (x : Q) : Z :=
  let f := Qfloor x in
  match Qcompare (x - inject_Z f) (1 # 2) with
  | Lt => f
  | Gt => (f + 1)%Z
  | Eq => if Z.even f then f else (f + 1)%Z
  end.

(** A positive number rounded to 53 significant bits; the exponent of the
    last bit does not go below -1074 (subnormal numbers). *)
Definition roundPos (x : Q) : Q :=
  let e := Z.max (flog2 x - 52) (-1074) in
  inject_Z (rne (x / pow2 e)) * pow2 e.

(** The double nearest to [x]. *)
Definition b64 (x : Q) : Q :=
  match Qcompare x 0 with
  | Eq => 0
  | Gt => roundPos x
  | Lt => - roundPos (- x)
  end.

(** A double: a significand of at most 53 bits at an exponent from -1074
    (the significand [2^53] is [2^52] at the next exponent). *)
Definition isDouble (y : Q) : Prop :=
  exists m e : Z,
    (Z.abs m <= 2 ^ 53)%Z /\ (-1074 <= e)%Z /\ y == inject_Z m * pow2 e.

(** [x / y] and [x * y] on doubles. *)
Definition fdiv (x y : Q) : Q := b64 (x / y).
Definition fmul (x y : Q) : Q := b64 (x * y).

(** The same two operations in the IEEE 754 formalisation of the standard
    library ([SpecFloat], precision 53 and exponent bound 1024), on
    integers: the number [Math.floor((p / 100) * n)]. *)
Definition ofZ (z : Z) : spec_float := binary_normalize 53 1024 z 0 false.

Definition toQ (f : spec_float) : Q :=
  match f with
  | S754_finite s m e => inject_Z (if s then Z.neg m else Z.pos m) * 2 ^ e
  | _ => 0
  end.

Definition specFloatIndex (p n : nat) : Z :=
  Qfloor (toQ (SFmul 53 1024
                 (SFdiv 53 1024 (ofZ (Z.of_nat p)) (ofZ 100))
                 (ofZ (Z.of_nat n)))).

End Binary64.

(* ================================================================== *)
(** ** Data model ([types.ts]) *)

Inductive Direction : Type := Long | Short.

Record Trade : Type := mkTrade {
  id : string;
  timestamp : string;
  exitTimestamp : option string;
  session : option string;
  direction : Direction;
  symbol : string;
  marketRegime : string;
  strategyNames : list string;
  taLevels : list string;
  delta : Q;
  oi : Q;
  entryType : string;
  exitType : string;
  mfe : Q;
  mae : Q;
  notes : option string;
  imageUrls : list string
}.

Inductive DeltaCategory : Type := HIGH_PLUS | HIGH | LOW.

(** The string value of each member of the enum. *)
Definition deltaLabel (c : DeltaCategory) : string :=
  match c with
  | HIGH_PLUS => "High++"
  | HIGH => "High"
  | LOW => "Low"
  end.

Record AnalysisResult : Type := mkAnalysisResult {
  level : string;
  avgMfe : Q;
  avgMae : Q;
  medianMfe : Q;
  medianMae : Q;
  count : nat;
  score : Q
}.

Record PairAnalysisResult : Type := mkPairAnalysisResult {
  pair : string * string;
  pairAvgMfe : Q;
  pairCount : nat
}.

Record Cell : Type := mkCell { cellAvgMfe : Q; cellCount : nat }.

Record HeatmapData : Type := mkHeatmapData {
  xLabels : list string;
  yLabels : list string;
  grid : list (string * Cell);
  maxMfe : Q
}.

(* ================================================================== *)
(** ** Classification and formatting helpers *)

Definition getDeltaCategory (delta : Q) : DeltaCategory :=
  let absDelta := Qabs delta in
  if Js.gtb absDelta 20 then HIGH_PLUS
  else if Js.gtb absDelta 7 then HIGH
  else LOW.

Section SessionClassifier.

(** [getHours dateStr] stands for [new Date(dateStr).getHours()], the local
    hour of the parsed timestamp. *)
Variable getHours : string -> Z.

Definition getSessionFromTime (dateStr : string) : string :=
  let hour := getHours dateStr in
  if ((5 <=? hour) && (hour <? 11))%Z then "S1"
  else if ((11 <=? hour) && (hour <? 17))%Z then "S2"
  else if ((17 <=? hour) && (hour <? 23))%Z then "S3"
  else if ((1 <=? hour) && (hour <? 5))%Z then "IS4"
  else "S4".

End SessionClassifier.

Definition formatDuration (minutes : Q) : string :=
  if Qeq_bool minutes 0 then "-"
  else if Js.ltb minutes 60 then Js.showZ (Js.round minutes) ++ "m"
  else
    let hours := Qfloor (minutes / 60) in
    let mins := Js.round (Js.rem minutes 60) in
    Js.showZ hours ++ "h " ++ Js.showZ mins ++ "m".

(** The rendering in the words of the specification: the minutes within the
    hour are [round(total_minutes) mod 60], the hours [floor(total_minutes/60)]. *)
Definition formatDuration_spec (minutes : Q) : string :=
  if Qeq_bool minutes 0 then "-"
  else if Js.ltb minutes 60 then Js.showZ (Js.round minutes) ++ "m"
  else
    Js.showZ (Qfloor (minutes / 60)) ++ "h "
      ++ Js.showZ (Js.round minutes mod 60) ++ "m".

(* ================================================================== *)
(** ** Percentile and median *)

(** [Math.floor((percentile / 100) * length)] for the length of an array:
    the quotient and the product are doubles.  An array has fewer than 2^32
    elements, so that its length is a double; no longer array can be built,
    and for such a length the model takes the exact product. *)
Definition percentileIndex (percentile : Q) (len : nat) : Z :=
  if (Z.of_nat len <? 2 ^ 32)%Z
  then Qfloor (Binary64.fmul (Binary64.fdiv percentile 100) (numOfNat len))
  else Qfloor ((percentile / 100) * numOfNat len).

(** [percentile] is a number between 0 and 100, so the index is never
    negative. *)
Definition getOIPercentileValue (trades : list Trade) (percentile : Q) : Q :=
  match trades with
  | [] => 0
  | _ =>
      let ois := Js.sortNum (map oi trades) in
      let index := percentileIndex percentile (length ois) in
      nth (Z.to_nat (Z.min index (Z.of_nat (length ois) - 1))) ois 0
  end.

(** The estimator in the words of the specification: the index is
    [floor(percentile/100 * n)] of the exact product, clamped to [n - 1]. *)
Definition getOIPercentileValue_spec (trades : list Trade) (percentile : Q) : Q :=
  match trades with
  | [] => 0
  | _ =>
      let n := length trades in
      let sorted := Js.sortNum (map oi trades) in
      let index := Qfloor ((percentile / 100) * numOfNat n) in
      nth (Z.to_nat (Z.min index (Z.of_nat n - 1))) sorted 0
  end.

Definition calculateMedian (values : list Q) : Q :=
  match values with
  | [] => 0
  | _ =>
      let sorted := Js.sortNum values in
      let mid := Nat.div (length sorted) 2 in
      if negb (Nat.eqb (Nat.modulo (length sorted) 2) 0)
      then nth mid sorted 0
      else (nth (mid - 1) sorted 0 + nth mid sorted 0) / 2
  end.

(* ================================================================== *)
(** ** Single-factor aggregation *)

(** [l !== 'None' && l !== ''] *)
Definition activeLevel (l : string) : bool :=
  negb (String.eqb l "None") && negb (String.eqb l "").

Record Samples : Type := mkSamples { mfes : list Q; maes : list Q }.

(** The body of [uniqueLevels.forEach]. *)
Definition addSample (trade : Trade) (statsMap : list (string * Samples))
  (lvl : string) : list (string * Samples) :=
  let current :=
    match Js.get lvl statsMap with
    | Some c => c
    | None => mkSamples [] []
    end in
  Js.set lvl
    (mkSamples (mfes current ++ [mfe trade]) (maes current ++ [mae trade]))
    statsMap.

(** The body of [trades.forEach]. *)
Definition collectLevels (statsMap : list (string * Samples)) (trade : Trade)
  : list (string * Samples) :=
  let uniqueLevels := Js.setOf (filter activeLevel (taLevels trade)) in
  fold_left (addSample trade) uniqueLevels statsMap.

(** The body of [statsMap.forEach]. *)
Definition resultOf (entry : string * Samples) : AnalysisResult :=
  let (key, val) := entry in
  let cnt := length (mfes val) in
  let totalMfe := Js.sum (mfes val) in
  let totalMae := Js.sum (maes val) in
  mkAnalysisResult key
    (totalMfe / numOfNat cnt)
    (totalMae / numOfNat cnt)
    (calculateMedian (mfes val))
    (calculateMedian (maes val))
    cnt
    ((totalMfe / numOfNat cnt) - (totalMae / numOfNat cnt)).

(** [(a, b) => b.avgMfe - a.avgMfe] is not positive. *)
Definition byAvgMfeDesc (a b : AnalysisResult) : bool :=
  Qle_bool (avgMfe b) (avgMfe a).

Definition calculateSingleFactorStats (trades : list Trade)
  : list AnalysisResult :=
  let statsMap := fold_left collectLevels trades [] in
  let results := map resultOf statsMap in
  Js.sort byAvgMfeDesc results.

(* ================================================================== *)
(** ** Pairwise aggregation *)

Record PairAcc : Type :=
  mkPairAcc { totalMfe : Q; accCount : nat; p1 : string; p2 : string }.

(** The index pairs [(i, j)] visited by
    [for (i = 0; i < n; i++) for (j = i + 1; j < n; j++)], in order. *)
Definition loopIndices (n : nat) : list (nat * nat) :=
  flat_map (fun i => map (fun j => (i, j)) (seq (i + 1) (n - (i + 1))))
    (seq 0 n).

(** The pairs [(p1, p2)] one trade generates, in the order of the loops. *)
Definition tradePairs (trade : Trade) : list (string * string) :=
  let activeLevels := Js.sortStr (filter activeLevel (taLevels trade)) in
  map (fun ij => (nth (fst ij) activeLevels "", nth (snd ij) activeLevels ""))
    (loopIndices (length activeLevels)).

Definition pairKey (a b : string) : string := a ++ "|" ++ b.

(** The body of the inner loop. *)
Definition addPair (trade : Trade) (pairMap : list (string * PairAcc))
  (p : string * string) : list (string * PairAcc) :=
  let (a, b) := p in
  let key := pairKey a b in
  let current :=
    match Js.get key pairMap with
    | Some c => c
    | None => mkPairAcc 0 0 a b
    end in
  Js.set key
    (mkPairAcc (totalMfe current + mfe trade) (accCount current + 1) a b)
    pairMap.

Definition collectPairs (pairMap : list (string * PairAcc)) (trade : Trade)
  : list (string * PairAcc) :=
  fold_left (addPair trade) (tradePairs trade) pairMap.

Definition pairResultOf (entry : string * PairAcc) : PairAnalysisResult :=
  let val := snd entry in
  mkPairAnalysisResult (p1 val, p2 val)
    (totalMfe val / numOfNat (accCount val)) (accCount val).

Definition byPairAvgMfeDesc (a b : PairAnalysisResult) : bool :=
  Qle_bool (pairAvgMfe b) (pairAvgMfe a).

Definition calculatePairStats (trades : list Trade) : list PairAnalysisResult :=
  let pairMap := fold_left collectPairs trades [] in
  let results := map pairResultOf pairMap in
  Js.sort byPairAvgMfeDesc (filter (fun r => 2 <=? pairCount r)%nat results).

(* ================================================================== *)
(** ** Heatmaps *)

Record HeatAcc : Type := mkHeatAcc { heatTotal : Q; heatCount : nat }.

Record HeatState : Type := mkHeatState {
  levelSet : list string;
  xSet : list string;
  matrix : list (string * HeatAcc)
}.

Definition cellKey (lvl x : string) : string := lvl ++ "::" ++ x.

(** The body of [activeLevels.forEach], for a trade of x-axis category [x]. *)
Definition addCell (x : string) (trade : Trade) (st : HeatState) (lvl : string)
  : HeatState :=
  let key := cellKey lvl x in
  let current :=
    match Js.get key (matrix st) with
    | Some c => c
    | None => mkHeatAcc 0 0
    end in
  mkHeatState (Js.setAdd lvl (levelSet st)) (xSet st)
    (Js.set key
       (mkHeatAcc (heatTotal current + mfe trade) (heatCount current + 1))
       (matrix st)).

(** The body of [matrix.forEach], on the pair of [grid] and [maxMfe]. *)
Definition addGridCell (acc : list (string * Cell) * Q)
  (entry : string * HeatAcc) : list (string * Cell) * Q :=
  let (g, mx) := acc in
  let (key, val) := entry in
  let avg := heatTotal val / numOfNat (heatCount val) in
  (Js.set key (mkCell avg (heatCount val)) g,
   if Js.gtb avg mx then avg else mx).

Definition sessionOrder : list string := ["S1"; "S2"; "S3"; "S4"; "IS4"; "N/A"].

Definition deltaOrder : list string :=
  [deltaLabel HIGH_PLUS; deltaLabel HIGH; deltaLabel LOW].

(** [(a, b) => order.indexOf(a) - order.indexOf(b)] is not positive. *)
Definition byOrder (order : list string) (a b : string) : bool :=
  (Js.indexOf a order <=? Js.indexOf b order)%Z.

(** TA level against entry type; [xSet] is the [entrySet] of the source. *)
Definition calculateHeatmapStats (trades : list Trade) : HeatmapData :=
  let st :=
    fold_left
      (fun st trade =>
         if String.eqb (entryType trade) "" then st
         else
           let st1 :=
             mkHeatState (levelSet st) (Js.setAdd (entryType trade) (xSet st))
               (matrix st) in
           let activeLevels := filter activeLevel (taLevels trade) in
           fold_left (addCell (entryType trade) trade) activeLevels st1)
      trades (mkHeatState [] [] []) in
  let gm := fold_left addGridCell (matrix st) ([], 0) in
  let sortedX := Js.sortStr (xSet st) in
  let sortedY := Js.sortStr (levelSet st) in
  mkHeatmapData sortedX sortedY (fst gm) (snd gm).

(** [trade.session || 'N/A'] *)
Definition sessionOrNA (trade : Trade) : string :=
  match session trade with
  | Some s => if String.eqb s "" then "N/A" else s
  | None => "N/A"
  end.

(** TA level against session; [xSet] is the [sessionSet] of the source. *)
Definition calculateSessionLevelHeatmap (trades : list Trade) : HeatmapData :=
  let st :=
    fold_left
      (fun st trade =>
         let sess := sessionOrNA trade in
         let st1 :=
           mkHeatState (levelSet st) (Js.setAdd sess (xSet st)) (matrix st) in
         let activeLevels := filter activeLevel (taLevels trade) in
         fold_left (addCell sess trade) activeLevels st1)
      trades (mkHeatState [] [] []) in
  let gm := fold_left addGridCell (matrix st) ([], 0) in
  let sortedX := Js.sort (byOrder sessionOrder) (xSet st) in
  let sortedY := Js.sortStr (levelSet st) in
  mkHeatmapData sortedX sortedY (fst gm) (snd gm).

(** TA level against delta category; [xSet] is the [deltaSet] of the source. *)
Definition calculateDeltaLevelHeatmap (trades : list Trade) : HeatmapData :=
  let st :=
    fold_left
      (fun st trade =>
         let deltaCat := deltaLabel (getDeltaCategory (delta trade)) in
         let st1 :=
           mkHeatState (levelSet st) (Js.setAdd deltaCat (xSet st)) (matrix st) in
         let activeLevels := filter activeLevel (taLevels trade) in
         fold_left (addCell deltaCat trade) activeLevels st1)
      trades (mkHeatState [] [] []) in
  let gm := fold_left addGridCell (matrix st) ([], 0) in
  let sortedX := Js.sort (byOrder deltaOrder) (xSet st) in
  let sortedY := Js.sortStr (levelSet st) in
  mkHeatmapData sortedX sortedY (fst gm) (snd gm).

(* ================================================================== *)
(** ** Conditional best level *)

Definition getBestLevelForCondition (trades : list Trade)
  (conditionFn : Trade -> Q -> bool) : option AnalysisResult :=
  match trades with
  | [] => None
  | _ =>
      let oiThreshold := getOIPercentileValue trades 75 in
      let filteredTrades := filter (fun t => conditionFn t oiThreshold) trades in
      match filteredTrades with
      | [] => None
      | _ => hd_error (calculateSingleFactorStats filteredTrades)
      end
  end.

(* ================================================================== *)
(** ** Sample trades *)

(** A trade with the given levels, entry type, open interest and outcome;
    the other fields are irrelevant to the aggregators. *)
Definition sample (levels : list string) (entry : string) (o m a : Q) : Trade :=
  mkTrade "t" "2024-01-01T10:00" None None Long "ES" "Trend" ["s"]
    levels 0 o entry "x" m a None [].

Definition scenario : list Trade :=
  [ sample ["A"; "B"] "E" 0 10 0; sample ["A"] "E" 0 20 0;
    sample ["A"; "B"] "E" 0 6 0 ].

(** Four trades with the open-interest values 10, 20, 30, 40, each with a
    level of its own and the MFE 5, 7, 9, 2. *)
Definition quartileTrades : list Trade :=
  [ sample ["A"] "E" 10 5 1; sample ["B"] "E" 20 7 1;
    sample ["C"] "E" 30 9 1; sample ["D"] "E" 40 2 1 ].

(** Fifty trades with the open-interest values 1, 2, ..., 50. *)
Definition fiftyTrades : list Trade :=
  map (fun k => sample [] "" (numOfNat k) 0 0) (seq 1 50).

(* ================================================================== *)
(** ** Vocabulary of the statements *)

(** The trade holds the active level [lvl] in one of its slots. *)
Definition holdsLevel (lvl : string) (trade : Trade) : bool :=
  existsb (String.eqb lvl) (filter activeLevel (taLevels trade)).

(** The samples recorded for a level, empty when the level has no entry. *)
Definition samplesAt (lvl : string) (statsMap : list (string * Samples))
  : Samples :=
  match Js.get lvl statsMap with
  | Some c => c
  | None => mkSamples [] []
  end.

(** The 2-combinations of a list, in the order of the list. *)
Fixpoint combinations2 (l : list string) : list (string * string) :=
  match l with
  | [] => []
  | x :: r => (map (fun y => (x, y)) r ++ combinations2 r)%list
  end.

(** The pairs of a trade in the words of the specification: the
    2-combinations of its distinct active levels in lexicographic order. *)
Definition tradePairs_spec (trade : Trade) : list (string * string) :=
  combinations2 (Js.sortStr (Js.setOf (filter activeLevel (taLevels trade)))).

(** The trade exhibits the pair: it holds both levels. *)
Definition exhibitsPair (a b : string) (trade : Trade) : bool :=
  holdsLevel a trade && holdsLevel b trade.

(** The x-axis category of a trade in each heatmap, [None] when the trade is
    skipped. *)
Definition entryTypeOf (trade : Trade) : option string :=
  if String.eqb (entryType trade) "" then None else Some (entryType trade).

Definition sessionOf (trade : Trade) : option string :=
  Some (sessionOrNA trade).

Definition deltaOf (trade : Trade) : option string :=
  Some (deltaLabel (getDeltaCategory (delta trade))).

(** The common shape of the three heatmap functions: one step of
    [trades.forEach] for a trade of x-axis category [xOf trade], and the
    whole function for a given order of the x labels. *)
Definition heatStep (xOf : Trade -> option string) (st : HeatState)
  (trade : Trade) : HeatState :=
  match xOf trade with
  | None => st
  | Some x =>
      let st1 := mkHeatState (levelSet st) (Js.setAdd x (xSet st)) (matrix st) in
      fold_left (addCell x trade) (filter activeLevel (taLevels trade)) st1
  end.

Definition heatmapOf (xOf : Trade -> option string)
  (sortX : list string -> list string) (trades : list Trade) : HeatmapData :=
  let st := fold_left (heatStep xOf) trades (mkHeatState [] [] []) in
  let gm := fold_left addGridCell (matrix st) ([], 0) in
  mkHeatmapData (sortX (xSet st)) (Js.sortStr (levelSet st)) (fst gm) (snd gm).

(** The trade has an x-axis category. *)
Definition hasCategory (xOf : Trade -> option string) (trade : Trade) : bool :=
  match xOf trade with
  | Some _ => true
  | None => false
  end.

(** The trade contributes to the cell of composite key [k]: it has an x-axis
    category and one of its active levels forms the key [k] with it. *)
Definition contributesTo (xOf : Trade -> option string) (k : string)
  (trade : Trade) : bool :=
  match xOf trade with
  | Some x =>
      existsb (fun lvl => String.eqb (cellKey lvl x) k)
        (filter activeLevel (taLevels trade))
  | None => false
  end.

(** The trade contributes to the combination of level [y] and category [x],
    in the words of the specification. *)
Definition contributesToCombination (xOf : Trade -> option string)
  (y x : string) (trade : Trade) : bool :=
  match xOf trade with
  | Some x' => String.eqb x' x && holdsLevel y trade
  | None => false
  end.

(** No active level is repeated in the slots of the trade. *)
Definition distinctLevels (trade : Trade) : Prop :=
  NoDup (filter activeLevel (taLevels trade)).

(** The accumulator of a cell, zero when the cell has no entry. *)
Definition accAt (k : string) (mat : list (string * HeatAcc)) : HeatAcc :=
  match Js.get k mat with
  | Some c => c
  | None => mkHeatAcc 0 0
  end.

(** The grid cell made from a matrix entry. *)
Definition cellOfAcc (entry : string * HeatAcc) : string * Cell :=
  (fst entry,
   mkCell (heatTotal (snd entry) / numOfNat (heatCount (snd entry)))
     (heatCount (snd entry))).

(** The three heatmap functions, each with the x-axis category it uses. *)
Definition heatmapVariants
  : list ((list Trade -> HeatmapData) * (Trade -> option string)) :=
  [ (calculateHeatmapStats, entryTypeOf);
    (calculateSessionLevelHeatmap, sessionOf);
    (calculateDeltaLevelHeatmap, deltaOf) ].

(** The running maximum kept by [matrix.forEach]. *)
Definition maxStep (mx : Q) (entry : string * HeatAcc) : Q :=
  let avg := heatTotal (snd entry) / numOfNat (heatCount (snd entry)) in
  if Js.gtb avg mx then avg else mx.

(** The string has no colon in it. *)
Fixpoint noColon (s : string) : Prop :=
  match s with
  | EmptyString => True
  | String c r => c <> ":"%char /\ noColon r
  end.

(** Two trades whose level and entry type differ but whose composite keys
    coincide; neither has a session. *)
Definition collidingTrades : list Trade :=
  [ sample ["A::B"] "C" 0 1 0; sample ["A"] "B::C" 0 3 0 ].

(* ================================================================== *)
(** ** Durations and session statistics *)

(** [Math.max(a, b)]. *)
Definition mathMax (a b : Q) : Q := if Qle_bool a b then b else a.

(** [Math.min(a, b)]. *)
Definition mathMin (a b : Q) : Q := if Qle_bool a b then a else b.

Section Duration.

(** [getTime s] stands for [new Date(s).getTime()], the milliseconds of the
    parsed timestamp. *)
Variable getTime : string -> Q.

(** [!exitTime] holds for an absent and for an empty exit time. *)
Definition calculateDuration (entryTime : string) (exitTime : option string)
  : Q :=
  match exitTime with
  | None => 0
  | Some e =>
      if String.eqb e "" then 0
      else
        let start := getTime entryTime in
        let end_ := getTime e in
        mathMax 0 ((end_ - start) / (1000 * 60))
  end.

(** The duration column of the trade table:
    [t.exitTimestamp ? formatDuration(calculateDuration(...)) : '-']. *)
Definition durationCell (t : Trade) : string :=
  match exitTimestamp t with
  | None => "-"
  | Some e =>
      if String.eqb e "" then "-"
      else formatDuration (calculateDuration (timestamp t) (exitTimestamp t))
  end.

End Duration.

(** The body of [trades.forEach] in [calculateSessionStats]. *)
Definition addSessionSample (statsMap : list (string * Samples)) (trade : Trade)
  : list (string * Samples) :=
  let sess := sessionOrNA trade in
  let current :=
    match Js.get sess statsMap with
    | Some c => c
    | None => mkSamples [] []
    end in
  Js.set sess
    (mkSamples (mfes current ++ [mfe trade]) (maes current ++ [mae trade]))
    statsMap.

(** [(a, b) => order.indexOf(a.level) - order.indexOf(b.level)] is not
    positive. *)
Definition bySessionOrder (a b : AnalysisResult) : bool :=
  byOrder sessionOrder (level a) (level b).

Definition calculateSessionStats (trades : list Trade) : list AnalysisResult :=
  let statsMap := fold_left addSessionSample trades [] in
  let results := map resultOf statsMap in
  Js.sort bySessionOrder results.

(** The number of samples a statistics map holds. *)
Definition sampleTotal (statsMap : list (string * Samples)) : nat :=
  list_sum (map (fun e => length (mfes (snd e))) statsMap).

(** Every entry of the pair map carries the pair its key was built from, and
    that pair was generated by one of the trades. *)
Definition pairEntryOk (trades : list Trade) (e : string * PairAcc) : Prop :=
  fst e = pairKey (p1 (snd e)) (p2 (snd e)) /\
  exists t, In t trades /\ In (p1 (snd e), p2 (snd e)) (tradePairs t).

(** The string has no vertical bar in it. *)
Fixpoint noBar (s : string) : Prop :=
  match s with
  | EmptyString => True
  | String c r => c <> "|"%char /\ noBar r
  end.

(** The key under which a pair is accumulated. *)
Definition keyOfPair (p : string * string) : string := pairKey (fst p) (snd p).

(** The total and the count accumulated under a key, if any. *)
Definition pairTotals (k : string) (m : list (string * PairAcc))
  : option (Q * nat) :=
  option_map (fun c => (totalMfe c, accCount c)) (Js.get k m).

(** One of the pairs of the trade is accumulated under the key [k]. *)
Definition generatesKey (k : string) (t : Trade) : bool :=
  existsb (fun p => String.eqb (keyOfPair p) k) (tradePairs t).

(** A trade that repeats no active level and has no vertical bar in its level
    names. *)
Definition cleanTrade (t : Trade) : Prop :=
  distinctLevels t /\ forall l, In l (taLevels t) -> noBar l.

(** The sets of a heatmap state have no duplicates and every key of the
    matrix is made of a level and a category of these sets. *)
Definition heatStateOk (st : HeatState) : Prop :=
  NoDup (levelSet st) /\ NoDup (xSet st) /\
  forall k, In k (map fst (matrix st)) ->
    exists y x, In y (levelSet st) /\ In x (xSet st) /\ k = cellKey y x.

(* ================================================================== *)
(** ** The dashboard (AnalyticsDashboard) *)

(** [cat === DeltaCategory.X] *)
Definition deltaCategory_eqb (a b : DeltaCategory) : bool :=
  match a, b with
  | HIGH_PLUS, HIGH_PLUS | HIGH, HIGH | LOW, LOW => true
  | _, _ => false
  end.

(** The predicate of [bestHighDeltaHighOI]. *)
Definition highDeltaHighOI (t : Trade) (threshold : Q) : bool :=
  let cat := getDeltaCategory (delta t) in
  (deltaCategory_eqb cat HIGH || deltaCategory_eqb cat HIGH_PLUS)
  && Js.gtb (oi t) threshold.

(** The predicate of [bestLowDeltaLowOI]. *)
Definition lowDeltaLowOI (t : Trade) (threshold : Q) : bool :=
  let cat := getDeltaCategory (delta t) in
  deltaCategory_eqb cat LOW && Qle_bool (oi t) threshold.

Definition bestHighDeltaHighOI (displayedTrades : list Trade)
  : option AnalysisResult :=
  getBestLevelForCondition displayedTrades highDeltaHighOI.

Definition bestLowDeltaLowOI (displayedTrades : list Trade)
  : option AnalysisResult :=
  getBestLevelForCondition displayedTrades lowDeltaLowOI.

(** The colour intensity of a populated heatmap cell:
    [Math.min(1, Math.max(0.1, cell.avgMfe / stats.maxMfe))]. *)
Definition cellIntensity (stats : HeatmapData) (cell : Cell) : Q :=
  mathMin 1 (mathMax (1 # 10) (cellAvgMfe cell / maxMfe stats)).

(** ['All' | 'Long' | 'Short'] *)
Inductive AnalysisDirection : Type := AllDirections | OnlyLong | OnlyShort.

(** [t.direction === analysisDirection] *)
Definition hasDirection (d : AnalysisDirection) (t : Trade) : bool :=
  match d, direction t with
  | OnlyLong, Long => true
  | OnlyShort, Short => true
  | _, _ => false
  end.

Record AssetAcc : Type := mkAssetAcc { accMfe : Q; accTrades : nat }.

Record AssetStat : Type := mkAssetStat {
  assetSymbol : string;
  assetAvgMfe : Q;
  assetCount : nat
}.

(** [t.symbol || 'UNK'] *)
Definition symbolOrUNK (t : Trade) : string :=
  if String.eqb (symbol t) "" then "UNK" else symbol t.

(** The body of [baseTrades.forEach] in [assetStats]. *)
Definition addAsset (m : list (string * AssetAcc)) (t : Trade)
  : list (string * AssetAcc) :=
  let sym := symbolOrUNK t in
  let curr :=
    match Js.get sym m with
    | Some c => c
    | None => mkAssetAcc 0 0
    end in
  Js.set sym (mkAssetAcc (accMfe curr + mfe t) (accTrades curr + 1)) m.

Definition assetStatOf (entry : string * AssetAcc) : AssetStat :=
  let (sym, data) := entry in
  mkAssetStat sym (accMfe data / numOfNat (accTrades data)) (accTrades data).

Definition byAssetAvgMfeDesc (a b : AssetStat) : bool :=
  Qle_bool (assetAvgMfe b) (assetAvgMfe a).

Definition assetStats (trades : list Trade) (analysisDirection : AnalysisDirection)
  : list AssetStat :=
  let baseTrades :=
    match analysisDirection with
    | AllDirections => trades
    | _ => filter (hasDirection analysisDirection) trades
    end in
  let m := fold_left addAsset baseTrades [] in
  Js.sort byAssetAvgMfeDesc (map assetStatOf m).

(* ================================================================== *)
(** ** The application state (App, DataManagement) *)

(** [prev.findIndex(p)], [-1] when no element passes. *)
Fixpoint findIndexFrom (i : Z) (p : Trade -> bool) (l : list Trade) : Z :=
  match l with
  | [] => (-1)%Z
  | t :: r => if p t then i else findIndexFrom (i + 1)%Z p r
  end.

(** [updated[index] = trade] on a copy, for an index inside the array. *)
Fixpoint setAt (n : nat) (x : Trade) (l : list Trade) : list Trade :=
  match l with
  | [] => []
  | y :: r =>
      match n with
      | O => x :: r
      | S n' => y :: setAt n' x r
      end
  end.

(** The update of the trade list in [handleSaveTrade]. *)
Definition handleSaveTrade (trade : Trade) (prev : list Trade) : list Trade :=
  let index := findIndexFrom 0%Z (fun t => String.eqb (id t) (id trade)) prev in
  if (0 <=? index)%Z then setAt (Z.to_nat index) trade prev
  else trade :: prev.

(** [handleDelete]: the new master list. *)
Definition handleDelete (ident : string) (allTrades : list Trade) : list Trade :=
  filter (fun t => negb (String.eqb (id t) ident)) allTrades.

(** [array.join('|')] on strings. *)
Fixpoint joinBar (l : list string) : string :=
  match l with
  | [] => ""
  | [x] => x
  | x :: r => x ++ "|" ++ joinBar r
  end.

(** [s.split('|')]: the pieces between the bars, one more than there are
    bars. *)
Fixpoint splitBar (s : string) : list string :=
  match s with
  | EmptyString => [""]
  | String c r =>
      if Ascii.eqb c "|" then "" :: splitBar r
      else
        match splitBar r with
        | [] => [String c ""]
        | piece :: pieces => String c piece :: pieces
        end
  end.

(** [taLevels: t.taLevels.join('|')] in [handleExport]. *)
Definition exportLevels (levels : list string) : string := joinBar levels.

(** [taLevels: d.taLevels ? d.taLevels.split('|') : []] in [handleImport];
    the column may be missing. *)
Definition importLevels (field : option string) : list string :=
  match field with
  | None => []
  | Some s => if String.eqb s "" then [] else splitBar s
  end.

(** A row of the parsed file ([results.data]).  The seven required columns
    are in every row (the import stops before the loop when the header lacks
    one of them); any other column may be missing. *)
Record CsvRow : Type := mkCsvRow {
  csvId : option string;
  csvTimestamp : string;
  csvExitTimestamp : option string;
  csvSession : option string;
  csvDirection : option string;
  csvSymbol : option string;
  csvMarketRegime : option string;
  csvStrategyNames : option string;
  csvStrategyName : option string;
  csvTaLevels : option string;
  csvDelta : string;
  csvOi : string;
  csvEntryType : string;
  csvExitType : string;
  csvMfe : string;
  csvMae : string;
  csvNotes : option string;
  csvImageUrls : option string;
  csvImageUrl : option string
}.

(** [field || dflt] on a column: the default when the column is missing or
    empty. *)
Definition orDefault (field : option string) (dflt : string) : string :=
  match field with
  | Some s => if String.eqb s "" then dflt else s
  | None => dflt
  end.

(** [plural ? plural.split('|') : (single ? [single] : [])]. *)
Definition splitColumn (plural single : option string) : list string :=
  match plural with
  | Some s =>
      if String.eqb s ""
      then match single with
           | Some x => if String.eqb x "" then [] else [x]
           | None => []
           end
      else splitBar s
  | None =>
      match single with
      | Some x => if String.eqb x "" then [] else [x]
      | None => []
      end
  end.

Section CsvImport.

(** [parseFloat s], [None] standing for [NaN]; [getHours] as in
    [getSessionFromTime]; [uuidv4 k] is the value of the call of [uuidv4()]
    that follows [k] earlier calls. *)
Variable parseFloat : string -> option Q.
Variable getHours : string -> Z.
Variable uuidv4 : nat -> string.

(** The body of [results.data.forEach]: the trade pushed for the row [d],
    none when a number does not parse, and the number of calls of [uuidv4()]
    made so far. *)
Definition parseRow (calls : nat) (d : CsvRow) : option Trade * nat :=
  match parseFloat (csvDelta d), parseFloat (csvOi d),
        parseFloat (csvMfe d), parseFloat (csvMae d) with
  | Some delta, Some oi, Some mfe, Some mae =>
      let timestamp := csvTimestamp d in
      let session :=
        orDefault (csvSession d) (getSessionFromTime getHours timestamp) in
      let (ident, calls') :=
        match csvId d with
        | Some s => if String.eqb s "" then (uuidv4 calls, S calls) else (s, calls)
        | None => (uuidv4 calls, S calls)
        end in
      (Some (mkTrade ident timestamp (csvExitTimestamp d) (Some session)
               (match csvDirection d with
                | Some s => if String.eqb s "Short" then Short else Long
                | None => Long
                end)
               (orDefault (csvSymbol d) "UNK")
               (orDefault (csvMarketRegime d) "Unknown")
               (splitColumn (csvStrategyNames d) (csvStrategyName d))
               (importLevels (csvTaLevels d))
               delta oi (csvEntryType d) (csvExitType d) mfe mae
               (Some (orDefault (csvNotes d) ""))
               (splitColumn (csvImageUrls d) (csvImageUrl d))),
       calls')
  | _, _, _, _ => (None, calls)
  end.

(** The loop over the rows: [validTrades] and the calls of [uuidv4()]. *)
Definition parseRows (calls : nat) (rows : list CsvRow) : list Trade * nat :=
  fold_left
    (fun (acc : list Trade * nat) d =>
       match parseRow (snd acc) d with
       | (Some t, calls') => ((fst acc ++ [t])%list, calls')
       | (None, calls') => (fst acc, calls')
       end)
    rows ([], calls).

(** [validTrades.filter(t => !existingIds.has(t.id))]. *)
Definition newUniqueTrades (allTrades validTrades : list Trade) : list Trade :=
  let existingIds := Js.setOf (map id allTrades) in
  filter (fun t => negb (existsb (String.eqb (id t)) existingIds)) validTrades.

(** [handleImport] after the header check: the new master list (the old one
    when nothing is new) and the calls of [uuidv4()]. *)
Definition handleImport (allTrades : list Trade) (calls : nat)
  (rows : list CsvRow) : list Trade * nat :=
  let (validTrades, calls') := parseRows calls rows in
  let added := newUniqueTrades allTrades validTrades in
  (if (0 <? length added)%nat then (allTrades ++ added)%list else allTrades,
   calls').

End CsvImport.

(** The row has an id of its own. *)
Definition hasId (d : CsvRow) : Prop :=
  exists s, csvId d = Some s /\ s <> "".

(** A row without id column, and a generator of ids for the examples. *)
Definition idlessRow : CsvRow :=
  mkCsvRow None "2024-01-01T10:00" None None None None None None None
    (Some "A|B") "1" "2" "E" "x" "3" "4" None None None.

Definition countingUuid (k : nat) : string := "uuid-" ++ Js.showZ (Z.of_nat k).

(** The trade pushed for [idlessRow] when every number parses as 1, the hour
    is 10 and [k] ids were generated before. *)
Definition idlessTrade (k : nat) : Trade :=
  mkTrade (countingUuid k) "2024-01-01T10:00" None (Some "S1") Long "UNK"
    "Unknown" [] ["A"; "B"] 1 1 "E" "x" 1 1 (Some "") [].

(** The strategies of all trades: [Array.from(set).sort()]. *)
Definition allStrategies (trades : list Trade) : list string :=
  let set :=
    fold_left
      (fun set t => fold_left (fun set s => Js.setAdd s set) (strategyNames t) set)
      trades [] in
  Js.sortStr set.

Section TradeFilter.

(** [getTime s] is [new Date(s).getTime()]; [startOfDay s] and [endOfDay s]
    are [new Date(s).setHours(0, 0, 0, 0)] and
    [new Date(s).setHours(23, 59, 59, 999)]. *)
Variables getTime startOfDay endOfDay : string -> Q.

Definition filteredTrades (trades : list Trade)
  (selectedStrategies : list string) (startDate endDate : string)
  : list Trade :=
  let result :=
    if (0 <? length selectedStrategies)%nat
    then filter
           (fun t =>
              existsb (fun s => existsb (String.eqb s) selectedStrategies)
                (strategyNames t))
           trades
    else trades in
  if negb (String.eqb startDate "") || negb (String.eqb endDate "")
  then filter
         (fun t =>
            let tradeDate := getTime (timestamp t) in
            let validStart :=
              if negb (String.eqb startDate "")
              then Qle_bool (startOfDay startDate) tradeDate else true in
            let validEnd :=
              if negb (String.eqb endDate "")
              then Qle_bool tradeDate (endOfDay endDate) else true in
            validStart && validEnd)
         result
  else result.

End TradeFilter.

(** [handleToggleStrategy]: the test reads the selection of the current
    render, the update is applied to the state [prev]. *)
Definition handleToggleStrategy (selectedStrategies : list string)
  (strategy : string) (prev : list string) : list string :=
  if existsb (String.eqb strategy) selectedStrategies
  then filter (fun s => negb (String.eqb s strategy)) prev
  else (prev ++ [strategy])%list.

(* ================================================================== *)
(** ** The strategy filter (StrategyFilter) and the settings (Settings) *)

Record StrategyGroup : Type := mkStrategyGroup {
  groupId : string;
  groupName : string;
  groupStrategies : list string
}.

(** [strategies.includes(s)]. *)
Definition includes (s : string) (l : list string) : bool :=
  existsb (String.eqb s) l.

(** The body of [strategyGroups.forEach] in [groupedDisplay], on the pair of
    [grouped] and [strategyToGroupMap]. *)
Definition addGroup (strategies : list string)
  (acc : list (string * list string) * list (string * string))
  (g : StrategyGroup) : list (string * list string) * list (string * string) :=
  let (grouped, strategyToGroupMap) := acc in
  let stratsInGroup :=
    filter (fun s => includes s strategies) (groupStrategies g) in
  if (0 <? length stratsInGroup)%nat
  then (Js.set (groupId g) stratsInGroup grouped,
        fold_left (fun m s => Js.set s (groupId g) m) stratsInGroup
          strategyToGroupMap)
  else acc.

Definition groupedDisplay (strategies : list string)
  (strategyGroups : list StrategyGroup)
  : list (string * list string) * list string :=
  let maps := fold_left (addGroup strategies) strategyGroups ([], []) in
  let ungrouped :=
    fold_left
      (fun ungrouped s =>
         match Js.get s (snd maps) with
         | Some _ => ungrouped
         | None => (ungrouped ++ [s])%list
         end)
      strategies [] in
  (fst maps, ungrouped).

(** [toggleGroup]: the calls of [onToggle] made by the loop, applied in order
    to the selection; [onToggle] is [handleToggleStrategy] of the same
    render. *)
Definition toggleGroup (strategies : list string)
  (strategyGroups : list StrategyGroup) (selectedStrategies : list string)
  (group : string) : list string :=
  let groupStrats :=
    match Js.get group (fst (groupedDisplay strategies strategyGroups)) with
    | Some l => l
    | None => []
    end in
  let allInGroupSelected :=
    forallb (fun s => includes s selectedStrategies) groupStrats in
  let toggled :=
    if allInGroupSelected
    then filter (fun s => includes s selectedStrategies) groupStrats
    else filter (fun s => negb (includes s selectedStrategies)) groupStrats in
  fold_left (fun prev s => handleToggleStrategy selectedStrategies s prev)
    toggled selectedStrategies.

Section SettingsLists.

(** [trim s] is [s.trim()]. *)
Variable trim : string -> string.

(** [handleAddLevel] and [handleAddEntryType]: the new list. *)
Definition handleAddLevel (taLevels : list string) (newLevel : string)
  : list string :=
  if negb (String.eqb (trim newLevel) "")
     && negb (includes (trim newLevel) taLevels)
  then (taLevels ++ [trim newLevel])%list
  else taLevels.

End SettingsLists.

(** [handleDeleteLevel] and [handleDeleteEntryType]. *)
Definition handleDeleteLevel (taLevels : list string) (lvl : string)
  : list string :=
  filter (fun l => negb (String.eqb l lvl)) taLevels.

Definition toggleStrategyInGroup (groups : list StrategyGroup)
  (group strat : string) : list StrategyGroup :=
  map
    (fun g =>
       if negb (String.eqb (groupId g) group) then g
       else
         let exists_ := includes strat (groupStrategies g) in
         mkStrategyGroup (groupId g) (groupName g)
           (if exists_
            then filter (fun s => negb (String.eqb s strat)) (groupStrategies g)
            else (groupStrategies g ++ [strat])%list))
    groups.

(* ================================================================== *)
(** ** The trade form (TradeForm) *)

(** The size computed for an uploaded image in [handleImageUpload]. *)
Definition scaledSize (width height : Q) : Q * Q :=
  let MAX_WIDTH := 800 in
  let MAX_HEIGHT := 600 in
  if Js.gtb width height
  then
    if Js.gtb width MAX_WIDTH
    then (MAX_WIDTH, height * (MAX_WIDTH / width))
    else (width, height)
  else
    if Js.gtb height MAX_HEIGHT
    then (width * (MAX_HEIGHT / height), MAX_HEIGHT)
    else (width, height).

(* ================================================================== *)
(** * Properties *)

(** ** The stable sort *)

Section SortFacts.

Context {A : Type} (leb : A -> A -> bool).

Local Abbreviation lebP := (fun a b : A => leb a b = true).

Lemma insert_perm (x : A) (l : list A) : Permutation (Js.insert leb x l) (x :: l).
Proof.
  induction l as [|y r IH]; simpl.
  - apply Permutation_refl.
  - destruct (leb x y).
    + apply Permutation_refl.
    + eapply perm_trans; [apply perm_skip, IH | apply perm_swap].
Qed.

Lemma sort_perm (l : list A) : Permutation (Js.sort leb l) l.
Proof.
  induction l as [|x r IH]; simpl.
  - constructor.
  - eapply perm_trans; [apply insert_perm | apply perm_skip, IH].
Qed.

Lemma sort_In (l : list A) (x : A) : In x (Js.sort leb l) <-> In x l.
Proof.
  split; apply Permutation_in;
    [apply sort_perm | apply Permutation_sym, sort_perm].
Qed.

Lemma sort_length (l : list A) : length (Js.sort leb l) = length l.
Proof. apply Permutation_length, sort_perm. Qed.

Hypothesis leb_total : forall a b, leb a b = true \/ leb b a = true.

Lemma insert_sorted (x : A) (l : list A) :
  Sorted lebP l -> Sorted lebP (Js.insert leb x l).
Proof.
  induction 1 as [|y r Hr IH Hhd]; simpl.
  - repeat constructor.
  - destruct (leb x y) eqn:E.
    + constructor; [constructor; assumption | constructor; exact E].
    + constructor; [exact IH|].
      destruct (leb_total x y) as [Hxy|Hyx]; [congruence|].
      destruct r as [|z r']; simpl.
      * constructor; exact Hyx.
      * destruct (leb x z); constructor; [exact Hyx|].
        inversion Hhd; assumption.
Qed.

Lemma sort_sorted (l : list A) : Sorted lebP (Js.sort leb l).
Proof.
  induction l as [|x r IH]; simpl; [constructor | apply insert_sorted, IH].
Qed.

Hypothesis leb_trans : forall a b c, leb a b = true -> leb b c = true -> leb a c = true.

Lemma sort_strongly_sorted (l : list A) : StronglySorted lebP (Js.sort leb l).
Proof.
  apply Sorted_StronglySorted; [|apply sort_sorted].
  intros a b c; apply leb_trans.
Qed.

(** The first element of a sorted list is below all the others. *)
Lemma sort_head_least (l : list A) (h : A) :
  hd_error (Js.sort leb l) = Some h -> forall x, In x l -> leb h x = true.
Proof.
  intros Hh x Hx.
  apply sort_In in Hx.
  pose proof (sort_strongly_sorted l) as HS.
  destruct (Js.sort leb l) as [|y r]; [discriminate|].
  simpl in Hh; injection Hh as ->.
  destruct Hx as [->|Hx].
  - destruct (leb_total x x); assumption.
  - inversion HS as [|? ? _ Hall]; subst.
    rewrite Forall_forall in Hall; apply Hall, Hx.
Qed.

End SortFacts.

Lemma Qle_bool_total (a b : Q) : Qle_bool a b = true \/ Qle_bool b a = true.
Proof.
  rewrite !Qle_bool_iff.
  destruct (Qlt_le_dec a b) as [H|H]; [left; apply Qlt_le_weak, H | right; exact H].
Qed.

Lemma Qle_bool_trans (a b c : Q) :
  Qle_bool a b = true -> Qle_bool b c = true -> Qle_bool a c = true.
Proof. rewrite !Qle_bool_iff; apply Qle_trans. Qed.

Lemma sortNum_sorted (l : list Q) : StronglySorted Qle (Js.sortNum l).
Proof.
  pose proof (sort_strongly_sorted Qle_bool Qle_bool_total Qle_bool_trans l) as H.
  unfold Js.sortNum.
  induction H as [|x r Hr IH Hall]; constructor; [exact IH|].
  eapply Forall_impl; [|exact Hall].
  intros y Hy; apply Qle_bool_iff, Hy.
Qed.

(** ** The insertion-ordered map and set *)

Section MapFacts.

Context {V : Type}.
Implicit Types (m : list (string * V)) (k : string) (v : V).

Lemma get_set_same m k v : Js.get k (Js.set k v m) = Some v.
Proof.
  induction m as [|[k' v'] r IH]; simpl.
  - now rewrite String.eqb_refl.
  - destruct (String.eqb k' k) eqn:E; simpl.
    + now rewrite String.eqb_refl.
    + now rewrite E.
Qed.

Lemma get_set_other m k k' v : k <> k' -> Js.get k' (Js.set k v m) = Js.get k' m.
Proof.
  intros Hne.
  induction m as [|[k0 v0] r IH]; simpl.
  - apply String.eqb_neq in Hne; now rewrite Hne.
  - destruct (String.eqb k0 k) eqn:E; simpl.
    + apply String.eqb_eq in E; subst k0.
      apply String.eqb_neq in Hne; now rewrite Hne.
    + destruct (String.eqb k0 k'); [reflexivity | exact IH].
Qed.

Lemma get_In m k v : Js.get k m = Some v -> In (k, v) m.
Proof.
  induction m as [|[k' v'] r IH]; simpl; [discriminate|].
  destruct (String.eqb k' k) eqn:E.
  - apply String.eqb_eq in E; subst. intros [= ->]; now left.
  - intros H; right; apply IH, H.
Qed.

Lemma get_None m k : Js.get k m = None <-> ~ In k (map fst m).
Proof.
  induction m as [|[k' v'] r IH]; simpl.
  - tauto.
  - destruct (String.eqb k' k) eqn:E.
    + apply String.eqb_eq in E; subst. split; [discriminate | intros H; exfalso; auto].
    + apply String.eqb_neq in E. rewrite IH. tauto.
Qed.

Lemma In_get m k v : NoDup (map fst m) -> In (k, v) m -> Js.get k m = Some v.
Proof.
  induction m as [|[k' v'] r IH]; simpl; [tauto|].
  intros Hnd [H|H].
  - injection H as -> ->. now rewrite String.eqb_refl.
  - inversion Hnd as [|? ? Hnotin Hnd']; subst.
    destruct (String.eqb k' k) eqn:E.
    + apply String.eqb_eq in E; subst.
      exfalso; apply Hnotin. change k with (fst (k, v)). now apply in_map.
    + apply IH; assumption.
Qed.

Lemma set_keys m k v :
  map fst (Js.set k v m) =
  if existsb (String.eqb k) (map fst m) then map fst m else (map fst m ++ [k])%list.
Proof.
  induction m as [|[k' v'] r IH]; simpl; [reflexivity|].
  rewrite (String.eqb_sym k k').
  destruct (String.eqb k' k) eqn:E; simpl.
  - apply String.eqb_eq in E; now subst.
  - rewrite IH. now destruct (existsb (String.eqb k) (map fst r)).
Qed.

Lemma existsb_eqb_In (k : string) (l : list string) :
  existsb (String.eqb k) l = true <-> In k l.
Proof.
  rewrite existsb_exists. split.
  - intros [x [Hx E]]. apply String.eqb_eq in E. now subst.
  - intros H. exists k. split; [exact H | apply String.eqb_refl].
Qed.

Lemma existsb_eqb_false (k : string) (l : list string) :
  existsb (String.eqb k) l = false <-> ~ In k l.
Proof.
  rewrite <- existsb_eqb_In. destruct (existsb (String.eqb k) l); intuition congruence.
Qed.

Lemma set_keys_NoDup m k v : NoDup (map fst m) -> NoDup (map fst (Js.set k v m)).
Proof.
  intros H. rewrite set_keys.
  destruct (existsb (String.eqb k) (map fst m)) eqn:E; [exact H|].
  apply existsb_eqb_false in E.
  apply NoDup_rev in H. rewrite <- (rev_involutive (_ ++ _)).
  apply NoDup_rev. rewrite rev_app_distr. simpl.
  constructor; [rewrite <- in_rev; exact E | exact H].
Qed.

Lemma set_keys_In m k v k' :
  In k' (map fst (Js.set k v m)) <-> k' = k \/ In k' (map fst m).
Proof.
  rewrite set_keys.
  destruct (existsb (String.eqb k) (map fst m)) eqn:E.
  - apply existsb_eqb_In in E. split; [tauto | intros [->|H]; assumption].
  - rewrite in_app_iff; simpl. intuition.
Qed.

End MapFacts.

Lemma setAdd_In (x y : string) (s : list string) :
  In y (Js.setAdd x s) <-> y = x \/ In y s.
Proof.
  unfold Js.setAdd.
  destruct (existsb (String.eqb x) s) eqn:E.
  - apply existsb_eqb_In in E. split; [tauto | intros [->|H]; assumption].
  - rewrite in_app_iff; simpl. intuition.
Qed.

Lemma setAdd_NoDup (x : string) (s : list string) :
  NoDup s -> NoDup (Js.setAdd x s).
Proof.
  intros H. unfold Js.setAdd.
  destruct (existsb (String.eqb x) s) eqn:E; [exact H|].
  apply existsb_eqb_false in E.
  apply NoDup_rev in H. rewrite <- (rev_involutive (_ ++ _)).
  apply NoDup_rev. rewrite rev_app_distr. simpl.
  constructor; [rewrite <- in_rev; exact E | exact H].
Qed.

Lemma setOf_from (l s : list string) :
  (NoDup s -> NoDup (fold_left (fun s x => Js.setAdd x s) l s)) /\
  (forall y, In y (fold_left (fun s x => Js.setAdd x s) l s) <-> In y s \/ In y l).
Proof.
  revert s. induction l as [|x r IH]; intros s; simpl.
  - split; [tauto | intros y; tauto].
  - destruct (IH (Js.setAdd x s)) as [IH1 IH2]. split.
    + intros H. apply IH1, setAdd_NoDup, H.
    + intros y. rewrite IH2, setAdd_In. intuition.
Qed.

Lemma setOf_NoDup (l : list string) : NoDup (Js.setOf l).
Proof. apply (setOf_from l []). constructor. Qed.

Lemma setOf_In (l : list string) (y : string) : In y (Js.setOf l) <-> In y l.
Proof.
  unfold Js.setOf. rewrite (proj2 (setOf_from l [])). simpl. tauto.
Qed.

(* ================================================================== *)
(** ** Delta categories *)

Lemma gtb_iff (a b : Q) : Js.gtb a b = true <-> b < a.
Proof.
  unfold Js.gtb. rewrite negb_true_iff.
  destruct (Qle_bool a b) eqn:E.
  - apply Qle_bool_iff in E. split; [discriminate | intros H; lra].
  - split; [intros _ | reflexivity].
    apply Qnot_le_lt. intros H. apply Qle_bool_iff in H. congruence.
Qed.

Lemma gtb_false_iff (a b : Q) : Js.gtb a b = false <-> a <= b.
Proof.
  unfold Js.gtb. rewrite negb_false_iff. apply Qle_bool_iff.
Qed.

Lemma getDeltaCategory_opp (x : Q) : getDeltaCategory (- x) = getDeltaCategory x.
Proof.
  unfold getDeltaCategory, Js.gtb.
  now rewrite !(Qleb_comp _ _ (Qabs_opp x) _ _ (Qeq_refl _)).
Qed.

(** C9. The category of a delta depends only on its magnitude:
    [getDeltaCategory (-x) = getDeltaCategory x]; the tests are strict, so the
    category is High++ exactly when [|x| > 20], High exactly when
    [7 < |x| <= 20] and Low exactly when [|x| <= 7]; in particular 7 is Low
    and 20 is High. *)
Theorem getDeltaCategory_magnitude : forall x : Q,
  getDeltaCategory (- x) = getDeltaCategory x /\
  (getDeltaCategory x = HIGH_PLUS <-> 20 < Qabs x) /\
  (getDeltaCategory x = HIGH <-> 7 < Qabs x /\ Qabs x <= 20) /\
  (getDeltaCategory x = LOW <-> Qabs x <= 7) /\
  getDeltaCategory 7 = LOW /\ getDeltaCategory 20 = HIGH.
Proof.
  intros x. split; [apply getDeltaCategory_opp|].
  unfold getDeltaCategory.
  destruct (Js.gtb (Qabs x) 20) eqn:E20; destruct (Js.gtb (Qabs x) 7) eqn:E7;
    try apply gtb_iff in E20; try apply gtb_iff in E7;
    try apply gtb_false_iff in E20; try apply gtb_false_iff in E7;
    repeat split; try discriminate; try reflexivity; try assumption;
    intros; try lra.
Qed.

(* ================================================================== *)
(** ** Sessions *)

(** C8. For a timestamp whose local hour is one of 0..23, the label is S1
    exactly for the hours 5..10, S2 for 11..16, S3 for 17..22, IS4 for 1..4
    and S4 for the two remaining hours 0 and 23: the five labels partition
    the 24 hours, each hour falling into exactly one of them. *)
Theorem getSessionFromTime_partition :
  forall (getHours : string -> Z) (dateStr : string),
  (0 <= getHours dateStr < 24)%Z ->
  let hour := getHours dateStr in
  let s := getSessionFromTime getHours dateStr in
  (s = "S1" <-> (5 <= hour < 11)%Z) /\
  (s = "S2" <-> (11 <= hour < 17)%Z) /\
  (s = "S3" <-> (17 <= hour < 23)%Z) /\
  (s = "IS4" <-> (1 <= hour < 5)%Z) /\
  (s = "S4" <-> hour = 0%Z \/ hour = 23%Z) /\
  In s ["S1"; "S2"; "S3"; "S4"; "IS4"].
Proof.
  intros getHours dateStr Hh hour s. subst s hour.
  unfold getSessionFromTime.
  repeat match goal with
  | |- context [(?a <=? ?b)%Z] => destruct (Z.leb_spec a b)
  | |- context [(?a <? ?b)%Z] => destruct (Z.ltb_spec a b)
  end; simpl;
  repeat split; intros; try discriminate; try lia; auto 6.
Qed.

Lemma getSessionFromTime_partition_witness :
  (0 <= 13 < 24)%Z /\ getSessionFromTime (fun _ => 13%Z) "2024-03-05T13:45" = "S2".
Proof.
  split; [lia|].
  apply (getSessionFromTime_partition (fun _ => 13%Z) "2024-03-05T13:45"); lia.
Defined.

(* ================================================================== *)
(** ** Duration formatting *)

Lemma Qfloor_unique (x : Q) (z : Z) :
  inject_Z z <= x -> x < inject_Z (z + 1) -> Qfloor x = z.
Proof.
  intros Hlo Hhi.
  pose proof (Qfloor_le x) as H1. pose proof (Qlt_floor x) as H2.
  assert (Ha : (z < Qfloor x + 1)%Z) by (rewrite Zlt_Qlt; lra).
  assert (Hb : (Qfloor x < z + 1)%Z) by (rewrite Zlt_Qlt; lra).
  lia.
Qed.

Lemma Qfloor_add_Z (x : Q) (z : Z) : Qfloor (x + inject_Z z) = (Qfloor x + z)%Z.
Proof.
  apply Qfloor_unique.
  - rewrite inject_Z_plus. pose proof (Qfloor_le x). lra.
  - rewrite !inject_Z_plus. pose proof (Qlt_floor x) as H.
    rewrite inject_Z_plus in H. lra.
Qed.

Lemma Qfloor_nonneg (x : Q) : 0 <= x -> (0 <= Qfloor x)%Z.
Proof.
  intros H. change 0%Z with (Qfloor 0). apply Qfloor_resp_le, H.
Qed.

Lemma rem60_nonneg (m : Q) :
  0 <= m -> Js.rem m 60 = m - 60 * inject_Z (Qfloor (m / 60)).
Proof.
  intros H. unfold Js.rem, Js.trunc.
  assert (E : Qle_bool 0 (m / 60) = true).
  { apply Qle_bool_iff. unfold Qdiv. apply Qmult_le_0_compat; [exact H|].
    unfold Qle; simpl; lia. }
  now rewrite E.
Qed.

Lemma hours_remainder (m : Q) :
  0 <= m ->
  let h := Qfloor (m / 60) in
  let r := m - 60 * inject_Z h in
  0 <= r /\ r < 60 /\ Js.round m = (Js.round r + 60 * h)%Z.
Proof.
  intros Hm h r.
  pose proof (Qfloor_le (m / 60)) as H1.
  pose proof (Qlt_floor (m / 60)) as H2.
  fold h in H1, H2. rewrite inject_Z_plus in H2.
  assert (Eq : m == 60 * (m / 60)) by field.
  assert (Hr0 : 0 <= r) by (unfold r; lra).
  assert (Hr1 : r < 60) by (unfold r; change (inject_Z 1) with 1 in H2; lra).
  repeat split; try assumption.
  unfold Js.round.
  rewrite <- Qfloor_add_Z.
  apply Qfloor_comp. rewrite inject_Z_mult. unfold r.
  change (inject_Z 60) with 60. lra.
Qed.

(** C3, as the code has it.  For a non-negative number of minutes [m] the
    rendering is "-" when [m] is 0 and the rounded minutes followed by "m"
    below 60; from 60 on it is "{h}h {k}m" with [h = floor(m/60)] and
    [k = round(m mod 60)], the remainder rounded on its own.  [k] lies in
    0..60; it equals [round(m) mod 60] whenever the remainder is below 59.5
    (so for every whole number of minutes), and it is 60 from 59.5 on, where
    [round(m) mod 60] is 0.  0 gives "-", 45 gives "45m", 125 gives "2h 5m". *)
Theorem formatDuration_rendering : forall m : Q,
  0 <= m ->
  (m == 0 -> formatDuration m = "-") /\
  (~ m == 0 -> m < 60 -> formatDuration m = Js.showZ (Js.round m) ++ "m") /\
  (60 <= m ->
     let h := Qfloor (m / 60) in
     let r := m - 60 * inject_Z h in
     let k := Js.round r in
     formatDuration m = Js.showZ h ++ "h " ++ Js.showZ k ++ "m" /\
     0 <= r /\ r < 60 /\ (0 <= k <= 60)%Z /\
     (r < 119 # 2 -> k = (Js.round m mod 60)%Z) /\
     (119 # 2 <= r -> k = 60%Z /\ (Js.round m mod 60)%Z = 0%Z)) /\
  formatDuration 0 = "-" /\
  formatDuration 45 = "45m" /\
  formatDuration 125 = "2h 5m".
Proof.
  intros m Hm.
  split; [|split; [|split; [|repeat split; reflexivity]]].
  - intros E. unfold formatDuration.
    now rewrite (Qeq_eq_bool _ _ E).
  - intros Hne Hlt. unfold formatDuration.
    destruct (Qeq_bool m 0) eqn:E; [apply Qeq_bool_eq in E; contradiction|].
    assert (El : Js.ltb m 60 = true).
    { unfold Js.ltb. rewrite negb_true_iff.
      destruct (Qle_bool 60 m) eqn:E'; [|reflexivity].
      apply Qle_bool_iff in E'. lra. }
    now rewrite El.
  - intros Hge h r k.
    destruct (hours_remainder m Hm) as [Hr0 [Hr1 Hround]].
    fold h in Hr0, Hr1, Hround. fold r in Hr0, Hr1, Hround. fold k in Hround.
    assert (Hk0 : (0 <= k)%Z).
    { unfold k, Js.round. apply Qfloor_nonneg. lra. }
    assert (Hk1 : (k <= 60)%Z).
    { assert (Hlt : (k < 61)%Z); [|lia].
      unfold k, Js.round. pose proof (Qfloor_le (r + (1 # 2))) as Hfl.
      rewrite Zlt_Qlt. change (inject_Z 61) with 61. lra. }
    split; [|repeat split; try assumption].
    + unfold formatDuration.
      destruct (Qeq_bool m 0) eqn:E; [apply Qeq_bool_eq in E; lra|].
      assert (El : Js.ltb m 60 = false).
      { unfold Js.ltb. rewrite negb_false_iff. apply Qle_bool_iff, Hge. }
      rewrite El, (rem60_nonneg m Hm). reflexivity.
    + intros Hlt. rewrite Hround.
      rewrite Z.mul_comm, Z_mod_plus_full.
      symmetry. apply Z.mod_small. split; [exact Hk0|].
      unfold k, Js.round.
      pose proof (Qfloor_le (r + (1 # 2))) as Hfl.
      rewrite Zlt_Qlt. change (inject_Z 60) with 60. lra.
    + assert (Hge60 : (60 <= k)%Z).
      { unfold k, Js.round. change 60%Z with (Qfloor 60).
        apply Qfloor_resp_le. lra. }
      lia.
    + assert (Hge60 : (60 <= k)%Z).
      { unfold k, Js.round. change 60%Z with (Qfloor 60).
        apply Qfloor_resp_le. lra. }
      rewrite Hround. assert (Ek : k = 60%Z) by lia. rewrite Ek.
      rewrite Z.mul_comm, Z_mod_plus_full. reflexivity.
Qed.

Lemma formatDuration_rendering_witness :
  0 <= 125 /\ 60 <= 125 /\ formatDuration 125 = "2h 5m".
Proof.
  assert (H0 : 0 <= 125) by (unfold Qle; simpl; lia).
  assert (H60 : 60 <= 125) by (unfold Qle; simpl; lia).
  split; [exact H0 | split; [exact H60|]].
  destruct (formatDuration_rendering 125 H0) as (_ & _ & H & _).
  destruct (H H60) as [E _]. exact E.
Defined.

(** C3, as the specification words it, fails: at 119.5 minutes the code
    rounds the remainder 59.5 up to 60 and renders "1h 60m", while
    [round(119.5) mod 60] is 0. *)
Lemma formatDuration_round_mod_fails :
  0 <= 239 # 2 /\
  formatDuration (239 # 2) = "1h 60m" /\
  formatDuration_spec (239 # 2) = "1h 0m" /\
  formatDuration (239 # 2) <> formatDuration_spec (239 # 2).
Proof.
  split; [unfold Qle; simpl; lia|].
  split; [reflexivity|]. split; [reflexivity|].
  vm_compute. discriminate.
Qed.

(* ================================================================== *)
(** ** The percentile estimator *)

Section NumSort.

Local Abbreviation ins := (Js.insert Qle_bool).

Lemma Forall2_Qeq_refl (l : list Q) : Forall2 Qeq l l.
Proof. induction l; constructor; [reflexivity | assumption]. Qed.

Lemma Forall2_Qeq_trans (a b c : list Q) :
  Forall2 Qeq a b -> Forall2 Qeq b c -> Forall2 Qeq a c.
Proof.
  intros H. revert c. induction H as [|x y l l' Hxy Hl IH]; intros c Hc.
  - inversion Hc; constructor.
  - inversion Hc as [|? z ? l'' Hyz Hl']; subst. constructor.
    + now rewrite Hxy.
    + apply IH, Hl'.
Qed.

Lemma insert_Qeq (x : Q) (s s' : list Q) :
  Forall2 Qeq s s' -> Forall2 Qeq (ins x s) (ins x s').
Proof.
  induction 1 as [|y y' l l' Hy Hl IH]; simpl.
  - apply Forall2_Qeq_refl.
  - rewrite (Qleb_comp x x (Qeq_refl x) y y' Hy).
    destruct (Qle_bool x y').
    + constructor; [reflexivity|]. constructor; assumption.
    + constructor; assumption.
Qed.

Lemma insert_insert (x y : Q) (s : list Q) :
  Forall2 Qeq (ins y (ins x s)) (ins x (ins y s)).
Proof.
  induction s as [|h t IH]; simpl.
  - destruct (Qle_bool y x) eqn:Eyx; destruct (Qle_bool x y) eqn:Exy;
      try apply Forall2_Qeq_refl.
    + apply Qle_bool_iff in Eyx, Exy.
      assert (E : x == y) by lra.
      repeat constructor; [symmetry; exact E | exact E].
    + destruct (Qle_bool_total x y); congruence.
  - destruct (Qle_bool x h) eqn:Exh; destruct (Qle_bool y h) eqn:Eyh; simpl;
      rewrite ?Exh, ?Eyh.
    + destruct (Qle_bool y x) eqn:Eyx; destruct (Qle_bool x y) eqn:Exy;
        try apply Forall2_Qeq_refl.
      * apply Qle_bool_iff in Eyx, Exy.
        assert (E : x == y) by lra.
        constructor; [symmetry; exact E|].
        constructor; [exact E | apply Forall2_Qeq_refl].
      * destruct (Qle_bool_total x y); congruence.
    + destruct (Qle_bool y x) eqn:Eyx; [|apply Forall2_Qeq_refl].
      apply Qle_bool_iff in Eyx, Exh.
      assert (Hyh : Qle_bool y h = true) by (apply Qle_bool_iff; lra).
      congruence.
    + destruct (Qle_bool x y) eqn:Exy; [|apply Forall2_Qeq_refl].
      apply Qle_bool_iff in Exy, Eyh.
      assert (Hxh : Qle_bool x h = true) by (apply Qle_bool_iff; lra).
      congruence.
    + constructor; [reflexivity | exact IH].
Qed.

Lemma sortNum_Permutation (l l' : list Q) :
  Permutation l l' -> Forall2 Qeq (Js.sortNum l) (Js.sortNum l').
Proof.
  unfold Js.sortNum.
  induction 1 as [|x l l' _ IH|x y l|l l' l'' _ IH1 _ IH2]; simpl.
  - constructor.
  - apply insert_Qeq, IH.
  - apply insert_insert.
  - eapply Forall2_Qeq_trans; eassumption.
Qed.

Lemma Forall2_Qeq_nth (s s' : list Q) (i : nat) :
  Forall2 Qeq s s' -> nth i s 0 == nth i s' 0.
Proof.
  intros H. revert i.
  induction H as [|x y l l' Hxy _ IH]; intros [|i]; simpl;
    try reflexivity; [exact Hxy | apply IH].
Qed.

End NumSort.

(** *** Binary64 rounding *)

Import Binary64.

Lemma pow2_pos (e : Z) : 0 < pow2 e.
Proof. apply Qpower_0_lt. reflexivity. Qed.

Lemma pow2_add (a b : Z) : pow2 (a + b) == pow2 a * pow2 b.
Proof. apply Qpower_plus. intros H; discriminate H. Qed.

Lemma pow2_Z (k : Z) : (0 <= k)%Z -> pow2 k == inject_Z (2 ^ k).
Proof. intros H. unfold pow2. rewrite Zpower_Qpower by exact H. reflexivity. Qed.

Lemma pow2_le (a b : Z) : (a <= b)%Z -> pow2 a <= pow2 b.
Proof. intros H. apply Qpower_le_compat_l; [exact H | discriminate]. Qed.

Lemma pow2_lt (a b : Z) : (a < b)%Z -> pow2 a < pow2 b.
Proof. intros H. apply Qpower_lt_compat_l; [exact H | reflexivity]. Qed.

Lemma pow2_lt_inv (a b : Z) : pow2 a < pow2 b -> (a < b)%Z.
Proof. intros H. apply (Qpower_lt_compat_l_inv 2); [exact H | reflexivity]. Qed.

Lemma Qmake_mult_den (a : Z) (b : positive) :
  (a # b) * inject_Z (Zpos b) == inject_Z a.
Proof.
  unfold Qeq, Qmult, inject_Z. cbn [Qnum Qden].
  rewrite Pos.mul_1_r. ring.
Qed.

Lemma flog2_spec (x : Q) :
  0 < x -> pow2 (flog2 x) <= x /\ x < pow2 (flog2 x + 1).
Proof.
  intros Hx. destruct x as [a b].
  assert (Ha : (0 < a)%Z) by (unfold Qlt in Hx; simpl in Hx; lia).
  unfold flog2. cbn [Qnum Qden].
  pose proof (Z.log2_spec a Ha) as [A1 A2].
  pose proof (Z.log2_spec (Zpos b) (Pos2Z.is_pos b)) as [B1 B2].
  pose proof (Z.log2_nonneg a) as La.
  pose proof (Z.log2_nonneg (Zpos b)) as Lb.
  set (la := Z.log2 a) in *. set (lb := Z.log2 (Zpos b)) in *.
  pose proof (Qmake_mult_den a b) as Ex.
  assert (Hup : a # b < pow2 (la - lb + 1)).
  { apply (Qmult_lt_r _ _ (pow2 lb) (pow2_pos lb)).
    rewrite <- pow2_add. replace (la - lb + 1 + lb)%Z with (Z.succ la) by lia.
    rewrite (pow2_Z (Z.succ la)) by lia.
    apply Qle_lt_trans with (inject_Z a).
    - rewrite <- Ex. apply Qmult_le_l; [exact Hx|].
      rewrite pow2_Z by lia. rewrite <- Zle_Qle. exact B1.
    - rewrite <- Zlt_Qlt. exact A2. }
  assert (Hlo : pow2 (la - lb - 1) < a # b).
  { apply (Qmult_lt_r _ _ (pow2 (Z.succ lb)) (pow2_pos _)).
    rewrite <- pow2_add. replace (la - lb - 1 + Z.succ lb)%Z with la by lia.
    rewrite (pow2_Z la) by lia.
    apply Qle_lt_trans with (inject_Z a).
    - rewrite <- Zle_Qle. exact A1.
    - rewrite <- Ex. apply Qmult_lt_l; [exact Hx|].
      rewrite pow2_Z by lia. rewrite <- Zlt_Qlt. exact B2. }
  destruct (Qle_bool (pow2 (la - lb)) (a # b)) eqn:E.
  - apply Qle_bool_iff in E. split; [exact E | exact Hup].
  - split; [apply Qlt_le_weak, Hlo|].
    replace (la - lb - 1 + 1)%Z with (la - lb)%Z by lia.
    apply Qnot_le_lt. intros H. apply Qle_bool_iff in H. congruence.
Qed.

Lemma flog2_mono (x y : Q) : 0 < x -> x <= y -> (flog2 x <= flog2 y)%Z.
Proof.
  intros Hx Hxy.
  destruct (flog2_spec x Hx) as [X1 _].
  destruct (flog2_spec y) as [_ Y2]; [lra|].
  assert (H : pow2 (flog2 x) < pow2 (flog2 y + 1)) by lra.
  apply pow2_lt_inv in H. lia.
Qed.

Lemma rne_floor (x : Q) : (Qfloor x <= rne x <= Qfloor x + 1)%Z.
Proof.
  unfold rne. destruct (Qcompare _ _); [destruct (Z.even _)| |]; lia.
Qed.

Lemma rne_inject (x : Q) (z : Z) : x == inject_Z z -> rne x = z.
Proof.
  intros E. unfold rne. rewrite (Qfloor_comp _ _ E), Qfloor_Z.
  assert (H : Qcompare (x - inject_Z z) (1 # 2) = Lt).
  { rewrite <- Qlt_alt. generalize dependent (inject_Z z). intros q E. lra. }
  rewrite H. reflexivity.
Qed.

Lemma rne_le (x : Q) (z : Z) : x <= inject_Z z -> (rne x <= z)%Z.
Proof.
  intros H. destruct (Qlt_le_dec x (inject_Z z)) as [L|G].
  - pose proof (Qfloor_le x) as F.
    assert (K : inject_Z (Qfloor x) < inject_Z z) by lra.
    rewrite <- Zlt_Qlt in K. pose proof (rne_floor x). lia.
  - rewrite (rne_inject x z); [lia | lra].
Qed.

Lemma rne_ge (x : Q) (z : Z) : inject_Z z <= x -> (z <= rne x)%Z.
Proof.
  intros H. apply Qfloor_resp_le in H. rewrite Qfloor_Z in H.
  pose proof (rne_floor x). lia.
Qed.

Lemma rne_mono (x y : Q) : x <= y -> (rne x <= rne y)%Z.
Proof.
  intros H. pose proof (Qfloor_resp_le _ _ H) as F.
  destruct (Z.eq_dec (Qfloor x) (Qfloor y)) as [E|N].
  - unfold rne. rewrite E.
    destruct (Qcompare (x - inject_Z (Qfloor y)) (1 # 2)) eqn:Cx;
      destruct (Qcompare (y - inject_Z (Qfloor y)) (1 # 2)) eqn:Cy;
      try rewrite <- Qeq_alt in *; try rewrite <- Qlt_alt in *;
      try rewrite <- Qgt_alt in *;
      try destruct (Z.even (Qfloor y)); try lia; lra.
  - pose proof (rne_floor x). pose proof (rne_floor y). lia.
Qed.

Lemma roundPos_scaled (x : Q) :
  0 < x ->
  let e := Z.max (flog2 x - 52) (-1074) in
  0 < x / pow2 e /\ x / pow2 e < inject_Z (2 ^ 53) /\
  (e = (flog2 x - 52)%Z -> inject_Z (2 ^ 52) <= x / pow2 e).
Proof.
  intros Hx e. destruct (flog2_spec x Hx) as [L U].
  pose proof (pow2_pos e) as Pe.
  split; [|split].
  - apply Qlt_shift_div_l; [exact Pe | lra].
  - apply Qlt_shift_div_r; [exact Pe|].
    rewrite <- (pow2_Z 53) by lia. rewrite <- pow2_add.
    apply Qlt_le_trans with (pow2 (flog2 x + 1)); [exact U|].
    apply pow2_le. lia.
  - intros E. apply Qle_shift_div_l; [exact Pe|].
    rewrite <- (pow2_Z 52) by lia. rewrite <- pow2_add.
    apply Qle_trans with (pow2 (flog2 x)); [|exact L].
    apply pow2_le. lia.
Qed.

Lemma roundPos_nonneg (x : Q) : 0 < x -> 0 <= roundPos x.
Proof.
  intros Hx. unfold roundPos.
  destruct (roundPos_scaled x Hx) as (P & _ & _).
  apply Qmult_le_0_compat; [|apply Qlt_le_weak, pow2_pos].
  change 0 with (inject_Z 0). rewrite <- Zle_Qle.
  apply rne_ge. change (inject_Z 0) with 0. lra.
Qed.

Lemma roundPos_mono (x y : Q) : 0 < x -> x <= y -> roundPos x <= roundPos y.
Proof.
  intros Hx Hxy. assert (Hy : 0 < y) by lra.
  pose proof (flog2_mono x y Hx Hxy) as Hf.
  destruct (roundPos_scaled x Hx) as (_ & Ux & _).
  destruct (roundPos_scaled y Hy) as (_ & _ & Ly).
  unfold roundPos.
  set (ex := Z.max (flog2 x - 52) (-1074)) in *.
  set (ey := Z.max (flog2 y - 52) (-1074)) in *.
  destruct (Z.eq_dec ex ey) as [E|N].
  - rewrite E. apply Qmult_le_compat_r; [|apply Qlt_le_weak, pow2_pos].
    rewrite <- Zle_Qle. apply rne_mono.
    apply Qmult_le_compat_r; [exact Hxy|].
    apply Qlt_le_weak, Qinv_lt_0_compat, pow2_pos.
  - assert (Hlt : (ex < ey)%Z) by lia.
    assert (Ey : ey = (flog2 y - 52)%Z) by lia.
    apply Qle_trans with (inject_Z (2 ^ 53) * pow2 ex).
    + apply Qmult_le_compat_r; [|apply Qlt_le_weak, pow2_pos].
      rewrite <- Zle_Qle. apply rne_le, Qlt_le_weak, Ux.
    + apply Qle_trans with (inject_Z (2 ^ 52) * pow2 ey).
      * rewrite <- (pow2_Z 53), <- (pow2_Z 52) by lia.
        rewrite <- !pow2_add. apply pow2_le. lia.
      * apply Qmult_le_compat_r; [|apply Qlt_le_weak, pow2_pos].
        rewrite <- Zle_Qle. apply rne_ge, Ly, Ey.
Qed.

Lemma b64_mono (x y : Q) : x <= y -> b64 x <= b64 y.
Proof.
  intros H. unfold b64.
  destruct (Qcompare x 0) eqn:Cx; destruct (Qcompare y 0) eqn:Cy;
    try rewrite <- Qeq_alt in *; try rewrite <- Qlt_alt in *;
    try rewrite <- Qgt_alt in *; try lra.
  - pose proof (roundPos_nonneg y Cy). lra.
  - pose proof (roundPos_nonneg (- x)). lra.
  - assert (K : roundPos (- y) <= roundPos (- x))
      by (apply roundPos_mono; lra). lra.
  - pose proof (roundPos_nonneg (- x)). pose proof (roundPos_nonneg y Cy). lra.
  - apply roundPos_mono; [exact Cx | exact H].
Qed.

Lemma b64_comp (x y : Q) : x == y -> b64 x == b64 y.
Proof.
  intros E. apply Qle_antisym; apply b64_mono; lra.
Qed.

Lemma b64_nonneg (x : Q) : 0 <= x -> 0 <= b64 x.
Proof. intros H. apply (b64_mono 0 x H). Qed.

(** A number with at most 53 significant bits is a binary64 number. *)
Lemma b64_exact (m k : Z) :
  (0 <= m < 2 ^ 53)%Z -> (-1074 <= k)%Z ->
  b64 (inject_Z m * pow2 k) == inject_Z m * pow2 k.
Proof.
  intros Hm Hk. pose proof (pow2_pos k) as Pk.
  destruct (Z.eq_dec m 0) as [->|Nm].
  - rewrite (b64_comp _ 0) by (change (inject_Z 0) with 0; lra).
    change (inject_Z 0) with 0. change (b64 0) with 0. lra.
  - set (x := inject_Z m * pow2 k).
    assert (Im : 0 < inject_Z m).
    { change 0 with (inject_Z 0). rewrite <- Zlt_Qlt. lia. }
    assert (Hx : 0 < x) by (apply Qmult_lt_0_compat; assumption).
    unfold b64. assert (C : Qcompare x 0 = Gt) by (rewrite <- Qgt_alt; exact Hx).
    rewrite C. unfold roundPos.
    set (e := Z.max (flog2 x - 52) (-1074)).
    assert (He : (e <= k)%Z).
    { destruct (flog2_spec x Hx) as [L _].
      assert (U : x < pow2 (53 + k)).
      { rewrite pow2_add, (pow2_Z 53) by lia. unfold x.
        apply Qmult_lt_compat_r; [exact Pk|]. rewrite <- Zlt_Qlt. lia. }
      assert (K : pow2 (flog2 x) < pow2 (53 + k)) by lra.
      apply pow2_lt_inv in K. lia. }
    assert (Es : x / pow2 e == inject_Z (m * 2 ^ (k - e))).
    { rewrite inject_Z_mult, <- pow2_Z by lia. unfold x.
      replace k with ((k - e) + e)%Z at 1 by lia. rewrite pow2_add.
      field. pose proof (pow2_pos e). lra. }
    rewrite (rne_inject _ _ Es).
    rewrite inject_Z_mult, <- pow2_Z by lia. unfold x.
    replace k with ((k - e) + e)%Z at 2 by lia. rewrite pow2_add. ring.
Qed.

Lemma rne_nearest (t : Q) (k : Z) :
  Qabs (inject_Z (rne t) - t) <= Qabs (inject_Z k - t).
Proof.
  pose proof (Qfloor_le t) as L. pose proof (Qlt_floor t) as U.
  rewrite inject_Z_plus in U. change (inject_Z 1) with 1 in U.
  assert (K : inject_Z k <= inject_Z (Qfloor t) \/
              inject_Z (Qfloor t) + 1 <= inject_Z k).
  { destruct (Z_le_gt_dec k (Qfloor t)) as [H|H].
    - left. rewrite <- Zle_Qle. exact H.
    - right. change 1 with (inject_Z 1). rewrite <- inject_Z_plus, <- Zle_Qle.
      lia. }
  unfold rne.
  destruct (Qcompare (t - inject_Z (Qfloor t)) (1 # 2)) eqn:C;
    [destruct (Z.even (Qfloor t))| |];
    try rewrite <- Qeq_alt in C; try rewrite <- Qlt_alt in C;
    try rewrite <- Qgt_alt in C;
    rewrite ?inject_Z_plus; change (inject_Z 1) with 1;
    generalize dependent (inject_Z (Qfloor t)); intros f L U K C;
    generalize dependent (inject_Z k); intros z K;
    apply Qabs_case; intros; apply Qabs_case; intros; destruct K; lra.
Qed.

Lemma roundPos_nearest (x y : Q) :
  0 < x -> isDouble y -> Qabs (roundPos x - x) <= Qabs (y - x).
Proof.
  intros Hx (m & e' & Hm & He' & Ey).
  destruct (roundPos_scaled x Hx) as (T0 & _ & T52).
  unfold roundPos.
  set (e := Z.max (flog2 x - 52) (-1074)) in *.
  pose proof (pow2_pos e) as Pe.
  set (t := x / pow2 e) in *.
  assert (Ex : x == t * pow2 e) by (unfold t; field; lra).
  assert (Scale : forall k : Q,
            Qabs (k * pow2 e - x) == Qabs (k - t) * pow2 e).
  { intros k. rewrite Ex at 1.
    setoid_replace (k * pow2 e - t * pow2 e) with ((k - t) * pow2 e) by ring.
    rewrite Qabs_Qmult, (Qabs_pos (pow2 e)) by lra. reflexivity. }
  rewrite Scale.
  destruct (Z_le_gt_dec e e') as [G|L].
  - assert (Ek : y == inject_Z (m * 2 ^ (e' - e)) * pow2 e).
    { rewrite Ey, inject_Z_mult, <- pow2_Z by lia.
      replace e' with ((e' - e) + e)%Z at 1 by lia. rewrite pow2_add. ring. }
    rewrite Ek, Scale.
    apply Qmult_le_compat_r; [apply rne_nearest | lra].
  - assert (E52 : e = (flog2 x - 52)%Z) by lia.
    specialize (T52 E52).
    assert (Hy : y <= inject_Z (2 ^ 52) * pow2 e).
    { rewrite Ey. apply Qle_trans with (inject_Z (2 ^ 53) * pow2 e').
      - apply Qmult_le_compat_r; [|apply Qlt_le_weak, pow2_pos].
        rewrite <- Zle_Qle. lia.
      - rewrite <- (pow2_Z 53), <- (pow2_Z 52), <- !pow2_add by lia.
        apply pow2_le. lia. }
    pose proof (rne_nearest t (2 ^ 52)) as N.
    assert (N' : Qabs (inject_Z (rne t) - t) <= t - inject_Z (2 ^ 52)).
    { rewrite (Qabs_neg (inject_Z (2 ^ 52) - t)) in N by lra. lra. }
    apply Qle_trans with ((t - inject_Z (2 ^ 52)) * pow2 e).
    + apply Qmult_le_compat_r; [exact N' | lra].
    + assert (Hyx : y - x <= 0).
      { rewrite Ex. generalize dependent (inject_Z (2 ^ 52)). intros c.
        intros. nra. }
      rewrite (Qabs_neg (y - x) Hyx). rewrite Ex.
      generalize dependent (inject_Z (2 ^ 52)). intros c. intros. nra.
Qed.

Lemma isDouble_opp (y : Q) : isDouble y -> isDouble (- y).
Proof.
  intros (m & e & Hm & He & E). exists (- m)%Z, e.
  split; [lia|]. split; [exact He|].
  rewrite E, inject_Z_opp. ring.
Qed.

Lemma roundPos_isDouble (x : Q) : 0 < x -> isDouble (roundPos x).
Proof.
  intros Hx. destruct (roundPos_scaled x Hx) as (T0 & T53 & _).
  unfold roundPos. set (e := Z.max (flog2 x - 52) (-1074)) in *.
  exists (rne (x / pow2 e)), e.
  split; [|split; [lia | reflexivity]].
  assert (H0 : (0 <= rne (x / pow2 e))%Z).
  { apply rne_ge. change (inject_Z 0) with 0. lra. }
  assert (H1 : (rne (x / pow2 e) <= 2 ^ 53)%Z) by (apply rne_le; lra).
  lia.
Qed.

(** [b64 x] is a double, and no double is nearer to [x]. *)
Lemma b64_nearest (x : Q) :
  isDouble (b64 x) /\
  forall y : Q, isDouble y -> Qabs (b64 x - x) <= Qabs (y - x).
Proof.
  unfold b64. destruct (Qcompare x 0) eqn:C;
    try rewrite <- Qeq_alt in C; try rewrite <- Qlt_alt in C;
    try rewrite <- Qgt_alt in C.
  - split.
    + exists 0%Z, 0%Z. split; [lia|]. split; [lia | reflexivity].
    + intros y _. setoid_replace (0 - x) with 0 by lra. apply Qabs_nonneg.
  - assert (Hx : 0 < - x) by lra. split.
    + apply isDouble_opp, roundPos_isDouble, Hx.
    + intros y Hy.
      pose proof (roundPos_nearest (- x) (- y) Hx (isDouble_opp y Hy)) as H.
      setoid_replace (- roundPos (- x) - x) with (- (roundPos (- x) - - x))
        by ring.
      setoid_replace (y - x) with (- (- y - - x)) by ring.
      rewrite !Qabs_opp. exact H.
  - split; [apply roundPos_isDouble, C|].
    intros y Hy. apply roundPos_nearest; assumption.
Qed.

Lemma numOfNat_nonneg (n : nat) : 0 <= numOfNat n.
Proof.
  unfold numOfNat. change 0 with (inject_Z 0). rewrite <- Zle_Qle. lia.
Qed.

Lemma percentileIndex_mono (p q : Q) (n : nat) :
  p <= q -> (percentileIndex p n <= percentileIndex q n)%Z.
Proof.
  intros H. unfold percentileIndex, fmul, fdiv.
  assert (Hd : p / 100 <= q / 100).
  { unfold Qdiv. apply Qmult_le_compat_r; [exact H | discriminate]. }
  destruct (Z.of_nat n <? 2 ^ 32)%Z; apply Qfloor_resp_le.
  - apply b64_mono. apply Qmult_le_compat_r; [|apply numOfNat_nonneg].
    apply b64_mono, Hd.
  - apply Qmult_le_compat_r; [exact Hd | apply numOfNat_nonneg].
Qed.

Lemma percentileIndex_nonneg (p : Q) (n : nat) :
  0 <= p -> (0 <= percentileIndex p n)%Z.
Proof.
  intros H. unfold percentileIndex, fmul, fdiv.
  assert (Hd : 0 <= p / 100).
  { unfold Qdiv. apply Qmult_le_0_compat; [exact H | discriminate]. }
  destruct (Z.of_nat n <? 2 ^ 32)%Z; apply Qfloor_nonneg.
  - apply b64_nonneg. apply Qmult_le_0_compat; [|apply numOfNat_nonneg].
    apply b64_nonneg, Hd.
  - apply Qmult_le_0_compat; [exact Hd | apply numOfNat_nonneg].
Qed.

Lemma percentileIndex_comp (p q : Q) (n : nat) :
  p == q -> percentileIndex p n = percentileIndex q n.
Proof.
  intros E.
  assert (H1 : (percentileIndex p n <= percentileIndex q n)%Z)
    by (apply percentileIndex_mono; lra).
  assert (H2 : (percentileIndex q n <= percentileIndex p n)%Z)
    by (apply percentileIndex_mono; lra).
  lia.
Qed.

(** The index is the floor of the exact product when [percentile / 100] is
    [a / 2^j] with [a] below [2^21]: the quotient is a double, and so is its
    product with a length below [2^32]. *)
Lemma percentileIndex_exact (p : Q) (n : nat) (a j : Z) :
  (0 <= a < 2 ^ 21)%Z -> (0 <= j <= 1074)%Z ->
  p / 100 == inject_Z a / inject_Z (2 ^ j) ->
  percentileIndex p n = Qfloor ((p / 100) * numOfNat n).
Proof.
  intros Ha Hj E0. unfold percentileIndex.
  destruct (Z.ltb_spec (Z.of_nat n) (2 ^ 32)) as [L|G]; [|reflexivity].
  assert (E : p / 100 == inject_Z a * pow2 (- j)).
  { rewrite E0. unfold pow2. rewrite Qpower_opp. fold (pow2 j).
    rewrite pow2_Z by lia. reflexivity. }
  assert (Han : (0 <= a * Z.of_nat n < 2 ^ 53)%Z) by nia.
  apply Qfloor_comp. unfold fmul, fdiv.
  assert (E1 : b64 (p / 100) == p / 100).
  { rewrite (b64_comp _ _ E), E. apply b64_exact; lia. }
  rewrite (b64_comp _ (inject_Z (a * Z.of_nat n) * pow2 (- j))).
  - rewrite b64_exact by lia. rewrite E, inject_Z_mult. unfold numOfNat. ring.
  - rewrite E1, E, inject_Z_mult. unfold numOfNat. ring.
Qed.

Lemma percentileIndex_0 (n : nat) : percentileIndex 0 n = 0%Z.
Proof.
  rewrite (percentileIndex_exact 0 n 0 0); [|lia|lia|reflexivity].
  rewrite (Qfloor_comp _ 0); [reflexivity | field].
Qed.

Lemma percentileIndex_100 (n : nat) : percentileIndex 100 n = Z.of_nat n.
Proof.
  rewrite (percentileIndex_exact 100 n 1 0); [|lia|lia|reflexivity].
  rewrite (Qfloor_comp _ (inject_Z (Z.of_nat n))); [apply Qfloor_Z|].
  unfold numOfNat. field.
Qed.

Lemma percentileIndex_75 (n : nat) :
  percentileIndex 75 n = Z.of_nat (3 * n / 4).
Proof.
  rewrite (percentileIndex_exact 75 n 3 2); [|lia|lia|reflexivity].
  rewrite (Qfloor_comp _ ((3 * Z.of_nat n) # 4)).
  - unfold Qfloor. rewrite Nat2Z.inj_div, Nat2Z.inj_mul. reflexivity.
  - unfold numOfNat. rewrite (Qmake_Qdiv (3 * Z.of_nat n) 4), inject_Z_mult.
    change (inject_Z 3) with 3. change (inject_Z (Zpos 4)) with 4. field.
Qed.

(** The quartiles are among the percentiles with an exact index. *)
Lemma percentileIndex_quartile (p : Q) (n : nat) :
  p == 0 \/ p == 25 \/ p == 50 \/ p == 75 \/ p == 100 ->
  percentileIndex p n = Qfloor ((p / 100) * numOfNat n).
Proof.
  intros [E|[E|[E|[E|E]]]].
  - apply (percentileIndex_exact p n 0 0); [lia | lia | rewrite E; reflexivity].
  - apply (percentileIndex_exact p n 1 2); [lia | lia | rewrite E; reflexivity].
  - apply (percentileIndex_exact p n 1 1); [lia | lia | rewrite E; reflexivity].
  - apply (percentileIndex_exact p n 3 2); [lia | lia | rewrite E; reflexivity].
  - apply (percentileIndex_exact p n 1 0); [lia | lia | rewrite E; reflexivity].
Qed.

Lemma pow2_le_inv (a b : Z) : pow2 a <= pow2 b -> (a <= b)%Z.
Proof. intros H. apply (Qpower_le_compat_l_inv 2); [exact H | reflexivity]. Qed.

Lemma rne_error (x : Q) : - (1 # 2) <= inject_Z (rne x) - x <= 1 # 2.
Proof.
  pose proof (Qfloor_le x) as L. pose proof (Qlt_floor x) as U.
  rewrite inject_Z_plus in U. change (inject_Z 1) with 1 in U.
  unfold rne.
  destruct (Qcompare (x - inject_Z (Qfloor x)) (1 # 2)) eqn:C;
    [destruct (Z.even (Qfloor x))| |];
    try rewrite <- Qeq_alt in C; try rewrite <- Qlt_alt in C;
    try rewrite <- Qgt_alt in C;
    rewrite ?inject_Z_plus; change (inject_Z 1) with 1;
    generalize dependent (inject_Z (Qfloor x)); intros f C L U; split; lra.
Qed.

Lemma roundPos_error (x : Q) :
  0 < x ->
  let e := Z.max (flog2 x - 52) (-1074) in
  - pow2 (e - 1) <= roundPos x - x <= pow2 (e - 1).
Proof.
  intros Hx e. unfold roundPos. fold e.
  pose proof (pow2_pos e) as Pe.
  pose proof (rne_error (x / pow2 e)) as [L U].
  assert (Ex : x == (x / pow2 e) * pow2 e) by (field; lra).
  assert (Eh : pow2 (e - 1) == (1 # 2) * pow2 e).
  { replace (e - 1)%Z with (-1 + e)%Z by lia. rewrite pow2_add. reflexivity. }
  rewrite Eh.
  set (t := x / pow2 e) in *. set (r := inject_Z (rne t)) in *.
  set (w := pow2 e) in *. clearbody r. clearbody t. clearbody w.
  split; nra.
Qed.

Lemma b64_error (x : Q) (j : Z) :
  0 <= x -> x <= pow2 j -> (-1022 <= j)%Z ->
  - pow2 (j - 53) <= b64 x - x <= pow2 (j - 53).
Proof.
  intros H0 Hj Hm. pose proof (pow2_pos (j - 53)) as Pj.
  unfold b64. destruct (Qcompare x 0) eqn:C;
    try rewrite <- Qeq_alt in C; try rewrite <- Qlt_alt in C;
    try rewrite <- Qgt_alt in C; [split; lra | lra |].
  pose proof (roundPos_error x C) as [L U]. cbv zeta in L, U.
  destruct (flog2_spec x C) as [F _].
  assert (Hf : (flog2 x <= j)%Z) by (apply pow2_le_inv; lra).
  assert (K : pow2 (Z.max (flog2 x - 52) (-1074) - 1) <= pow2 (j - 53))
    by (apply pow2_le; lia).
  split; lra.
Qed.

Lemma percentileIndex_near (p : Q) (n : nat) :
  0 <= p -> p <= 100 ->
  (Qfloor ((p / 100) * numOfNat n) - 1 <= percentileIndex p n
   <= Qfloor ((p / 100) * numOfNat n) + 1)%Z.
Proof.
  intros H0 H1. unfold percentileIndex.
  destruct (Z.ltb_spec (Z.of_nat n) (2 ^ 32)) as [L|G]; [|lia].
  unfold fmul, fdiv.
  assert (Hq0 : 0 <= p / 100) by (apply Qle_shift_div_l; lra).
  assert (Hq1 : p / 100 <= 1) by (apply Qle_shift_div_r; lra).
  pose proof (b64_error (p / 100) 0 Hq0 Hq1 ltac:(lia)) as [A1 A2].
  pose proof (b64_nonneg (p / 100) Hq0) as A0.
  pose proof (numOfNat_nonneg n) as N0.
  assert (N1 : numOfNat n <= 4294967296).
  { unfold numOfNat. change 4294967296 with (inject_Z (2 ^ 32)).
    rewrite <- Zle_Qle. lia. }
  change (pow2 (0 - 53)) with (1 # 9007199254740992) in A1, A2.
  set (q := p / 100) in *. set (q' := b64 q) in *.
  clearbody q q'. generalize dependent (numOfNat n). intros N N0 N1.
  assert (Y0 : 0 <= q' * N) by (apply Qmult_le_0_compat; assumption).
  assert (Y1 : q' * N <= pow2 33).
  { change (pow2 33) with 8589934592. nra. }
  pose proof (b64_error (q' * N) 33 Y0 Y1 ltac:(lia)) as [B1 B2].
  change (pow2 (33 - 53)) with (1 # 1048576) in B1, B2.
  assert (D1 : q * N - 1 <= b64 (q' * N)) by nra.
  assert (D2 : b64 (q' * N) <= q * N + 1) by nra.
  apply Qfloor_resp_le in D1, D2.
  change 1 with (inject_Z 1) in D2.
  replace (q * N - 1) with (q * N + inject_Z (-1)) in D1 by reflexivity.
  rewrite Qfloor_add_Z in D1, D2. lia.
Qed.

(** On whole percentiles and short arrays the index is the one that the
    operations of [SpecFloat] give. *)
Lemma percentileIndex_SpecFloat (p n : nat) :
  (p <= 100)%nat -> (n <= 12)%nat \/ n = 50%nat ->
  percentileIndex (numOfNat p) n = specFloatIndex p n.
Proof.
  intros Hp Hn.
  assert (H : forallb (fun p => forallb (fun n =>
               Z.eqb (percentileIndex (numOfNat p) n) (specFloatIndex p n))
               (50%nat :: seq 0 13)) (seq 0 101) = true)
    by (vm_compute; reflexivity).
  rewrite forallb_forall in H.
  specialize (H p). rewrite forallb_forall in H.
  apply Z.eqb_eq, H; [apply in_seq; lia|].
  destruct Hn as [Hn| ->]; [right; apply in_seq; lia | now left].
Qed.

(** *** The estimator *)

Lemma sortNum_length (l : list Q) : length (Js.sortNum l) = length l.
Proof. apply sort_length. Qed.

Lemma getOIPercentileValue_cons (t : Trade) (r : list Trade) (p : Q) :
  getOIPercentileValue (t :: r) p =
  nth (Z.to_nat (Z.min (percentileIndex p (length (t :: r)))
                       (Z.of_nat (length (t :: r)) - 1)))
      (Js.sortNum (map oi (t :: r))) 0.
Proof.
  unfold getOIPercentileValue. cbv zeta.
  rewrite sortNum_length, length_map. reflexivity.
Qed.

Lemma getOIPercentileValue_Permutation (trades trades' : list Trade) (p : Q) :
  Permutation trades trades' ->
  getOIPercentileValue trades' p == getOIPercentileValue trades p.
Proof.
  intros HP.
  destruct trades as [|t r].
  - apply Permutation_nil in HP. subst. reflexivity.
  - destruct trades' as [|t' r'].
    + apply Permutation_sym, Permutation_nil in HP. discriminate.
    + rewrite !getOIPercentileValue_cons.
      rewrite <- (Permutation_length HP).
      apply Forall2_Qeq_nth, sortNum_Permutation, Permutation_map.
      apply Permutation_sym, HP.
Qed.

Lemma percentile_index (n : nat) (p : Q) :
  (0 < n)%nat -> 0 <= p ->
  (0 <= Z.min (percentileIndex p n) (Z.of_nat n - 1) < Z.of_nat n)%Z.
Proof.
  intros Hn Hp. pose proof (percentileIndex_nonneg p n Hp). lia.
Qed.

Lemma getOIPercentileValue_exact_index (trades : list Trade) (p : Q) :
  percentileIndex p (length trades)
    = Qfloor ((p / 100) * numOfNat (length trades)) ->
  getOIPercentileValue trades p = getOIPercentileValue_spec trades p.
Proof.
  intros E. destruct trades as [|t r]; [reflexivity|].
  rewrite getOIPercentileValue_cons, E. reflexivity.
Qed.

(** C7, as the code has it.  For a percentile [p] between 0 and 100,
    [getOIPercentileValue] returns 0 on the empty list; on a list of [n > 0]
    trades it returns the element at index [min i (n-1)] of the ascending sort
    of the open-interest values (an index inside the list, no
    interpolation), where [i] is [Math.floor((p / 100) * n)] with the
    quotient and the product rounded to binary64.  That index is at most one
    away from the floor of the exact product [p/100 * n]; it is that floor
    whenever [p/100] is a fraction [a / 2^j] with [a] below [2^21], as for
    the quartiles 0, 25, 50, 75 and 100, where the estimator returns what the
    specification describes; at percentile 58 and length 50 it is 28, one
    below the exact floor 29.  On whole percentiles and the lengths up to 12
    and 50 the index is the one that the IEEE 754 operations of [SpecFloat]
    give.  The result does not change when the trades are reordered; and for
    the open-interest values 10, 20, 30, 40 at percentile 75 it returns 40. *)
Theorem getOIPercentileValue_nearest_rank : forall (trades : list Trade) (p : Q),
  0 <= p -> p <= 100 ->
  let n := length trades in
  let exact := Qfloor ((p / 100) * numOfNat n) in
  let idx := Z.min (percentileIndex p n) (Z.of_nat n - 1) in
  (trades = [] -> getOIPercentileValue trades p = 0) /\
  (trades <> [] ->
     (0 <= idx < Z.of_nat n)%Z /\
     exists sorted : list Q,
       Permutation sorted (map oi trades) /\
       StronglySorted Qle sorted /\
       getOIPercentileValue trades p = nth (Z.to_nat idx) sorted 0) /\
  (exact - 1 <= percentileIndex p n <= exact + 1)%Z /\
  (forall a j : Z,
     (0 <= a < 2 ^ 21)%Z -> (0 <= j <= 1074)%Z ->
     p / 100 == inject_Z a / inject_Z (2 ^ j) ->
     percentileIndex p n = exact /\
     getOIPercentileValue trades p = getOIPercentileValue_spec trades p) /\
  (p == 0 \/ p == 25 \/ p == 50 \/ p == 75 \/ p == 100 ->
     percentileIndex p n = exact /\
     getOIPercentileValue trades p = getOIPercentileValue_spec trades p) /\
  (percentileIndex 58 50 = 28%Z /\ Qfloor ((58 / 100) * numOfNat 50) = 29%Z) /\
  (forall p' n' : nat,
     (p' <= 100)%nat -> (n' <= 12)%nat \/ n' = 50%nat ->
     percentileIndex (numOfNat p') n' = Binary64.specFloatIndex p' n') /\
  (forall trades', Permutation trades trades' ->
     getOIPercentileValue trades' p == getOIPercentileValue trades p) /\
  (forall t1 t2 t3 t4 : Trade,
     oi t1 = 10 -> oi t2 = 20 -> oi t3 = 30 -> oi t4 = 40 ->
     getOIPercentileValue [t1; t2; t3; t4] 75 = 40 /\
     getOIPercentileValue [t3; t1; t4; t2] 75 = 40).
Proof.
  intros trades p Hp0 Hp1 n exact idx.
  split; [intros ->; reflexivity|].
  split; [|split; [|split; [|split; [|split; [|split; [|split]]]]]].
  - intros Hne.
    assert (Hn : (0 < n)%nat).
    { unfold n. destruct trades; [contradiction | simpl; lia]. }
    split; [apply percentile_index; assumption|].
    exists (Js.sortNum (map oi trades)).
    split; [apply sort_perm|]. split; [apply sortNum_sorted|].
    destruct trades as [|t r]; [contradiction|].
    apply getOIPercentileValue_cons.
  - apply percentileIndex_near; assumption.
  - intros a j Ha Hj E.
    assert (Ei : percentileIndex p n = exact)
      by (apply (percentileIndex_exact p n a j); assumption).
    split; [exact Ei | apply getOIPercentileValue_exact_index, Ei].
  - intros Hq.
    assert (Ei : percentileIndex p n = exact)
      by (apply percentileIndex_quartile, Hq).
    split; [exact Ei | apply getOIPercentileValue_exact_index, Ei].
  - split; [vm_compute; reflexivity | reflexivity].
  - intros p' n'. apply percentileIndex_SpecFloat.
  - intros trades'. apply getOIPercentileValue_Permutation.
  - intros t1 t2 t3 t4 E1 E2 E3 E4.
    rewrite !getOIPercentileValue_cons, percentileIndex_75.
    simpl map. rewrite E1, E2, E3, E4. split; reflexivity.
Qed.

Lemma getOIPercentileValue_nearest_rank_witness :
  0 <= 75 /\ 75 <= 100 /\
  getOIPercentileValue [sample [] "" 10 0 0; sample [] "" 20 0 0;
                        sample [] "" 30 0 0; sample [] "" 40 0 0] 75 = 40.
Proof.
  assert (H0 : 0 <= 75) by (unfold Qle; simpl; lia).
  assert (H1 : 75 <= 100) by (unfold Qle; simpl; lia).
  split; [exact H0 | split; [exact H1|]].
  destruct (getOIPercentileValue_nearest_rank [] 75 H0 H1)
    as (_ & _ & _ & _ & _ & _ & _ & _ & H).
  apply (H (sample [] "" 10 0 0) (sample [] "" 20 0 0)
           (sample [] "" 30 0 0) (sample [] "" 40 0 0)); reflexivity.
Defined.

(** C7, as the specification words it, fails: on fifty trades with the
    open-interest values 1 to 50 and at percentile 58 the exact product
    [58/100 * 50] is 29, which selects the value 30, but the code divides and
    multiplies in binary64, gets 28.999999999999996, takes index 28 and
    returns 29. *)
Lemma getOIPercentileValue_exact_floor_fails :
  0 <= 58 /\ 58 <= 100 /\ length fiftyTrades = 50%nat /\
  Qfloor ((58 / 100) * numOfNat 50) = 29%Z /\
  percentileIndex 58 50 = 28%Z /\
  Binary64.specFloatIndex 58 50 = 28%Z /\
  getOIPercentileValue_spec fiftyTrades 58 = 30 /\
  getOIPercentileValue fiftyTrades 58 = 29 /\
  ~ getOIPercentileValue fiftyTrades 58 == getOIPercentileValue_spec fiftyTrades 58.
Proof.
  split; [unfold Qle; simpl; lia|].
  split; [unfold Qle; simpl; lia|].
  split; [reflexivity|].
  split; [reflexivity|].
  split; [vm_compute; reflexivity|].
  split; [vm_compute; reflexivity|].
  split; [vm_compute; reflexivity|].
  split; [vm_compute; reflexivity|].
  vm_compute. discriminate.
Qed.

(* ================================================================== *)
(** ** Single-factor aggregation *)

Lemma activeLevel_iff (l : string) :
  activeLevel l = true <-> l <> "None" /\ l <> "".
Proof.
  unfold activeLevel. rewrite andb_true_iff, !negb_true_iff, !String.eqb_neq.
  tauto.
Qed.

Lemma holdsLevel_iff (lvl : string) (t : Trade) :
  holdsLevel lvl t = true <->
  In lvl (taLevels t) /\ lvl <> "None" /\ lvl <> "".
Proof.
  unfold holdsLevel. rewrite existsb_eqb_In, filter_In, activeLevel_iff. tauto.
Qed.

Lemma addSample_get_same (t : Trade) (m : list (string * Samples)) (lvl : string) :
  Js.get lvl (addSample t m lvl) =
  Some (mkSamples (mfes (samplesAt lvl m) ++ [mfe t])
                  (maes (samplesAt lvl m) ++ [mae t])).
Proof. unfold addSample. now rewrite get_set_same. Qed.

Lemma addSample_get_other (t : Trade) (m : list (string * Samples))
  (lvl lvl' : string) :
  lvl <> lvl' -> Js.get lvl' (addSample t m lvl) = Js.get lvl' m.
Proof. intros H. unfold addSample. now apply get_set_other. Qed.

Lemma fold_addSample_get (t : Trade) (levels : list string) :
  NoDup levels ->
  forall (m : list (string * Samples)) (lvl : string),
  Js.get lvl (fold_left (addSample t) levels m) =
  if existsb (String.eqb lvl) levels
  then Some (mkSamples (mfes (samplesAt lvl m) ++ [mfe t])
                       (maes (samplesAt lvl m) ++ [mae t]))
  else Js.get lvl m.
Proof.
  induction 1 as [|x r Hnotin _ IH]; intros m lvl; simpl; [reflexivity|].
  rewrite IH.
  destruct (String.eqb lvl x) eqn:E; simpl.
  - apply String.eqb_eq in E; subst x.
    apply existsb_eqb_false in Hnotin. rewrite Hnotin.
    apply addSample_get_same.
  - apply String.eqb_neq in E.
    assert (Hne : x <> lvl) by congruence.
    unfold samplesAt. rewrite (addSample_get_other t m x lvl Hne).
    reflexivity.
Qed.

Lemma fold_addSample_keys (t : Trade) (levels : list string)
  (m : list (string * Samples)) :
  NoDup (map fst m) -> NoDup (map fst (fold_left (addSample t) levels m)).
Proof.
  revert m. induction levels as [|x r IH]; intros m H; simpl; [exact H|].
  apply IH. unfold addSample. apply set_keys_NoDup, H.
Qed.

Lemma collectLevels_get (m : list (string * Samples)) (t : Trade) (lvl : string) :
  Js.get lvl (collectLevels m t) =
  if holdsLevel lvl t
  then Some (mkSamples (mfes (samplesAt lvl m) ++ [mfe t])
                       (maes (samplesAt lvl m) ++ [mae t]))
  else Js.get lvl m.
Proof.
  unfold collectLevels. rewrite fold_addSample_get by apply setOf_NoDup.
  assert (E : existsb (String.eqb lvl) (Js.setOf (filter activeLevel (taLevels t)))
              = holdsLevel lvl t).
  { apply eq_true_iff_eq. unfold holdsLevel.
    rewrite !existsb_eqb_In. apply setOf_In. }
  now rewrite E.
Qed.

Lemma statsMap_keys (trades : list Trade) (m : list (string * Samples)) :
  NoDup (map fst m) -> NoDup (map fst (fold_left collectLevels trades m)).
Proof.
  revert m. induction trades as [|t r IH]; intros m H; simpl; [exact H|].
  apply IH. apply fold_addSample_keys, H.
Qed.

Lemma statsMap_get (trades : list Trade) (lvl : string) :
  Js.get lvl (fold_left collectLevels trades []) =
  match filter (holdsLevel lvl) trades with
  | [] => None
  | g => Some (mkSamples (map mfe g) (map mae g))
  end.
Proof.
  induction trades as [|t r IH] using rev_ind; [reflexivity|].
  rewrite fold_left_app, filter_app. simpl.
  rewrite collectLevels_get. unfold samplesAt. rewrite IH.
  destruct (holdsLevel lvl t).
  - destruct (filter (holdsLevel lvl) r) as [|a g]; simpl; [reflexivity|].
    rewrite !map_app. simpl.
    destruct (g ++ [t])%list eqn:Eg; [destruct g; discriminate|].
    reflexivity.
  - now rewrite app_nil_r.
Qed.

Lemma resultOf_level (m : list (string * Samples)) :
  map level (map resultOf m) = map fst m.
Proof.
  induction m as [|[k v] r IH]; simpl; [reflexivity | now rewrite IH].
Qed.

Lemma byAvgMfeDesc_total (a b : AnalysisResult) :
  byAvgMfeDesc a b = true \/ byAvgMfeDesc b a = true.
Proof. unfold byAvgMfeDesc. destruct (Qle_bool_total (avgMfe a) (avgMfe b)); auto. Qed.

Lemma byAvgMfeDesc_trans (a b c : AnalysisResult) :
  byAvgMfeDesc a b = true -> byAvgMfeDesc b c = true -> byAvgMfeDesc a c = true.
Proof. unfold byAvgMfeDesc. intros H1 H2. eapply Qle_bool_trans; eassumption. Qed.

Lemma calculateSingleFactorStats_sorted (trades : list Trade) :
  StronglySorted (fun a b => avgMfe b <= avgMfe a)
    (calculateSingleFactorStats trades).
Proof.
  unfold calculateSingleFactorStats.
  pose proof (sort_strongly_sorted byAvgMfeDesc byAvgMfeDesc_total
                byAvgMfeDesc_trans
                (map resultOf (fold_left collectLevels trades []))) as H.
  induction H as [|x r Hr IH Hall]; constructor; [exact IH|].
  eapply Forall_impl; [|exact Hall].
  intros y Hy. apply Qle_bool_iff, Hy.
Qed.

Lemma calculateSingleFactorStats_row (trades : list Trade) (r : AnalysisResult) :
  In r (calculateSingleFactorStats trades) ->
  exists g : list Trade,
    g = filter (holdsLevel (level r)) trades /\ g <> [] /\
    r = resultOf (level r, mkSamples (map mfe g) (map mae g)).
Proof.
  unfold calculateSingleFactorStats. rewrite sort_In, in_map_iff.
  intros [[k v] [<- Hin]].
  apply In_get in Hin; [|apply statsMap_keys; constructor].
  rewrite statsMap_get in Hin. simpl level.
  exists (filter (holdsLevel k) trades).
  destruct (filter (holdsLevel k) trades) as [|a g]; [discriminate|].
  injection Hin as <-. repeat split. discriminate.
Qed.

Lemma calculateSingleFactorStats_levels (trades : list Trade) (lvl : string) :
  In lvl (map level (calculateSingleFactorStats trades)) <->
  exists t, In t trades /\ holdsLevel lvl t = true.
Proof.
  unfold calculateSingleFactorStats.
  assert (HP : Permutation
                 (map level (Js.sort byAvgMfeDesc
                    (map resultOf (fold_left collectLevels trades []))))
                 (map fst (fold_left collectLevels trades []))).
  { rewrite <- resultOf_level. apply Permutation_map, sort_perm. }
  assert (HI : In lvl (map level (Js.sort byAvgMfeDesc
                    (map resultOf (fold_left collectLevels trades [])))) <->
               In lvl (map fst (fold_left collectLevels trades []))).
  { split; apply Permutation_in; [exact HP | apply Permutation_sym, HP]. }
  rewrite HI. clear HI HP.
  assert (H : In lvl (map fst (fold_left collectLevels trades [])) <->
              filter (holdsLevel lvl) trades <> []).
  { pose proof (get_None (fold_left collectLevels trades []) lvl) as HN.
    rewrite statsMap_get in HN.
    destruct (filter (holdsLevel lvl) trades) as [|a g].
    - split; [intros Hi; exfalso; apply (proj1 HN); auto | congruence].
    - split; [discriminate | intros _].
      destruct (in_dec string_dec lvl (map fst (fold_left collectLevels trades [])))
        as [Hi|Hn]; [exact Hi|].
      apply HN in Hn. discriminate. }
  rewrite H. split.
  - intros Hne. destruct (filter (holdsLevel lvl) trades) as [|a g] eqn:E;
      [congruence|].
    exists a. apply filter_In. rewrite E. now left.
  - intros [t Ht] E. apply filter_In in Ht. rewrite E in Ht. exact Ht.
Qed.

Lemma calculateMedian_middle (values : list Q) :
  values <> [] ->
  exists sorted : list Q,
    Permutation sorted values /\ StronglySorted Qle sorted /\
    let n := length values in
    ((n mod 2 = 1)%nat -> calculateMedian values = nth (n / 2) sorted 0) /\
    ((n mod 2 = 0)%nat ->
       calculateMedian values =
       (nth (n / 2 - 1) sorted 0 + nth (n / 2) sorted 0) / 2).
Proof.
  intros Hne. exists (Js.sortNum values).
  split; [apply sort_perm|]. split; [apply sortNum_sorted|].
  destruct values as [|v r]; [contradiction|].
  unfold calculateMedian. rewrite sortNum_length.
  cbv zeta. split; intros E; rewrite E; reflexivity.
Qed.

(** C6. [calculateSingleFactorStats] returns one row per active level (a
    level different from "None" and from the empty string held by some
    trade), each level once.  The row of a level aggregates exactly the trades
    holding that level, each trade once however often it repeats the level:
    [count] is their number (at least 1), [avgMfe] and [avgMae] are the sums
    of their MFE and MAE divided by the count, [medianMfe] and [medianMae] the
    medians of the same values, and [score] is [avgMfe - avgMae].  The median
    of a non-empty list is the middle value of its ascending sort for an odd
    length and the mean of the two central values for an even length.  Rows
    are sorted by descending [avgMfe].  On the scenario
    [{A,B: 10}, {A: 20}, {A,B: 6}] the rows are A (count 3, avgMfe 12) and
    B (count 2, avgMfe 8). *)
Theorem calculateSingleFactorStats_groups : forall trades : list Trade,
  let rows := calculateSingleFactorStats trades in
  NoDup (map level rows) /\
  (forall lvl : string,
     In lvl (map level rows) <->
     exists t, In t trades /\ In lvl (taLevels t) /\ lvl <> "None" /\ lvl <> "") /\
  (forall r : AnalysisResult, In r rows ->
     let g := filter (holdsLevel (level r)) trades in
     count r = length g /\ (1 <= count r)%nat /\
     avgMfe r = Js.sum (map mfe g) / numOfNat (length g) /\
     avgMae r = Js.sum (map mae g) / numOfNat (length g) /\
     medianMfe r = calculateMedian (map mfe g) /\
     medianMae r = calculateMedian (map mae g) /\
     score r = avgMfe r - avgMae r) /\
  StronglySorted (fun a b => avgMfe b <= avgMfe a) rows /\
  (forall values : list Q, values <> [] ->
     exists sorted : list Q,
       Permutation sorted values /\ StronglySorted Qle sorted /\
       let n := length values in
       ((n mod 2 = 1)%nat -> calculateMedian values = nth (n / 2) sorted 0) /\
       ((n mod 2 = 0)%nat ->
          calculateMedian values =
          (nth (n / 2 - 1) sorted 0 + nth (n / 2) sorted 0) / 2)) /\
  (exists rA rB : AnalysisResult,
     calculateSingleFactorStats scenario = [rA; rB] /\
     level rA = "A" /\ count rA = 3%nat /\ avgMfe rA == 12 /\
     level rB = "B" /\ count rB = 2%nat /\ avgMfe rB == 8).
Proof.
  intros trades rows. subst rows.
  split; [|split; [|split; [|split; [|split]]]].
  - eapply Permutation_NoDup.
    + apply Permutation_map, Permutation_sym, sort_perm.
    + rewrite resultOf_level. apply statsMap_keys. constructor.
  - intros lvl. rewrite calculateSingleFactorStats_levels.
    split; intros [t [Ht H]]; exists t; (split; [exact Ht|]);
      apply holdsLevel_iff; exact H.
  - intros r Hr g.
    destruct (calculateSingleFactorStats_row trades r Hr) as [g' [Eg [Hne Er]]].
    fold g in Eg. subst g'.
    assert (Hlen : (1 <= length g)%nat).
    { destruct g; [contradiction | simpl; lia]. }
    rewrite Er. simpl. rewrite !length_map. repeat split. exact Hlen.
  - apply calculateSingleFactorStats_sorted.
  - apply calculateMedian_middle.
  - eexists. eexists. split; [vm_compute; reflexivity|].
    repeat split; reflexivity.
Qed.

(* ================================================================== *)
(** ** Conditional best level *)

Lemma getBestLevelForCondition_eq (trades : list Trade)
  (conditionFn : Trade -> Q -> bool) :
  getBestLevelForCondition trades conditionFn =
  hd_error (calculateSingleFactorStats
              (filter (fun t => conditionFn t (getOIPercentileValue trades 75))
                 trades)).
Proof.
  unfold getBestLevelForCondition.
  destruct trades as [|t r]; [reflexivity|].
  destruct (filter _ (t :: r)); reflexivity.
Qed.

Lemma calculateSingleFactorStats_head (trades : list Trade) (best : AnalysisResult) :
  hd_error (calculateSingleFactorStats trades) = Some best ->
  In best (calculateSingleFactorStats trades) /\
  forall r, In r (calculateSingleFactorStats trades) -> avgMfe r <= avgMfe best.
Proof.
  intros H. split.
  - destruct (calculateSingleFactorStats trades); [discriminate|].
    injection H as ->. now left.
  - intros r Hr. unfold calculateSingleFactorStats in *.
    apply sort_In in Hr.
    apply Qle_bool_iff.
    apply (sort_head_least byAvgMfeDesc byAvgMfeDesc_total byAvgMfeDesc_trans
             _ best H r Hr).
Qed.

Lemma calculateSingleFactorStats_no_level (trades : list Trade) :
  (forall t, In t trades -> forall l, In l (taLevels t) -> l = "None" \/ l = "") ->
  calculateSingleFactorStats trades = [].
Proof.
  intros H.
  destruct (calculateSingleFactorStats trades) as [|r rest] eqn:E; [reflexivity|].
  assert (Hin : In (level r) (map level (calculateSingleFactorStats trades))).
  { rewrite E. now left. }
  apply calculateSingleFactorStats_levels in Hin.
  destruct Hin as [t [Ht Hh]]. apply holdsLevel_iff in Hh.
  destruct Hh as [Hl [Hn He]].
  destruct (H t Ht _ Hl); contradiction.
Qed.

Lemma percentile75_rank (n : nat) :
  (0 < n)%nat ->
  Z.to_nat (Z.min (percentileIndex 75 n) (Z.of_nat n - 1)) = (3 * n / 4)%nat.
Proof.
  intros Hn. rewrite percentileIndex_75.
  assert (H : (3 * n / 4 < n)%nat)
    by (apply Nat.Div0.div_lt_upper_bound; lia).
  lia.
Qed.

Lemma calculateSingleFactorStats_avg (trades : list Trade) (r : AnalysisResult) :
  In r (calculateSingleFactorStats trades) ->
  let g := filter (holdsLevel (level r)) trades in
  g <> [] /\ count r = length g /\
  avgMfe r = Js.sum (map mfe g) / numOfNat (length g).
Proof.
  intros Hr g.
  destruct (calculateSingleFactorStats_row trades r Hr) as [g' [Eg [Hne Er]]].
  fold g in Eg. subst g'.
  split; [exact Hne|]. rewrite Er. simpl. rewrite !length_map. split; reflexivity.
Qed.

(** C5. [getBestLevelForCondition] returns none on an empty trade list and
    when no trade passes the predicate.  The only threshold the predicate
    ever receives is the 75th-percentile open interest of the whole input
    list, a value that does not depend on the predicate: the element of rank
    [floor(3n/4)] (counted from 0) of the ascending open-interest values of
    all [n] trades.  The trades passing the predicate at that threshold go to
    the single-factor aggregator, and the result is its first row.  A row is
    returned exactly when some passing trade holds an active level; its level
    is held by a passing trade, its count and average MFE are those of the
    passing trades holding the level, and no level held by a passing trade
    has a higher average MFE.  On four trades with the open interests 10, 20,
    30, 40, the levels A, B, C, D and the MFE 5, 7, 9, 2 the threshold is 40
    for every predicate: "at least the threshold" selects the last trade and
    gives D, "below the threshold" selects the other three and gives C. *)
Theorem getBestLevelForCondition_threshold :
  forall (trades : list Trade) (conditionFn : Trade -> Q -> bool),
  let oiThreshold := getOIPercentileValue trades 75 in
  let filteredTrades := filter (fun t => conditionFn t oiThreshold) trades in
  (trades = [] -> getBestLevelForCondition trades conditionFn = None) /\
  (filteredTrades = [] -> getBestLevelForCondition trades conditionFn = None) /\
  getBestLevelForCondition trades conditionFn =
    getBestLevelForCondition trades (fun t _ => conditionFn t oiThreshold) /\
  (filteredTrades <> [] ->
     getBestLevelForCondition trades conditionFn =
     hd_error (calculateSingleFactorStats filteredTrades)) /\
  (forall best : AnalysisResult,
     getBestLevelForCondition trades conditionFn = Some best ->
     In best (calculateSingleFactorStats filteredTrades) /\
     forall r, In r (calculateSingleFactorStats filteredTrades) ->
               avgMfe r <= avgMfe best) /\
  (trades <> [] ->
     exists sorted : list Q,
       Permutation sorted (map oi trades) /\
       StronglySorted Qle sorted /\
       oiThreshold = nth (3 * length trades / 4) sorted 0) /\
  (getBestLevelForCondition trades conditionFn = None <->
     forall t, In t filteredTrades ->
       forall l, In l (taLevels t) -> l = "None" \/ l = "") /\
  (forall best : AnalysisResult,
     getBestLevelForCondition trades conditionFn = Some best ->
     let g := filter (holdsLevel (level best)) filteredTrades in
     g <> [] /\
     count best = length g /\
     avgMfe best = Js.sum (map mfe g) / numOfNat (length g) /\
     forall lvl : string,
       let h := filter (holdsLevel lvl) filteredTrades in
       h <> [] -> Js.sum (map mfe h) / numOfNat (length h) <= avgMfe best) /\
  (getOIPercentileValue quartileTrades 75 = 40 /\
   option_map level
     (getBestLevelForCondition quartileTrades (fun t th => Qle_bool th (oi t)))
     = Some "D" /\
   option_map level
     (getBestLevelForCondition quartileTrades (fun t th => Js.ltb (oi t) th))
     = Some "C").
Proof.
  intros trades conditionFn oiThreshold filteredTrades.
  pose proof (getBestLevelForCondition_eq trades conditionFn) as E.
  fold oiThreshold in E. fold filteredTrades in E.
  split; [intros ->; reflexivity|].
  split; [intros H; rewrite E, H; reflexivity|].
  split; [rewrite E; symmetry; apply getBestLevelForCondition_eq|].
  split; [intros _; exact E|].
  split.
  { intros best Hb. rewrite E in Hb.
    apply calculateSingleFactorStats_head, Hb. }
  split.
  { intros Hne. exists (Js.sortNum (map oi trades)).
    split; [apply sort_perm|]. split; [apply sortNum_sorted|].
    destruct trades as [|t r]; [contradiction|].
    unfold oiThreshold. rewrite getOIPercentileValue_cons.
    rewrite percentile75_rank by (simpl; lia). reflexivity. }
  split.
  { rewrite E. split.
    - intros Hnone t Ht l Hl.
      destruct (string_dec l "None") as [|Hn]; [now left|].
      destruct (string_dec l "") as [|He]; [now right|].
      exfalso.
      assert (Hin : In l (map level (calculateSingleFactorStats filteredTrades))).
      { apply calculateSingleFactorStats_levels. exists t.
        split; [exact Ht|]. apply holdsLevel_iff. auto. }
      destruct (calculateSingleFactorStats filteredTrades);
        [destruct Hin | discriminate].
    - intros H. now rewrite (calculateSingleFactorStats_no_level _ H). }
  split.
  { intros best Hb g. rewrite E in Hb.
    destruct (calculateSingleFactorStats_head _ _ Hb) as [Hin Hmax].
    destruct (calculateSingleFactorStats_avg _ _ Hin) as (Hg & Hc & Ha).
    fold g in Hg, Hc, Ha.
    split; [exact Hg|]. split; [exact Hc|]. split; [exact Ha|].
    intros lvl h Hh.
    assert (Hl : In lvl (map level (calculateSingleFactorStats filteredTrades))).
    { apply calculateSingleFactorStats_levels.
      destruct h as [|t h'] eqn:Eh; [contradiction|].
      assert (Ht : In t (filter (holdsLevel lvl) filteredTrades))
        by (fold h; rewrite Eh; now left).
      apply filter_In in Ht. exists t. exact Ht. }
    apply in_map_iff in Hl. destruct Hl as [r [El Hr]].
    destruct (calculateSingleFactorStats_avg _ _ Hr) as (_ & _ & Har).
    rewrite El in Har. fold h in Har. rewrite <- Har. apply Hmax, Hr. }
  split; [vm_compute; reflexivity|].
  split; vm_compute; reflexivity.
Qed.


(** C10. When the trade list is not empty and some trade passes the
    predicate, but every slot of every passing trade is "None" or the empty
    string, [getBestLevelForCondition] returns none: the aggregator has no
    row to rank. *)
Theorem getBestLevelForCondition_no_active_level :
  forall (trades : list Trade) (conditionFn : Trade -> Q -> bool),
  trades <> [] ->
  filter (fun t => conditionFn t (getOIPercentileValue trades 75)) trades <> [] ->
  (forall t,
     In t (filter (fun t => conditionFn t (getOIPercentileValue trades 75)) trades) ->
     forall l, In l (taLevels t) -> l = "None" \/ l = "") ->
  getBestLevelForCondition trades conditionFn = None.
Proof.
  intros trades conditionFn _ _ H.
  rewrite getBestLevelForCondition_eq.
  now rewrite (calculateSingleFactorStats_no_level _ H).
Qed.

Lemma getBestLevelForCondition_no_active_level_witness :
  getBestLevelForCondition [sample ["None"; ""] "E" 10 5 1] (fun _ _ => true) = None.
Proof.
  apply getBestLevelForCondition_no_active_level.
  - discriminate.
  - simpl. discriminate.
  - simpl. intros t [<-|[]] l. simpl. intros [<-|[<-|[]]]; auto.
Defined.

(* ================================================================== *)
(** ** Pairwise aggregation *)

Lemma nth_seq_self (l : list string) :
  map (fun j => nth j l "") (seq 0 (length l)) = l.
Proof.
  induction l as [|x r IH]; simpl; [reflexivity|].
  f_equal. rewrite <- seq_shift, map_map. exact IH.
Qed.

Lemma loopIndices_shift (n : nat) (l : list nat) :
  flat_map (fun i => map (fun j => (i, j)) (seq (i + 1) (S n - (i + 1))))
    (map S l) =
  map (fun ij => (S (fst ij), S (snd ij)))
    (flat_map (fun i => map (fun j => (i, j)) (seq (i + 1) (n - (i + 1)))) l).
Proof.
  induction l as [|a r IH]; [reflexivity|].
  cbn [map flat_map]. rewrite map_app, IH. f_equal.
  change (S a + 1)%nat with (S (a + 1)).
  change (S n - S (a + 1))%nat with (n - (a + 1))%nat.
  rewrite <- seq_shift, !map_map. reflexivity.
Qed.

Lemma loopIndices_S (n : nat) :
  loopIndices (S n) =
  (map (fun j => (0%nat, j)) (seq 1 n)
   ++ map (fun ij => (S (fst ij), S (snd ij))) (loopIndices n))%list.
Proof.
  unfold loopIndices. simpl seq. simpl flat_map.
  rewrite Nat.sub_0_r. f_equal.
  rewrite <- seq_shift. apply loopIndices_shift.
Qed.

(** The nested loops enumerate the 2-combinations of the array they run on. *)
Lemma loop_pairs (l : list string) :
  map (fun ij => (nth (fst ij) l "", nth (snd ij) l ""))
    (loopIndices (length l)) = combinations2 l.
Proof.
  induction l as [|x r IH]; [reflexivity|].
  simpl length. rewrite loopIndices_S, map_app, !map_map. simpl.
  f_equal; [|exact IH].
  rewrite <- seq_shift, map_map. simpl.
  rewrite <- (map_map (fun j => nth j r "") (fun y => (x, y))).
  now rewrite nth_seq_self.
Qed.

Lemma tradePairs_combinations (t : Trade) :
  tradePairs t =
  combinations2 (Js.sortStr (filter activeLevel (taLevels t))).
Proof. unfold tradePairs. apply loop_pairs. Qed.

Lemma setOf_from_NoDup (l s : list string) :
  NoDup (s ++ l) -> fold_left (fun s x => Js.setAdd x s) l s = (s ++ l)%list.
Proof.
  revert s. induction l as [|x r IH]; intros s H; simpl.
  - now rewrite app_nil_r.
  - assert (Hx : existsb (String.eqb x) s = false).
    { apply existsb_eqb_false. apply NoDup_remove_2 in H.
      intros Hin. apply H, in_or_app. now left. }
    unfold Js.setAdd at 2. rewrite Hx.
    rewrite IH; rewrite <- app_assoc; [reflexivity | exact H].
Qed.

Lemma tradePairs_distinct (t : Trade) :
  distinctLevels t -> tradePairs t = tradePairs_spec t.
Proof.
  intros H. rewrite tradePairs_combinations. unfold tradePairs_spec, Js.setOf.
  now rewrite (setOf_from_NoDup _ [] H).
Qed.

(** C1, at a trade that repeats a level.  On every trade the loops generate
    the 2-combinations of the sorted active levels as they stand, without
    removing duplicates.  For the levels [B, A, A, C] this gives (A,A), (A,B),
    (A,C), (A,B), (A,C), (B,C): a level paired with itself and two pairs
    twice, where the 2-combinations of the distinct levels are (A,B), (A,C),
    (B,C); the one trade alone brings (A,B) and (A,C) to a count of 2.  A
    trade that repeats no level generates exactly the 2-combinations of its
    distinct levels. *)
Theorem tradePairs_repeated_level :
  let t := sample ["B"; "A"; "A"; "C"] "E" 0 1 0 in
  (forall trade : Trade,
     tradePairs trade =
     combinations2 (Js.sortStr (filter activeLevel (taLevels trade)))) /\
  (forall trade : Trade,
     distinctLevels trade -> tradePairs trade = tradePairs_spec trade) /\
  tradePairs t =
    [("A", "A"); ("A", "B"); ("A", "C"); ("A", "B"); ("A", "C"); ("B", "C")] /\
  tradePairs_spec t = [("A", "B"); ("A", "C"); ("B", "C")] /\
  map (fun r => (pair r, pairCount r)) (calculatePairStats [t]) =
    [(("A", "B"), 2%nat); (("A", "C"), 2%nat)].
Proof.
  split; [exact tradePairs_combinations|].
  split; [exact tradePairs_distinct|].
  repeat split; reflexivity.
Qed.

Lemma byPairAvgMfeDesc_total (a b : PairAnalysisResult) :
  byPairAvgMfeDesc a b = true \/ byPairAvgMfeDesc b a = true.
Proof.
  unfold byPairAvgMfeDesc.
  destruct (Qle_bool_total (pairAvgMfe a) (pairAvgMfe b)); auto.
Qed.

Lemma byPairAvgMfeDesc_trans (a b c : PairAnalysisResult) :
  byPairAvgMfeDesc a b = true -> byPairAvgMfeDesc b c = true ->
  byPairAvgMfeDesc a c = true.
Proof.
  unfold byPairAvgMfeDesc. intros H1 H2. eapply Qle_bool_trans; eassumption.
Qed.

Lemma calculatePairStats_rows (trades : list Trade) :
  Forall (fun r => (2 <= pairCount r)%nat) (calculatePairStats trades) /\
  StronglySorted (fun a b => pairAvgMfe b <= pairAvgMfe a)
    (calculatePairStats trades).
Proof.
  unfold calculatePairStats. split.
  - apply Forall_forall. intros r Hr.
    apply sort_In, filter_In in Hr. destruct Hr as [_ H].
    apply Nat.leb_le, H.
  - match goal with |- StronglySorted _ (Js.sort _ ?l) =>
      pose proof (sort_strongly_sorted byPairAvgMfeDesc byPairAvgMfeDesc_total
                    byPairAvgMfeDesc_trans l) as H
    end.
    induction H as [|x r Hr IH Hall]; constructor; [exact IH|].
    eapply Forall_impl; [|exact Hall].
    intros y Hy. apply Qle_bool_iff, Hy.
Qed.

(** C4, at a trade that repeats a level.  Every returned row has a count of
    at least 2 and the rows are sorted by descending average MFE; but the
    count is the number of generated pairs, not of trades: in the list of the
    single trade with levels [A, A, B] exactly one trade exhibits (A,B), and
    the row (A,B) is returned with count 2. *)
Theorem calculatePairStats_single_trade_pair :
  let trades := [sample ["A"; "A"; "B"] "E" 0 5 0] in
  (forall ts : list Trade,
     Forall (fun r => (2 <= pairCount r)%nat) (calculatePairStats ts) /\
     StronglySorted (fun a b => pairAvgMfe b <= pairAvgMfe a)
       (calculatePairStats ts)) /\
  length (filter (exhibitsPair "A" "B") trades) = 1%nat /\
  map (fun r => (pair r, pairCount r)) (calculatePairStats trades) =
    [(("A", "B"), 2%nat)].
Proof.
  split; [exact calculatePairStats_rows|].
  split; reflexivity.
Qed.

(* ================================================================== *)
(** ** Heatmaps *)

Lemma append_length (a b : string) :
  String.length (a ++ b) = (String.length a + String.length b)%nat.
Proof. induction a as [|c a IH]; simpl; [reflexivity | now rewrite IH]. Qed.

Lemma append_inv_tail (a b c : string) : (a ++ c = b ++ c)%string -> a = b.
Proof.
  revert b. induction a as [|x a IH]; intros [|y b] H; simpl in H.
  - reflexivity.
  - apply (f_equal String.length) in H. simpl in H.
    rewrite append_length in H. lia.
  - apply (f_equal String.length) in H. simpl in H.
    rewrite append_length in H. lia.
  - injection H as -> H. f_equal. apply IH, H.
Qed.

Lemma cellKey_inj_level (l l' x : string) : cellKey l x = cellKey l' x -> l = l'.
Proof. unfold cellKey. apply append_inv_tail. Qed.

Lemma sum_snoc (l : list Q) (x : Q) : Js.sum (l ++ [x]) = Js.sum l + x.
Proof. unfold Js.sum. now rewrite fold_left_app. Qed.

Section HeatmapFacts.

Variable xOf : Trade -> option string.

Lemma addCell_matrix_same (x : string) (t : Trade) (st : HeatState) (l : string) :
  Js.get (cellKey l x) (matrix (addCell x t st l)) =
  Some (mkHeatAcc (heatTotal (accAt (cellKey l x) (matrix st)) + mfe t)
                  (heatCount (accAt (cellKey l x) (matrix st)) + 1)).
Proof. unfold addCell. simpl. now rewrite get_set_same. Qed.

Lemma addCell_matrix_other (x : string) (t : Trade) (st : HeatState)
  (l k : string) :
  cellKey l x <> k ->
  Js.get k (matrix (addCell x t st l)) = Js.get k (matrix st).
Proof. intros H. unfold addCell. simpl. now apply get_set_other. Qed.

Lemma fold_addCell_matrix (x : string) (t : Trade) (levels : list string) :
  NoDup levels ->
  forall (st : HeatState) (k : string),
  Js.get k (matrix (fold_left (addCell x t) levels st)) =
  if existsb (fun l => String.eqb (cellKey l x) k) levels
  then Some (mkHeatAcc (heatTotal (accAt k (matrix st)) + mfe t)
                       (heatCount (accAt k (matrix st)) + 1))
  else Js.get k (matrix st).
Proof.
  induction 1 as [|a r Hnotin _ IH]; intros st k; simpl; [reflexivity|].
  rewrite IH.
  destruct (String.eqb (cellKey a x) k) eqn:E; simpl.
  - apply String.eqb_eq in E. subst k.
    assert (Er : existsb (fun l => String.eqb (cellKey l x) (cellKey a x)) r = false).
    { destruct (existsb _ r) eqn:Ex; [|reflexivity].
      apply existsb_exists in Ex. destruct Ex as [l [Hl El]].
      apply String.eqb_eq, cellKey_inj_level in El. subst l. contradiction. }
    rewrite Er. apply addCell_matrix_same.
  - apply String.eqb_neq in E.
    unfold accAt, addCell. simpl matrix.
    rewrite !(get_set_other _ _ _ _ E). reflexivity.
Qed.

Lemma fold_addCell_xSet (x : string) (t : Trade) (levels : list string)
  (st : HeatState) :
  xSet (fold_left (addCell x t) levels st) = xSet st.
Proof.
  revert st. induction levels as [|a r IH]; intros st; simpl; [reflexivity|].
  now rewrite IH.
Qed.

Lemma fold_addCell_levelSet (x : string) (t : Trade) (levels : list string)
  (st : HeatState) (y : string) :
  In y (levelSet (fold_left (addCell x t) levels st)) <->
  In y (levelSet st) \/ In y levels.
Proof.
  revert st. induction levels as [|a r IH]; intros st; simpl; [tauto|].
  rewrite IH. simpl. rewrite setAdd_In. intuition.
Qed.

Lemma fold_addCell_keys (x : string) (t : Trade) (levels : list string)
  (st : HeatState) :
  NoDup (map fst (matrix st)) ->
  NoDup (map fst (matrix (fold_left (addCell x t) levels st))).
Proof.
  revert st. induction levels as [|a r IH]; intros st H; simpl; [exact H|].
  apply IH. simpl. apply set_keys_NoDup, H.
Qed.

Lemma heatStep_matrix (st : HeatState) (t : Trade) (k : string) :
  distinctLevels t ->
  Js.get k (matrix (heatStep xOf st t)) =
  if contributesTo xOf k t
  then Some (mkHeatAcc (heatTotal (accAt k (matrix st)) + mfe t)
                       (heatCount (accAt k (matrix st)) + 1))
  else Js.get k (matrix st).
Proof.
  intros Hd. unfold heatStep, contributesTo.
  destruct (xOf t) as [x|]; [|reflexivity].
  now rewrite (fold_addCell_matrix x t _ Hd).
Qed.

Lemma heatStep_keys (st : HeatState) (t : Trade) :
  NoDup (map fst (matrix st)) -> NoDup (map fst (matrix (heatStep xOf st t))).
Proof.
  intros H. unfold heatStep. destruct (xOf t); [|exact H].
  apply fold_addCell_keys, H.
Qed.

Lemma heat_keys (trades : list Trade) (st : HeatState) :
  NoDup (map fst (matrix st)) ->
  NoDup (map fst (matrix (fold_left (heatStep xOf) trades st))).
Proof.
  revert st. induction trades as [|t r IH]; intros st H; simpl; [exact H|].
  apply IH, heatStep_keys, H.
Qed.

Lemma heat_matrix_get (trades : list Trade) (k : string) :
  Forall distinctLevels trades ->
  Js.get k (matrix (fold_left (heatStep xOf) trades (mkHeatState [] [] []))) =
  match filter (contributesTo xOf k) trades with
  | [] => None
  | g => Some (mkHeatAcc (Js.sum (map mfe g)) (length g))
  end.
Proof.
  induction trades as [|t r IH] using rev_ind; intros Hd; [reflexivity|].
  apply Forall_app in Hd. destruct Hd as [Hr Ht].
  inversion Ht as [|? ? Hdt _]; subst.
  rewrite fold_left_app, filter_app. simpl.
  rewrite (heatStep_matrix _ t k Hdt). unfold accAt. rewrite (IH Hr).
  destruct (contributesTo xOf k t).
  - destruct (filter (contributesTo xOf k) r) as [|a g]; [reflexivity|].
    cbn [app map length heatTotal heatCount].
    f_equal. f_equal.
    + change (mfe a :: map mfe g) with (map mfe (a :: g)).
      rewrite <- sum_snoc. cbn [app map]. now rewrite map_app.
    + rewrite length_app. simpl. lia.
  - now rewrite app_nil_r.
Qed.

Lemma heat_xSet (trades : list Trade) (st : HeatState) (x : string) :
  In x (xSet (fold_left (heatStep xOf) trades st)) <->
  In x (xSet st) \/ exists t, In t trades /\ xOf t = Some x.
Proof.
  revert st. induction trades as [|t r IH]; intros st; simpl.
  - split; [tauto | intros [H|[t [[] _]]]; exact H].
  - rewrite IH. unfold heatStep.
    destruct (xOf t) as [x'|] eqn:E.
    + rewrite fold_addCell_xSet. simpl. rewrite setAdd_In. split.
      * intros [[->|H]|[t' [Ht' Hx]]]; eauto.
      * intros [H|[t' [[<-|Ht'] Hx]]]; eauto.
        left; left. congruence.
    + split.
      * intros [H|[t' [Ht' Hx]]]; eauto.
      * intros [H|[t' [[<-|Ht'] Hx]]]; eauto. congruence.
Qed.

Lemma heat_levelSet (trades : list Trade) (st : HeatState) (y : string) :
  In y (levelSet (fold_left (heatStep xOf) trades st)) <->
  In y (levelSet st) \/
  exists t, In t trades /\ hasCategory xOf t = true /\ holdsLevel y t = true.
Proof.
  revert st. induction trades as [|t r IH]; intros st; simpl.
  - split; [tauto | intros [H|[t [[] _]]]; exact H].
  - rewrite IH. unfold heatStep.
    destruct (xOf t) as [x'|] eqn:E.
    + rewrite fold_addCell_levelSet. simpl. split.
      * intros [[H|H]|[t' [Ht' Hx]]]; eauto.
        right. exists t. split; [now left|]. unfold hasCategory, holdsLevel.
        rewrite E. split; [reflexivity | now apply existsb_eqb_In].
      * intros [H|[t' [[<-|Ht'] [Hc Hh]]]]; eauto.
        left; right. now apply existsb_eqb_In.
    + split.
      * intros [H|[t' [Ht' Hx]]]; eauto.
      * intros [H|[t' [[<-|Ht'] [Hc Hh]]]]; eauto.
        unfold hasCategory in Hc. rewrite E in Hc. discriminate.
Qed.

Lemma heat_filter (trades : list Trade) (st : HeatState) :
  fold_left (heatStep xOf) (filter (hasCategory xOf) trades) st =
  fold_left (heatStep xOf) trades st.
Proof.
  revert st. induction trades as [|t r IH]; intros st; simpl; [reflexivity|].
  unfold hasCategory at 1. destruct (xOf t) eqn:E; simpl.
  - apply IH.
  - rewrite IH. unfold heatStep at 3. now rewrite E.
Qed.

End HeatmapFacts.

Lemma set_fresh {V : Type} (k : string) (v : V) (g : list (string * V)) :
  ~ In k (map fst g) -> Js.set k v g = (g ++ [(k, v)])%list.
Proof.
  induction g as [|[k' v'] r IH]; simpl; intros H; [reflexivity|].
  destruct (String.eqb k' k) eqn:E.
  - apply String.eqb_eq in E. exfalso. apply H. now left.
  - f_equal. apply IH. intros Hin. apply H. now right.
Qed.

Lemma grid_fold (m : list (string * HeatAcc)) :
  forall (g : list (string * Cell)) (mx : Q),
  NoDup (map fst g ++ map fst m) ->
  fold_left addGridCell m (g, mx) =
  ((g ++ map cellOfAcc m)%list, fold_left maxStep m mx).
Proof.
  induction m as [|[k v] r IH]; intros g mx H; simpl.
  - now rewrite app_nil_r.
  - simpl in H.
    assert (Hk : ~ In k (map fst g)).
    { apply NoDup_remove_2 in H. intros Hin. apply H.
      apply in_or_app. now left. }
    rewrite (set_fresh _ _ _ Hk).
    rewrite IH.
    + unfold maxStep at 2. simpl. now rewrite <- app_assoc.
    + rewrite map_app, <- app_assoc. exact H.
Qed.

Lemma maxStep_fold (m : list (string * HeatAcc)) :
  forall mx : Q,
  mx <= fold_left maxStep m mx /\
  (forall e, In e m ->
     cellAvgMfe (snd (cellOfAcc e)) <= fold_left maxStep m mx) /\
  (fold_left maxStep m mx = mx \/
   exists e, In e m /\ fold_left maxStep m mx = cellAvgMfe (snd (cellOfAcc e))).
Proof.
  induction m as [|e r IH]; intros mx; simpl.
  - split; [apply Qle_refl|]. split; [intros e []|]. now left.
  - destruct (IH (maxStep mx e)) as [H1 [H2 H3]].
    assert (Hmx : mx <= maxStep mx e /\
                  cellAvgMfe (snd (cellOfAcc e)) <= maxStep mx e /\
                  (maxStep mx e = mx \/
                   maxStep mx e = cellAvgMfe (snd (cellOfAcc e)))).
    { unfold maxStep, cellOfAcc. simpl.
      destruct (Js.gtb _ mx) eqn:E.
      - apply gtb_iff in E. repeat split; [lra | lra | now right].
      - apply gtb_false_iff in E. repeat split; [lra | exact E | now left]. }
    destruct Hmx as [Ha [Hb Hc]].
    split; [eapply Qle_trans; eassumption|]. split.
    + intros e' [<-|He']; [eapply Qle_trans; eassumption | apply H2, He'].
    + destruct H3 as [H3|[e' [He' H3]]].
      * rewrite H3. destruct Hc as [Hc|Hc]; [now left|].
        right. exists e. split; [now left | exact Hc].
      * right. exists e'. split; [now right | exact H3].
Qed.

Lemma noColon_cellKey (l y x x' : string) :
  noColon l -> noColon y -> cellKey l x' = cellKey y x -> l = y /\ x' = x.
Proof.
  unfold cellKey. revert y.
  induction l as [|c l IH]; intros [|d y] Hl Hy H; simpl in *.
  - injection H as H. now split.
  - injection H as Hc _. destruct Hy as [Hd _]. congruence.
  - injection H as Hc _. destruct Hl as [Hd _]. congruence.
  - injection H as -> H. destruct Hl as [_ Hl]. destruct Hy as [_ Hy].
    destruct (IH y Hl Hy H) as [-> ->]. now split.
Qed.

Lemma contributesTo_combination (xOf : Trade -> option string) (y x : string)
  (t : Trade) :
  noColon y -> (forall l, In l (taLevels t) -> noColon l) ->
  contributesTo xOf (cellKey y x) t = contributesToCombination xOf y x t.
Proof.
  intros Hy Hl. unfold contributesTo, contributesToCombination, holdsLevel.
  destruct (xOf t) as [x'|]; [|reflexivity].
  apply eq_true_iff_eq. rewrite andb_true_iff, existsb_exists, existsb_eqb_In.
  rewrite String.eqb_eq. split.
  - intros [l [Hin E]]. apply String.eqb_eq in E.
    assert (Hnl : noColon l) by (apply Hl; apply filter_In in Hin; tauto).
    destruct (noColon_cellKey l y x x' Hnl Hy E) as [-> ->]. now split.
  - intros [-> Hin]. exists y. split; [exact Hin | apply String.eqb_refl].
Qed.

Lemma heatmapOf_facts (xOf : Trade -> option string)
  (sortX : list string -> list string) (trades : list Trade) :
  (forall l x, In x (sortX l) <-> In x l) ->
  Forall distinctLevels trades ->
  let hm := heatmapOf xOf sortX trades in
  NoDup (map fst (grid hm)) /\
  (forall k, In k (map fst (grid hm)) <->
             exists t, In t trades /\ contributesTo xOf k t = true) /\
  (forall k c, In (k, c) (grid hm) ->
     let g := filter (contributesTo xOf k) trades in
     cellCount c = length g /\ (1 <= cellCount c)%nat /\
     cellAvgMfe c = Js.sum (map mfe g) / numOfNat (length g)) /\
  (0 <= maxMfe hm /\
   (forall k c, In (k, c) (grid hm) -> cellAvgMfe c <= maxMfe hm) /\
   (maxMfe hm = 0 \/
    exists k c, In (k, c) (grid hm) /\ maxMfe hm = cellAvgMfe c)) /\
  (forall x, In x (xLabels hm) <-> exists t, In t trades /\ xOf t = Some x) /\
  (forall y, In y (yLabels hm) <->
     exists t, In t trades /\ hasCategory xOf t = true /\
               holdsLevel y t = true) /\
  hm = heatmapOf xOf sortX (filter (hasCategory xOf) trades).
Proof.
  intros HsortX Hd hm. subst hm. unfold heatmapOf.
  set (st := fold_left (heatStep xOf) trades (mkHeatState [] [] [])).
  assert (Hkeys : NoDup (map fst (matrix st))).
  { apply heat_keys. constructor. }
  rewrite (grid_fold (matrix st) [] 0) by exact Hkeys.
  cbn [grid maxMfe xLabels yLabels fst snd app].
  assert (Hk : map fst (map cellOfAcc (matrix st)) = map fst (matrix st)).
  { rewrite map_map. reflexivity. }
  assert (Hget : forall k, Js.get k (matrix st) =
            match filter (contributesTo xOf k) trades with
            | [] => None
            | g => Some (mkHeatAcc (Js.sum (map mfe g)) (length g))
            end).
  { intros k. apply heat_matrix_get, Hd. }
  destruct (maxStep_fold (matrix st) 0) as [M1 [M2 M3]].
  split; [rewrite Hk; exact Hkeys|].
  split; [|split; [|split; [|split; [|split]]]].
  - intros k. rewrite Hk. split.
    + intros Hin.
      destruct (filter (contributesTo xOf k) trades) as [|a g] eqn:E.
      * exfalso. pose proof (Hget k) as HG. rewrite E in HG.
        apply get_None in HG. contradiction.
      * exists a. apply filter_In. rewrite E. now left.
    + intros [t Ht]. apply filter_In in Ht.
      destruct (in_dec string_dec k (map fst (matrix st))) as [Hi|Hn];
        [exact Hi|].
      apply get_None in Hn. rewrite Hget in Hn.
      destruct (filter (contributesTo xOf k) trades); [contradiction|discriminate].
  - intros k c Hin.
    apply in_map_iff in Hin. destruct Hin as [[k' acc] [E Hin]].
    unfold cellOfAcc in E. simpl in E. injection E as -> <-.
    apply In_get in Hin; [|exact Hkeys].
    rewrite Hget in Hin.
    destruct (filter (contributesTo xOf k) trades) as [|a g'];
      [discriminate|].
    injection Hin as <-. simpl. repeat split. lia.
  - split; [exact M1|]. split.
    + intros k c Hin. apply in_map_iff in Hin.
      destruct Hin as [e [E Hin]]. specialize (M2 e Hin).
      rewrite E in M2. exact M2.
    + destruct M3 as [M3|[e [He M3]]]; [now left|].
      right. exists (fst (cellOfAcc e)), (snd (cellOfAcc e)).
      split; [|exact M3].
      rewrite <- surjective_pairing. apply in_map, He.
  - intros x. rewrite HsortX. unfold st. rewrite heat_xSet. simpl.
    split; [intros [[]|H]; exact H | intros H; now right].
  - intros y. unfold Js.sortStr. rewrite sort_In.
    unfold st. rewrite heat_levelSet. simpl.
    split; [intros [[]|H]; exact H | intros H; now right].
  - rewrite heat_filter. fold st.
    rewrite (grid_fold (matrix st) [] 0) by exact Hkeys. reflexivity.
Qed.

Lemma fold_left_ext {A B : Type} (f g : A -> B -> A) (l : list B) (a : A) :
  (forall x y, f x y = g x y) -> fold_left f l a = fold_left g l a.
Proof.
  intros H. revert a. induction l as [|b r IH]; intros a; simpl;
    [reflexivity | now rewrite H, IH].
Qed.

Lemma calculateHeatmapStats_heatmapOf (trades : list Trade) :
  calculateHeatmapStats trades = heatmapOf entryTypeOf Js.sortStr trades.
Proof.
  unfold calculateHeatmapStats, heatmapOf.
  rewrite (fold_left_ext _ (heatStep entryTypeOf)); [reflexivity|].
  intros st t. unfold heatStep, entryTypeOf.
  destruct (String.eqb (entryType t) ""); reflexivity.
Qed.

Lemma calculateSessionLevelHeatmap_heatmapOf (trades : list Trade) :
  calculateSessionLevelHeatmap trades =
  heatmapOf sessionOf (Js.sort (byOrder sessionOrder)) trades.
Proof.
  unfold calculateSessionLevelHeatmap, heatmapOf.
  rewrite (fold_left_ext _ (heatStep sessionOf)); reflexivity.
Qed.

Lemma calculateDeltaLevelHeatmap_heatmapOf (trades : list Trade) :
  calculateDeltaLevelHeatmap trades =
  heatmapOf deltaOf (Js.sort (byOrder deltaOrder)) trades.
Proof.
  unfold calculateDeltaLevelHeatmap, heatmapOf.
  rewrite (fold_left_ext _ (heatStep deltaOf)); reflexivity.
Qed.

Lemma heatmapVariants_heatmapOf (f : list Trade -> HeatmapData)
  (xOf : Trade -> option string) :
  In (f, xOf) heatmapVariants ->
  exists sortX : list string -> list string,
    (forall l x, In x (sortX l) <-> In x l) /\
    forall trades, f trades = heatmapOf xOf sortX trades.
Proof.
  unfold heatmapVariants. simpl.
  intros [H|[H|[H|[]]]]; injection H as <- <-.
  - exists Js.sortStr.
    split; [intros; apply sort_In | apply calculateHeatmapStats_heatmapOf].
  - exists (Js.sort (byOrder sessionOrder)).
    split; [intros; apply sort_In | apply calculateSessionLevelHeatmap_heatmapOf].
  - exists (Js.sort (byOrder deltaOrder)).
    split; [intros; apply sort_In | apply calculateDeltaLevelHeatmap_heatmapOf].
Qed.

Lemma category_facts (t : Trade) :
  (entryTypeOf t = None <-> entryType t = "") /\
  (sessionOf t = Some "N/A" <->
   session t = None \/ session t = Some "" \/ session t = Some "N/A") /\
  sessionOf t <> None /\
  deltaOf t = Some (deltaLabel (getDeltaCategory (delta t))).
Proof.
  unfold entryTypeOf, sessionOf, deltaOf, sessionOrNA.
  split; [|split; [|split; [|reflexivity]]].
  - destruct (String.eqb_spec (entryType t) ""); split; try discriminate; tauto.
  - destruct (session t) as [s|]; [|split; auto].
    destruct (String.eqb_spec s "") as [->|Hne].
    + split; auto.
    + split.
      * intros H. injection H as ->. auto.
      * intros [H|[H|H]]; [discriminate | | exact H].
        injection H as ->. contradiction.
  - destruct (session t) as [s|]; [|discriminate].
    destruct (String.eqb s ""); discriminate.
Qed.

(** C2, as the code has it, for trade lists in which no trade repeats an
    active level.  In each of the three heatmaps the grid has one cell per
    composite key "level::category" formed by some trade that has an x-axis
    category.  The count of a cell is the number of trades forming its key (at
    least 1) and its [avgMfe] is the sum of their MFE divided by that count;
    when no level name contains a colon the trades forming the key of (y,x)
    are exactly the trades of category x holding level y.  [maxMfe] is the
    largest of 0 and the cells' averages: it is not negative, no cell exceeds
    it, it is 0 or the average of some cell, and it is 0 when the grid is
    empty.  The x labels are the categories of the trades, the y labels the
    active levels of the trades that have a category; a trade without
    category contributes nothing: removing such trades leaves the heatmap
    unchanged.  A trade lacks a category only in the entry-type heatmap, when
    its entry type is empty; the session heatmap files a trade without
    session under "N/A" and the delta heatmap always has a category. *)
Theorem heatmap_cells :
  forall (f : list Trade -> HeatmapData) (xOf : Trade -> option string)
         (trades : list Trade),
  In (f, xOf) heatmapVariants ->
  Forall distinctLevels trades ->
  let hm := f trades in
  NoDup (map fst (grid hm)) /\
  (forall k, In k (map fst (grid hm)) <->
             exists t, In t trades /\ contributesTo xOf k t = true) /\
  (forall k c, In (k, c) (grid hm) ->
     let g := filter (contributesTo xOf k) trades in
     cellCount c = length g /\ (1 <= cellCount c)%nat /\
     cellAvgMfe c = Js.sum (map mfe g) / numOfNat (length g)) /\
  (forall y x,
     noColon y ->
     (forall t l, In t trades -> In l (taLevels t) -> noColon l) ->
     filter (contributesTo xOf (cellKey y x)) trades =
     filter (contributesToCombination xOf y x) trades) /\
  (0 <= maxMfe hm /\
   (forall k c, In (k, c) (grid hm) -> cellAvgMfe c <= maxMfe hm) /\
   (maxMfe hm = 0 \/
    exists k c, In (k, c) (grid hm) /\ maxMfe hm = cellAvgMfe c)) /\
  (grid hm = [] -> maxMfe hm = 0) /\
  (forall x, In x (xLabels hm) <-> exists t, In t trades /\ xOf t = Some x) /\
  (forall y, In y (yLabels hm) <->
     exists t, In t trades /\ hasCategory xOf t = true /\
               holdsLevel y t = true) /\
  hm = f (filter (hasCategory xOf) trades) /\
  (forall t : Trade,
     (entryTypeOf t = None <-> entryType t = "") /\
     (sessionOf t = Some "N/A" <->
      session t = None \/ session t = Some "" \/ session t = Some "N/A") /\
     sessionOf t <> None /\
     deltaOf t = Some (deltaLabel (getDeltaCategory (delta t)))).
Proof.
  intros f xOf trades Hv Hd hm.
  destruct (heatmapVariants_heatmapOf f xOf Hv) as [sortX [HsortX Ef]].
  subst hm. rewrite !Ef.
  destruct (heatmapOf_facts xOf sortX trades HsortX Hd)
    as (F1 & F2 & F3 & F4 & F5 & F6 & F7).
  split; [exact F1|]. split; [exact F2|]. split; [exact F3|].
  split.
  { intros y x Hy Hl. apply filter_ext_in. intros t Ht.
    apply contributesTo_combination; [exact Hy | intros l; apply Hl, Ht]. }
  split; [exact F4|].
  split.
  { intros Hg. destruct F4 as (_ & _ & [H|(k & c & Hin & _)]); [exact H|].
    rewrite Hg in Hin. destruct Hin. }
  split; [exact F5|]. split; [exact F6|]. split; [exact F7|].
  exact category_facts.
Qed.

Lemma heatmap_cells_witness :
  In (calculateHeatmapStats, entryTypeOf) heatmapVariants /\
  Forall distinctLevels scenario /\
  NoDup (map fst (grid (calculateHeatmapStats scenario))).
Proof.
  assert (Hv : In (calculateHeatmapStats, entryTypeOf) heatmapVariants)
    by (left; reflexivity).
  assert (Hd : Forall distinctLevels scenario).
  { unfold scenario, distinctLevels. simpl.
    repeat constructor; simpl; intuition discriminate. }
  split; [exact Hv | split; [exact Hd|]].
  apply (heatmap_cells calculateHeatmapStats entryTypeOf scenario Hv Hd).
Defined.

(** C2, as the specification words it, fails on [collidingTrades], where no
    trade repeats a level.  The combination of level "A::B" and entry type "C"
    has one contributing trade, of MFE 1, but its cell "A::B::C" also collects
    the trade of level "A" and entry type "B::C": count 2, average 2.  And
    both trades, which have no session, appear in the session heatmap under
    the label "N/A" with a cell each. *)
Lemma heatmap_claim_fails :
  Forall distinctLevels collidingTrades /\
  filter (contributesToCombination entryTypeOf "A::B" "C") collidingTrades =
    [sample ["A::B"] "C" 0 1 0] /\
  (exists c : Cell,
     Js.get (cellKey "A::B" "C") (grid (calculateHeatmapStats collidingTrades))
       = Some c /\
     cellCount c = 2%nat /\ cellAvgMfe c == 2 /\
     cellCount c <>
       length (filter (contributesToCombination entryTypeOf "A::B" "C")
                 collidingTrades)) /\
  Forall (fun t => session t = None) collidingTrades /\
  xLabels (calculateSessionLevelHeatmap collidingTrades) = ["N/A"] /\
  map fst (grid (calculateSessionLevelHeatmap collidingTrades)) =
    ["A::B::N/A"; "A::N/A"].
Proof.
  split.
  { unfold collidingTrades, distinctLevels. simpl.
    repeat constructor; simpl; intuition discriminate. }
  split; [reflexivity|].
  split.
  { eexists. split; [vm_compute; reflexivity|].
    split; [reflexivity|]. split; [reflexivity|]. simpl. discriminate. }
  split; [repeat constructor|].
  split; reflexivity.
Qed.

(* ================================================================== *)
(** * Further properties of the analysis service *)

(** ** Durations *)

Lemma append_m_not_dash (s : string) : (s ++ "m")%string <> "-".
Proof.
  destruct s as [|c s]; simpl; [discriminate|].
  intros H. injection H as _ H. destruct s; discriminate.
Qed.

Lemma formatDuration_dash (m : Q) : formatDuration m = "-" <-> m == 0.
Proof.
  unfold formatDuration.
  destruct (Qeq_bool m 0) eqn:E.
  - apply Qeq_bool_eq in E. tauto.
  - apply Qeq_bool_neq in E. split; [|contradiction].
    destruct (Js.ltb m 60).
    + intros H. exfalso. exact (append_m_not_dash _ H).
    + generalize (Js.showZ (Qfloor (m / 60))) as a.
      generalize (Js.showZ (Js.round (Js.rem m 60))) as b.
      intros b a H. exfalso.
      destruct a as [|c a]; simpl in H; [discriminate|].
      injection H as _ H. destruct a; discriminate.
Qed.

Lemma mathMax_spec (a b : Q) :
  a <= mathMax a b /\ b <= mathMax a b /\ (mathMax a b = a \/ mathMax a b = b).
Proof.
  unfold mathMax. destruct (Qle_bool a b) eqn:E.
  - apply Qle_bool_iff in E. repeat split; [exact E | apply Qle_refl | now right].
  - assert (H : b <= a).
    { destruct (Qle_bool_total a b) as [H|H]; [congruence|].
      apply Qle_bool_iff, H. }
    repeat split; [apply Qle_refl | exact H | now left].
Qed.

Lemma minutes_between (a b : Q) :
  ((b - a) / (1000 * 60) <= 0 <-> b <= a) /\
  (1000 * 60) * ((b - a) / (1000 * 60)) == b - a.
Proof.
  assert (E : (1000 * 60) * ((b - a) / (1000 * 60)) == b - a) by field.
  split; [|exact E]. split; intros H; lra.
Qed.


(** ** Medians and percentiles *)

Lemma sorted_nth_le (s : list Q) (d : Q) :
  StronglySorted Qle s ->
  forall i j : nat, (i <= j)%nat -> (j < length s)%nat ->
  nth i s d <= nth j s d.
Proof.
  induction 1 as [|x r Hr IH Hall]; intros i j Hij Hj; simpl in Hj; [lia|].
  destruct i as [|i]; destruct j as [|j]; simpl; try lia.
  - apply Qle_refl.
  - rewrite Forall_forall in Hall. apply Hall, nth_In. lia.
  - apply IH; lia.
Qed.

Lemma sortNum_nth_In (l : list Q) (i : nat) :
  (i < length l)%nat -> In (nth i (Js.sortNum l) 0) l.
Proof.
  intros H. apply (sort_In Qle_bool). apply nth_In.
  now rewrite sort_length.
Qed.

Lemma calculateMedian_cases (values : list Q) :
  values <> [] ->
  let n := length values in
  let s := Js.sortNum values in
  ((n mod 2 = 1)%nat /\ calculateMedian values = nth (n / 2) s 0) \/
  ((n mod 2 = 0)%nat /\ (1 <= n / 2)%nat /\
   calculateMedian values = (nth (n / 2 - 1) s 0 + nth (n / 2) s 0) / 2).
Proof.
  intros Hne n s. subst n s.
  destruct values as [|v r]; [contradiction|].
  unfold calculateMedian. rewrite sortNum_length. cbv zeta.
  set (n := length (v :: r)).
  assert (Hn : (1 <= n)%nat) by (unfold n; simpl; lia).
  pose proof (Nat.mod_upper_bound n 2) as Hm.
  pose proof (Nat.div_mod_eq n 2) as Hd.
  clearbody n.
  destruct (Nat.eqb_spec (n mod 2) 0) as [E|E]; cbn [negb].
  - right. split; [exact E|]. split; [lia | reflexivity].
  - left. split; [lia | reflexivity].
Qed.

(** The median of a non-empty list lies between the smallest and the largest
    of its values, and for an odd number of values it is one of them. *)
Theorem calculateMedian_bounds : forall (values : list Q) (lo hi : Q),
  values <> [] ->
  (forall v, In v values -> lo <= v /\ v <= hi) ->
  lo <= calculateMedian values /\ calculateMedian values <= hi /\
  ((length values mod 2 = 1)%nat -> In (calculateMedian values) values).
Proof.
  intros values lo hi Hne Hb.
  pose proof (Nat.mod_upper_bound (length values) 2) as Hm.
  pose proof (Nat.div_mod_eq (length values) 2) as Hd.
  destruct (calculateMedian_cases values Hne) as [[Ho E]|[He [H1 E]]];
    rewrite E.
  - assert (Hin : In (nth (length values / 2) (Js.sortNum values) 0) values)
      by (apply sortNum_nth_In; lia).
    destruct (Hb _ Hin). repeat split; auto.
  - assert (Hin1 : In (nth (length values / 2 - 1) (Js.sortNum values) 0) values)
      by (apply sortNum_nth_In; lia).
    assert (Hin2 : In (nth (length values / 2) (Js.sortNum values) 0) values)
      by (apply sortNum_nth_In; lia).
    destruct (Hb _ Hin1) as [A1 A2]. destruct (Hb _ Hin2) as [B1 B2].
    set (a := nth (length values / 2 - 1) (Js.sortNum values) 0) in *.
    set (b := nth (length values / 2) (Js.sortNum values) 0) in *.
    assert (Eab : 2 * ((a + b) / 2) == a + b) by field.
    repeat split; [lra | lra | intros Ho; lia].
Qed.

Lemma calculateMedian_bounds_witness :
  [4; 1; 3; 2] <> [] /\
  (forall v, In v [4; 1; 3; 2] -> 1 <= v /\ v <= 4) /\
  1 <= calculateMedian [4; 1; 3; 2] /\ calculateMedian [4; 1; 3; 2] <= 4.
Proof.
  assert (Hne : [4; 1; 3; 2] <> ([] : list Q)) by discriminate.
  assert (Hb : forall v, In v [4; 1; 3; 2] -> 1 <= v /\ v <= 4).
  { intros v [<-|[<-|[<-|[<-|[]]]]]; split; unfold Qle; simpl; lia. }
  split; [exact Hne | split; [exact Hb|]].
  destruct (calculateMedian_bounds [4; 1; 3; 2] 1 4 Hne Hb) as [A [B _]].
  split; assumption.
Defined.

(** The median does not depend on the order of the values. *)
Theorem calculateMedian_Permutation : forall values values' : list Q,
  Permutation values values' ->
  calculateMedian values' == calculateMedian values.
Proof.
  intros values values' HP.
  destruct values as [|v r].
  { apply Permutation_nil in HP. subst. reflexivity. }
  destruct values' as [|v' r'].
  { apply Permutation_sym, Permutation_nil in HP. discriminate. }
  pose proof (sortNum_Permutation _ _ (Permutation_sym HP)) as HF.
  pose proof (Permutation_length HP) as HL.
  unfold calculateMedian. rewrite !sortNum_length, <- HL.
  cbv zeta.
  destruct (negb (length (v :: r) mod 2 =? 0)%nat).
  - apply Forall2_Qeq_nth, HF.
  - rewrite (Forall2_Qeq_nth _ _ (length (v :: r) / 2 - 1) HF).
    rewrite (Forall2_Qeq_nth _ _ (length (v :: r) / 2) HF).
    reflexivity.
Qed.

Lemma calculateMedian_Permutation_witness :
  Permutation [3; 1; 2] [1; 2; 3] /\
  calculateMedian [1; 2; 3] == calculateMedian [3; 1; 2].
Proof.
  assert (HP : Permutation [3; 1; 2] ([1; 2; 3] : list Q)).
  { apply Permutation_sym.
    apply (Permutation_cons_app [3] [2] 1). apply perm_swap. }
  split; [exact HP | apply (calculateMedian_Permutation _ _ HP)].
Defined.

Lemma getOIPercentileValue_extremes (trades : list Trade) (p : Q) :
  trades <> [] -> 0 <= p -> p <= 100 ->
  In (getOIPercentileValue trades p) (map oi trades) /\
  (forall t, In t trades -> getOIPercentileValue trades 0 <= oi t) /\
  (forall t, In t trades -> oi t <= getOIPercentileValue trades 100).
Proof.
  intros Hne Hp0 Hp1.
  destruct trades as [|t0 r]; [contradiction|].
  set (trades := t0 :: r).
  assert (Hn : (0 < length trades)%nat) by (unfold trades; simpl; lia).
  assert (Hs : StronglySorted Qle (Js.sortNum (map oi trades)))
    by apply sortNum_sorted.
  assert (Hlen : length (Js.sortNum (map oi trades)) = length trades)
    by (rewrite sortNum_length; apply length_map).
  split; [|split].
  - unfold trades. rewrite getOIPercentileValue_cons. fold trades.
    apply sortNum_nth_In. rewrite length_map.
    pose proof (percentile_index (length trades) p Hn Hp0). lia.
  - intros t Ht.
    unfold trades at 1. rewrite getOIPercentileValue_cons. fold trades.
    rewrite percentileIndex_0.
    replace (Z.to_nat (Z.min 0 (Z.of_nat (length trades) - 1))) with 0%nat by lia.
    assert (Hin : In (oi t) (Js.sortNum (map oi trades))).
    { apply (sort_In Qle_bool). now apply in_map. }
    apply In_nth with (d := 0) in Hin. destruct Hin as [j [Hj Ej]].
    rewrite <- Ej. apply sorted_nth_le; [exact Hs | lia | exact Hj].
  - intros t Ht.
    unfold trades at 1. rewrite getOIPercentileValue_cons. fold trades.
    rewrite percentileIndex_100.
    replace (Z.to_nat (Z.min (Z.of_nat (length trades))
                         (Z.of_nat (length trades) - 1)))
      with (length trades - 1)%nat by lia.
    assert (Hin : In (oi t) (Js.sortNum (map oi trades))).
    { apply (sort_In Qle_bool). now apply in_map. }
    apply In_nth with (d := 0) in Hin. destruct Hin as [j [Hj Ej]].
    rewrite <- Ej. apply sorted_nth_le; [exact Hs | lia | lia].
Qed.

(** On a non-empty list and for a percentile between 0 and 100 the result is
    the open interest of one of the trades; percentile 0 gives the smallest
    open interest of the list and percentile 100 the largest. *)
Theorem getOIPercentileValue_member : forall (trades : list Trade) (p : Q),
  trades <> [] -> 0 <= p -> p <= 100 ->
  In (getOIPercentileValue trades p) (map oi trades) /\
  (forall t, In t trades -> getOIPercentileValue trades 0 <= oi t) /\
  (forall t, In t trades -> oi t <= getOIPercentileValue trades 100).
Proof. exact getOIPercentileValue_extremes. Qed.

Lemma getOIPercentileValue_member_witness :
  scenario <> [] /\ 0 <= 75 /\ 75 <= 100 /\
  In (getOIPercentileValue scenario 75) (map oi scenario).
Proof.
  assert (Hne : scenario <> []) by discriminate.
  assert (H0 : 0 <= 75) by (unfold Qle; simpl; lia).
  assert (H1 : 75 <= 100) by (unfold Qle; simpl; lia).
  split; [exact Hne | split; [exact H0 | split; [exact H1|]]].
  apply (getOIPercentileValue_member scenario 75 Hne H0 H1).
Defined.

(** A larger percentile never gives a smaller value. *)
Theorem getOIPercentileValue_monotone : forall (trades : list Trade) (p q : Q),
  0 <= p -> p <= q ->
  getOIPercentileValue trades p <= getOIPercentileValue trades q.
Proof.
  intros trades p q Hp Hpq.
  destruct trades as [|t0 r]; [apply Qle_refl|].
  set (trades := t0 :: r).
  assert (Hn : (0 < length trades)%nat) by (unfold trades; simpl; lia).
  assert (Hlen : length (Js.sortNum (map oi trades)) = length trades)
    by (rewrite sortNum_length; apply length_map).
  unfold trades. rewrite !getOIPercentileValue_cons. fold trades.
  assert (Hq : 0 <= q) by lra.
  pose proof (percentile_index (length trades) p Hn Hp) as Hip.
  pose proof (percentile_index (length trades) q Hn Hq) as Hiq.
  pose proof (percentileIndex_mono p q (length trades) Hpq) as Hf.
  apply sorted_nth_le; [apply sortNum_sorted | lia | rewrite Hlen; lia].
Qed.

Lemma getOIPercentileValue_monotone_witness :
  0 <= 25 /\ 25 <= 75 /\
  getOIPercentileValue scenario 25 <= getOIPercentileValue scenario 75.
Proof.
  assert (H0 : 0 <= 25) by (unfold Qle; simpl; lia).
  assert (H1 : 25 <= 75) by (unfold Qle; simpl; lia).
  split; [exact H0 | split; [exact H1|]].
  apply (getOIPercentileValue_monotone scenario 25 75 H0 H1).
Defined.

(** ** Session statistics *)

Lemma addSessionSample_get (m : list (string * Samples)) (t : Trade) (s : string) :
  Js.get s (addSessionSample m t) =
  if String.eqb (sessionOrNA t) s
  then Some (mkSamples (mfes (samplesAt s m) ++ [mfe t])
                       (maes (samplesAt s m) ++ [mae t]))
  else Js.get s m.
Proof.
  unfold addSessionSample.
  destruct (String.eqb_spec (sessionOrNA t) s) as [<-|Hne].
  - now rewrite get_set_same.
  - now apply get_set_other.
Qed.

Lemma sessionMap_keys (trades : list Trade) (m : list (string * Samples)) :
  NoDup (map fst m) -> NoDup (map fst (fold_left addSessionSample trades m)).
Proof.
  revert m. induction trades as [|t r IH]; intros m H; simpl; [exact H|].
  apply IH. unfold addSessionSample. apply set_keys_NoDup, H.
Qed.

Lemma sessionMap_get (trades : list Trade) (s : string) :
  Js.get s (fold_left addSessionSample trades []) =
  match filter (fun t => String.eqb (sessionOrNA t) s) trades with
  | [] => None
  | g => Some (mkSamples (map mfe g) (map mae g))
  end.
Proof.
  induction trades as [|t r IH] using rev_ind; [reflexivity|].
  rewrite fold_left_app, filter_app. simpl.
  rewrite addSessionSample_get. unfold samplesAt. rewrite IH.
  destruct (String.eqb (sessionOrNA t) s).
  - destruct (filter _ r) as [|a g]; simpl; [reflexivity|].
    rewrite !map_app. simpl.
    destruct (g ++ [t])%list eqn:Eg; [destruct g; discriminate|].
    reflexivity.
  - now rewrite app_nil_r.
Qed.

Lemma sampleTotal_set (m : list (string * Samples)) (k : string) (x y : Q) :
  sampleTotal
    (Js.set k (mkSamples (mfes (samplesAt k m) ++ [x])
                         (maes (samplesAt k m) ++ [y])) m) =
  S (sampleTotal m).
Proof.
  unfold sampleTotal, samplesAt.
  induction m as [|[k' v'] r IH]; simpl.
  - reflexivity.
  - destruct (String.eqb k' k); simpl.
    + rewrite length_app. simpl. lia.
    + rewrite IH. lia.
Qed.

Lemma sessionMap_total (trades : list Trade) (m : list (string * Samples)) :
  sampleTotal (fold_left addSessionSample trades m) =
  (sampleTotal m + length trades)%nat.
Proof.
  revert m. induction trades as [|t r IH]; intros m; simpl; [lia|].
  rewrite IH. unfold addSessionSample.
  change (match Js.get (sessionOrNA t) m with
          | Some c => c
          | None => mkSamples [] []
          end) with (samplesAt (sessionOrNA t) m).
  rewrite sampleTotal_set. lia.
Qed.

Lemma list_sum_Permutation (l l' : list nat) :
  Permutation l l' -> list_sum l = list_sum l'.
Proof. induction 1; simpl; lia. Qed.

Lemma resultOf_count (m : list (string * Samples)) :
  list_sum (map count (map resultOf m)) = sampleTotal m.
Proof.
  unfold sampleTotal.
  induction m as [|[k v] r IH]; simpl; [reflexivity | now rewrite IH].
Qed.

(** [calculateSessionStats] puts every trade into exactly one row, the row of
    its session, or of "N/A" when the session is absent or empty: the rows
    have distinct labels, the counts of the rows add up to the number of
    trades, and the row of a label aggregates exactly the trades of that
    label (count, averages, medians). *)
Theorem calculateSessionStats_partition : forall trades : list Trade,
  let rows := calculateSessionStats trades in
  NoDup (map level rows) /\
  list_sum (map count rows) = length trades /\
  (forall s : string,
     In s (map level rows) <-> exists t, In t trades /\ sessionOrNA t = s) /\
  (forall r : AnalysisResult, In r rows ->
     let g := filter (fun t => String.eqb (sessionOrNA t) (level r)) trades in
     count r = length g /\ (1 <= count r)%nat /\
     avgMfe r = Js.sum (map mfe g) / numOfNat (length g) /\
     avgMae r = Js.sum (map mae g) / numOfNat (length g) /\
     medianMfe r = calculateMedian (map mfe g) /\
     medianMae r = calculateMedian (map mae g)).
Proof.
  intros trades rows. subst rows. unfold calculateSessionStats.
  set (m := fold_left addSessionSample trades []).
  assert (Hkeys : NoDup (map fst m)) by (apply sessionMap_keys; constructor).
  assert (HP : Permutation (Js.sort bySessionOrder (map resultOf m))
                 (map resultOf m)) by apply sort_perm.
  split; [|split; [|split]].
  - eapply Permutation_NoDup.
    + apply Permutation_map, Permutation_sym, HP.
    + rewrite resultOf_level. exact Hkeys.
  - rewrite (list_sum_Permutation _ _ (Permutation_map count HP)).
    rewrite resultOf_count. unfold m. rewrite sessionMap_total. reflexivity.
  - intros s.
    assert (HI : In s (map level (Js.sort bySessionOrder (map resultOf m))) <->
                 In s (map fst m)).
    { rewrite <- resultOf_level.
      split; apply Permutation_in;
        [apply Permutation_map, HP
        | apply Permutation_map, Permutation_sym, HP]. }
    rewrite HI.
    pose proof (get_None m s) as HN. unfold m in HN at 1.
    rewrite sessionMap_get in HN.
    destruct (filter (fun t => String.eqb (sessionOrNA t) s) trades)
      as [|a g] eqn:E.
    + split.
      * intros Hi. exfalso. apply (proj1 HN); auto.
      * intros [t [Ht Hs]].
        assert (Hf : In t (filter (fun t => String.eqb (sessionOrNA t) s) trades)).
        { apply filter_In. split; [exact Ht | now apply String.eqb_eq]. }
        rewrite E in Hf. destruct Hf.
    + split.
      * intros _. exists a.
        assert (Hf : In a (filter (fun t => String.eqb (sessionOrNA t) s) trades))
          by (rewrite E; now left).
        apply filter_In in Hf. destruct Hf as [Ha Hs].
        split; [exact Ha | now apply String.eqb_eq].
      * intros _.
        destruct (in_dec string_dec s (map fst m)) as [Hi|Hn]; [exact Hi|].
        apply HN in Hn. discriminate.
  - intros r Hr.
    apply sort_In, in_map_iff in Hr. destruct Hr as [[k v] [<- Hin]].
    apply In_get in Hin; [|exact Hkeys].
    unfold m in Hin. rewrite sessionMap_get in Hin. simpl level.
    destruct (filter (fun t => String.eqb (sessionOrNA t) k) trades) as [|a g];
      [discriminate|].
    injection Hin as <-. simpl. rewrite !length_map. repeat split. lia.
Qed.

Lemma indexFrom_range (x : string) (l : list string) (i : Z) :
  (Js.indexFrom i x l = -1 /\ ~ In x l)%Z \/
  ((i <= Js.indexFrom i x l < i + Z.of_nat (length l))%Z /\ In x l).
Proof.
  revert i. induction l as [|y r IH]; intros i; simpl.
  - left. split; [reflexivity | tauto].
  - destruct (String.eqb_spec y x) as [->|Hne].
    + right. split; [lia | now left].
    + destruct (IH (i + 1)%Z) as [[E Hn]|[Hr Hin]].
      * left. split; [exact E | intros [H|H]; contradiction].
      * right. split; [lia | now right].
Qed.

Lemma byOrder_total (order : list string) (a b : string) :
  byOrder order a b = true \/ byOrder order b a = true.
Proof. unfold byOrder. rewrite !Z.leb_le. lia. Qed.

Lemma byOrder_trans (order : list string) (a b c : string) :
  byOrder order a b = true -> byOrder order b c = true ->
  byOrder order a c = true.
Proof. unfold byOrder. rewrite !Z.leb_le. lia. Qed.

(** The session rows come in the fixed order S1, S2, S3, S4, IS4, N/A,
    whatever their statistics; a row whose label is none of these six has no
    place in the order ([indexOf] gives -1) and comes before all of them. *)
Theorem calculateSessionStats_order : forall trades : list Trade,
  StronglySorted
    (fun a b => (Js.indexOf (level a) sessionOrder
                 <= Js.indexOf (level b) sessionOrder)%Z)
    (calculateSessionStats trades) /\
  map (fun l => Js.indexOf l sessionOrder) sessionOrder
    = [0; 1; 2; 3; 4; 5]%Z /\
  (forall l : string,
     (~ In l sessionOrder -> Js.indexOf l sessionOrder = -1)%Z /\
     (In l sessionOrder -> 0 <= Js.indexOf l sessionOrder)%Z).
Proof.
  intros trades. split; [|split; [reflexivity|]].
  - unfold calculateSessionStats.
    match goal with |- StronglySorted _ (Js.sort _ ?l) =>
      pose proof (sort_strongly_sorted bySessionOrder
                    (fun a b => byOrder_total sessionOrder (level a) (level b))
                    (fun a b c => byOrder_trans sessionOrder
                                    (level a) (level b) (level c)) l) as H
    end.
    induction H as [|x r Hr IH Hall]; constructor; [exact IH|].
    eapply Forall_impl; [|exact Hall].
    intros y Hy. apply Z.leb_le, Hy.
  - intros l. unfold Js.indexOf.
    destruct (indexFrom_range l sessionOrder 0) as [[E Hn]|[Hr Hin]].
    + split; [intros _; exact E | contradiction].
    + split; [contradiction | intros _; lia].
Qed.

(** ** Pairs *)

Lemma ascii_compare_trans_le (a b c : ascii) :
  Ascii.compare a b <> Gt -> Ascii.compare b c <> Gt ->
  Ascii.compare a c <> Gt /\
  (Ascii.compare a c = Eq -> Ascii.compare a b = Eq /\ Ascii.compare b c = Eq).
Proof.
  unfold Ascii.compare.
  destruct (N.compare_spec (N_of_ascii a) (N_of_ascii b));
    destruct (N.compare_spec (N_of_ascii b) (N_of_ascii c));
    destruct (N.compare_spec (N_of_ascii a) (N_of_ascii c));
    intros Hab Hbc; split; try congruence; try lia; intros; try discriminate;
    split; reflexivity.
Qed.

Lemma string_compare_trans_le (s1 s2 s3 : string) :
  String.compare s1 s2 <> Gt -> String.compare s2 s3 <> Gt ->
  String.compare s1 s3 <> Gt.
Proof.
  revert s2 s3. induction s1 as [|a s1 IH]; intros [|b s2] [|c s3]; simpl;
    try congruence.
  intros H1 H2.
  assert (Hab : Ascii.compare a b <> Gt)
    by (destruct (Ascii.compare a b); congruence).
  assert (Hbc : Ascii.compare b c <> Gt)
    by (destruct (Ascii.compare b c); congruence).
  destruct (ascii_compare_trans_le a b c Hab Hbc) as [Hac Heq].
  destruct (Ascii.compare a c) eqn:E; try congruence.
  destruct (Heq eq_refl) as [E1 E2]. rewrite E1 in H1. rewrite E2 in H2.
  apply (IH s2 s3); assumption.
Qed.

Lemma string_leb_trans (a b c : string) :
  String.leb a b = true -> String.leb b c = true -> String.leb a c = true.
Proof.
  unfold String.leb. intros H1 H2.
  pose proof (string_compare_trans_le a b c) as H.
  destruct (String.compare a b); try discriminate;
    destruct (String.compare b c); try discriminate;
    destruct (String.compare a c); try reflexivity;
    exfalso; apply H; congruence.
Qed.

Lemma sortStr_sorted (l : list string) :
  StronglySorted (fun a b => String.leb a b = true) (Js.sortStr l).
Proof.
  apply (sort_strongly_sorted String.leb String.leb_total string_leb_trans).
Qed.

Lemma combinations2_In (R : string -> string -> Prop) (l : list string) :
  StronglySorted R l ->
  forall a b, In (a, b) (combinations2 l) -> R a b /\ In a l /\ In b l.
Proof.
  induction 1 as [|x r Hr IH Hall]; intros a b Hin; simpl in Hin; [destruct Hin|].
  apply in_app_or in Hin. destruct Hin as [Hin|Hin].
  - apply in_map_iff in Hin. destruct Hin as [y [[= <- <-] Hy]].
    rewrite Forall_forall in Hall.
    split; [apply Hall, Hy|]. split; [now left | now right].
  - destruct (IH a b Hin) as [H1 [H2 H3]].
    split; [exact H1|]. split; now right.
Qed.

Lemma tradePairs_In (t : Trade) (a b : string) :
  In (a, b) (tradePairs t) ->
  String.leb a b = true /\ holdsLevel a t = true /\ holdsLevel b t = true.
Proof.
  rewrite tradePairs_combinations. intros Hin.
  destruct (combinations2_In _ _ (sortStr_sorted _) a b Hin) as [H1 [H2 H3]].
  split; [exact H1|].
  unfold holdsLevel. rewrite !existsb_eqb_In.
  split; apply (sort_In String.leb); assumption.
Qed.

Lemma set_Forall {V : Type} (P : string * V -> Prop) (k : string) (v : V)
  (m : list (string * V)) :
  Forall P m -> P (k, v) -> Forall P (Js.set k v m).
Proof.
  intros Hm Hv. induction Hm as [|[k' v'] r Hx Hr IH]; simpl.
  - constructor; [exact Hv | constructor].
  - destruct (String.eqb k' k); constructor; assumption.
Qed.

Lemma fold_addPair_ok (trades : list Trade) (t : Trade)
  (pairs : list (string * string)) (m : list (string * PairAcc)) :
  In t trades -> (forall p, In p pairs -> In p (tradePairs t)) ->
  Forall (pairEntryOk trades) m ->
  Forall (pairEntryOk trades) (fold_left (addPair t) pairs m).
Proof.
  intros Ht. revert m. induction pairs as [|[a b] r IH]; intros m Hp Hm;
    simpl; [exact Hm|].
  apply IH; [intros p H; apply Hp; now right|].
  apply set_Forall; [exact Hm|].
  split; [reflexivity|]. exists t. split; [exact Ht|].
  simpl. apply Hp. now left.
Qed.

Lemma pairMap_ok (done todo : list Trade) (m : list (string * PairAcc)) :
  Forall (pairEntryOk (done ++ todo)) m ->
  Forall (pairEntryOk (done ++ todo)) (fold_left collectPairs todo m).
Proof.
  revert done m. induction todo as [|t r IH]; intros done m Hm; simpl;
    [exact Hm|].
  replace (done ++ t :: r)%list with ((done ++ [t]) ++ r)%list in *
    by (rewrite <- app_assoc; reflexivity).
  apply IH. unfold collectPairs.
  apply fold_addPair_ok; [|auto|exact Hm].
  apply in_or_app. left. apply in_or_app. right. now left.
Qed.

Lemma calculatePairStats_entry (trades : list Trade) (r : PairAnalysisResult) :
  In r (calculatePairStats trades) ->
  exists e : string * PairAcc,
    In e (fold_left collectPairs trades []) /\ r = pairResultOf e /\
    (2 <= accCount (snd e))%nat.
Proof.
  unfold calculatePairStats. intros Hr.
  apply sort_In, filter_In in Hr. destruct Hr as [Hr Hc].
  apply in_map_iff in Hr. destruct Hr as [e [<- He]].
  exists e. split; [exact He|]. split; [reflexivity|].
  apply Nat.leb_le, Hc.
Qed.

(** Every pair [calculatePairStats] returns is in ascending code-unit order,
    consists of two active levels, and is held by at least one trade of the
    list: (B,A) never appears beside (A,B), and no pair is invented. *)
Theorem calculatePairStats_pairs_exhibited :
  forall (trades : list Trade) (r : PairAnalysisResult),
  In r (calculatePairStats trades) ->
  String.leb (fst (pair r)) (snd (pair r)) = true /\
  activeLevel (fst (pair r)) = true /\ activeLevel (snd (pair r)) = true /\
  exists t, In t trades /\ exhibitsPair (fst (pair r)) (snd (pair r)) t = true.
Proof.
  intros trades r Hr.
  destruct (calculatePairStats_entry trades r Hr) as [e [He [-> _]]].
  pose proof (pairMap_ok [] trades [] (Forall_nil _)) as Hok.
  simpl in Hok. rewrite Forall_forall in Hok.
  destruct (Hok e He) as [_ [t [Ht Hin]]].
  destruct (tradePairs_In t _ _ Hin) as [Hle [Ha Hb]].
  unfold pairResultOf. simpl.
  split; [exact Hle|].
  assert (Hact : forall l, holdsLevel l t = true -> activeLevel l = true).
  { intros l Hl. unfold holdsLevel in Hl. apply existsb_eqb_In in Hl.
    apply filter_In in Hl. tauto. }
  split; [apply Hact, Ha|]. split; [apply Hact, Hb|].
  exists t. split; [exact Ht|]. unfold exhibitsPair. now rewrite Ha, Hb.
Qed.

Lemma calculatePairStats_pairs_exhibited_witness :
  In (mkPairAnalysisResult ("A", "B") (16 # 2) 2) (calculatePairStats scenario) /\
  String.leb "A" "B" = true.
Proof.
  assert (Hin : In (mkPairAnalysisResult ("A", "B") (16 # 2) 2)
                  (calculatePairStats scenario)) by (left; reflexivity).
  split; [exact Hin|].
  apply (calculatePairStats_pairs_exhibited scenario _ Hin).
Defined.

Lemma noBar_pairKey (a a' b b' : string) :
  noBar a -> noBar a' -> pairKey a b = pairKey a' b' -> a = a' /\ b = b'.
Proof.
  unfold pairKey. revert a'.
  induction a as [|c a IH]; intros [|d a'] Ha Ha' H; simpl in *.
  - injection H as H. now split.
  - injection H as Hc _. destruct Ha' as [Hd _]. congruence.
  - injection H as Hc _. destruct Ha as [Hd _]. congruence.
  - injection H as -> H. destruct Ha as [_ Ha]. destruct Ha' as [_ Ha'].
    destruct (IH a' Ha Ha' H) as [-> ->]. now split.
Qed.

Lemma addPair_totals (t : Trade) (m : list (string * PairAcc))
  (p : string * string) (k : string) :
  pairTotals k (addPair t m p) =
  if String.eqb (keyOfPair p) k
  then Some (match pairTotals k m with
             | Some x => (fst x + mfe t, (snd x + 1)%nat)
             | None => (0 + mfe t, (0 + 1)%nat)
             end)
  else pairTotals k m.
Proof.
  destruct p as [a b]. unfold addPair, pairTotals, keyOfPair. simpl fst. simpl snd.
  destruct (String.eqb_spec (pairKey a b) k) as [<-|Hne].
  - rewrite get_set_same. simpl.
    destruct (Js.get (pairKey a b) m); reflexivity.
  - now rewrite (get_set_other _ _ _ _ Hne).
Qed.

Lemma fold_addPair_totals (t : Trade) (pairs : list (string * string)) :
  NoDup (map keyOfPair pairs) ->
  forall (m : list (string * PairAcc)) (k : string),
  pairTotals k (fold_left (addPair t) pairs m) =
  if existsb (fun p => String.eqb (keyOfPair p) k) pairs
  then Some (match pairTotals k m with
             | Some x => (fst x + mfe t, (snd x + 1)%nat)
             | None => (0 + mfe t, (0 + 1)%nat)
             end)
  else pairTotals k m.
Proof.
  induction pairs as [|p r IH]; intros Hnd m k; simpl; [reflexivity|].
  inversion Hnd as [|? ? Hnotin Hnd']; subst.
  rewrite (IH Hnd'). rewrite !addPair_totals.
  destruct (String.eqb_spec (keyOfPair p) k) as [<-|Hne]; simpl.
  - assert (Er : existsb (fun q => String.eqb (keyOfPair q) (keyOfPair p)) r
                 = false).
    { destruct (existsb _ r) eqn:Ex; [|reflexivity].
      apply existsb_exists in Ex. destruct Ex as [q [Hq Eq]].
      apply String.eqb_eq in Eq. exfalso. apply Hnotin.
      rewrite <- Eq. now apply in_map. }
    now rewrite Er.
  - reflexivity.
Qed.

Lemma StronglySorted_True (l : list string) :
  StronglySorted (fun _ _ => True) l.
Proof.
  induction l as [|x r IH]; constructor; [exact IH|].
  apply Forall_forall. intros; exact I.
Qed.

Lemma NoDup_app_intro {A : Type} (l l' : list A) :
  NoDup l -> NoDup l' -> (forall x, In x l -> ~ In x l') -> NoDup (l ++ l').
Proof.
  induction 1 as [|x r Hx Hr IH]; intros Hl' Hd; simpl; [exact Hl'|].
  constructor.
  - intros Hin. apply in_app_or in Hin. destruct Hin as [Hin|Hin];
      [contradiction | apply (Hd x); [now left | exact Hin]].
  - apply IH; [exact Hl'|]. intros y Hy. apply Hd. now right.
Qed.

Lemma NoDup_map_inj_in {A B : Type} (f : A -> B) (l : list A) :
  NoDup l -> (forall x y, In x l -> In y l -> f x = f y -> x = y) ->
  NoDup (map f l).
Proof.
  induction 1 as [|x r Hx Hr IH]; intros Hinj; simpl; constructor.
  - intros Hin. apply in_map_iff in Hin. destruct Hin as [y [E Hy]].
    assert (y = x) by (apply Hinj; [now right | now left | exact E]).
    subst y. contradiction.
  - apply IH. intros a b Ha Hb. apply Hinj; now right.
Qed.

Lemma combinations2_NoDup (l : list string) :
  NoDup l -> NoDup (combinations2 l).
Proof.
  induction 1 as [|x r Hx Hr IH]; simpl; [constructor|].
  apply NoDup_app_intro; [|exact IH|].
  - apply NoDup_map_inj_in; [exact Hr|]. intros a b _ _ [= ->]. reflexivity.
  - intros [a b] Hin Hin'.
    apply in_map_iff in Hin. destruct Hin as [y [[= <- <-] Hy]].
    destruct (combinations2_In _ _ (StronglySorted_True r) _ _ Hin')
      as [_ [Hxr _]].
    contradiction.
Qed.

Lemma combinations2_complete (l : list string) (a b : string) :
  In a l -> In b l -> a <> b ->
  In (a, b) (combinations2 l) \/ In (b, a) (combinations2 l).
Proof.
  induction l as [|x r IH]; intros Ha Hb Hne; simpl; [destruct Ha|].
  destruct Ha as [->|Ha]; destruct Hb as [->|Hb].
  - contradiction.
  - left. apply in_or_app. left. apply in_map_iff. exists b. now split.
  - right. apply in_or_app. left. apply in_map_iff. exists a. now split.
  - destruct (IH Ha Hb Hne) as [H|H]; [left | right];
      apply in_or_app; now right.
Qed.

Lemma cleanTrade_sorted (t : Trade) :
  cleanTrade t ->
  NoDup (Js.sortStr (filter activeLevel (taLevels t))) /\
  forall l, In l (Js.sortStr (filter activeLevel (taLevels t))) -> noBar l.
Proof.
  intros [Hd Hb]. split.
  - eapply Permutation_NoDup; [apply Permutation_sym, sort_perm | exact Hd].
  - intros l Hl. apply (sort_In String.leb), filter_In in Hl. apply Hb, Hl.
Qed.

Lemma cleanTrade_pair_noBar (t : Trade) (a b : string) :
  cleanTrade t -> In (a, b) (tradePairs t) -> noBar a /\ a <> b.
Proof.
  intros Hc Hin. destruct (cleanTrade_sorted t Hc) as [Hnd Hnb].
  rewrite tradePairs_combinations in Hin.
  destruct (combinations2_In _ _ (StronglySorted_True _) _ _ Hin)
    as [_ [Ha _]].
  split; [apply Hnb, Ha|].
  intros ->.
  revert Hnd Hin. generalize (Js.sortStr (filter activeLevel (taLevels t))).
  induction l as [|x r IH]; intros Hnd Hin; simpl in Hin; [destruct Hin|].
  inversion Hnd as [|? ? Hx Hr]; subst.
  apply in_app_or in Hin. destruct Hin as [Hin|Hin].
  - apply in_map_iff in Hin. destruct Hin as [y [[= <- <-] Hy]]. contradiction.
  - apply IH; assumption.
Qed.

Lemma cleanTrade_keys (t : Trade) :
  cleanTrade t -> NoDup (map keyOfPair (tradePairs t)).
Proof.
  intros Hc. apply NoDup_map_inj_in.
  - rewrite tradePairs_combinations. apply combinations2_NoDup.
    apply (cleanTrade_sorted t Hc).
  - intros [a b] [a' b'] Hp Hq E. unfold keyOfPair in E. simpl in E.
    destruct (cleanTrade_pair_noBar t a b Hc Hp) as [Ha _].
    destruct (cleanTrade_pair_noBar t a' b' Hc Hq) as [Ha' _].
    destruct (noBar_pairKey _ _ _ _ Ha Ha' E) as [-> ->]. reflexivity.
Qed.

Lemma pairMap_totals (trades : list Trade) (k : string) :
  (forall t, In t trades -> cleanTrade t) ->
  pairTotals k (fold_left collectPairs trades []) =
  match filter (generatesKey k) trades with
  | [] => None
  | g => Some (Js.sum (map mfe g), length g)
  end.
Proof.
  induction trades as [|t r IH] using rev_ind; intros Hc; [reflexivity|].
  rewrite fold_left_app, filter_app. simpl. unfold collectPairs at 1.
  rewrite fold_addPair_totals
    by (apply cleanTrade_keys, Hc, in_or_app; right; now left).
  rewrite IH by (intros t' Ht'; apply Hc, in_or_app; now left).
  fold (generatesKey k t).
  destruct (generatesKey k t).
  - destruct (filter (generatesKey k) r) as [|a g]; [reflexivity|].
    cbn [app map length fst snd].
    f_equal. f_equal.
    + change (mfe a :: map mfe g) with (map mfe (a :: g)).
      rewrite <- sum_snoc. cbn [app map]. now rewrite map_app.
    + rewrite length_app. simpl. lia.
  - now rewrite app_nil_r.
Qed.

Lemma generatesKey_exhibits (t : Trade) (a b : string) :
  cleanTrade t -> noBar a -> a <> b -> String.leb a b = true ->
  generatesKey (pairKey a b) t = exhibitsPair a b t.
Proof.
  intros Hc Ha Hne Hle. apply eq_true_iff_eq.
  unfold generatesKey, exhibitsPair.
  rewrite existsb_exists, andb_true_iff. split.
  - intros [[a' b'] [Hin E]]. apply String.eqb_eq in E.
    destruct (cleanTrade_pair_noBar t a' b' Hc Hin) as [Ha' _].
    unfold keyOfPair in E. simpl in E.
    destruct (noBar_pairKey _ _ _ _ Ha' Ha E) as [-> ->].
    destruct (tradePairs_In t a b Hin) as [_ [H1 H2]]. now split.
  - intros [H1 H2]. exists (a, b). split; [|apply String.eqb_refl].
    rewrite tradePairs_combinations.
    unfold holdsLevel in H1, H2. apply existsb_eqb_In in H1, H2.
    apply (sort_In String.leb) in H1, H2.
    destruct (combinations2_complete _ a b H1 H2 Hne) as [H|H]; [exact H|].
    destruct (combinations2_In _ _ (sortStr_sorted _) _ _ H) as [Hba _].
    exfalso. apply Hne. apply String.leb_antisym; assumption.
Qed.

Lemma pairMap_keys (trades : list Trade) (m : list (string * PairAcc)) :
  NoDup (map fst m) -> NoDup (map fst (fold_left collectPairs trades m)).
Proof.
  revert m. induction trades as [|t r IH]; intros m H; simpl; [exact H|].
  apply IH. unfold collectPairs.
  generalize (tradePairs t). intros pairs. revert m H.
  induction pairs as [|[a b] ps IHp]; intros m H; simpl; [exact H|].
  apply IHp. apply set_keys_NoDup, H.
Qed.

Lemma pair_entry_facts (trades : list Trade) (e : string * PairAcc) :
  (forall t, In t trades -> cleanTrade t) ->
  In e (fold_left collectPairs trades []) ->
  let a := p1 (snd e) in
  let b := p2 (snd e) in
  let g := filter (exhibitsPair a b) trades in
  fst e = pairKey a b /\ noBar a /\ a <> b /\ String.leb a b = true /\
  totalMfe (snd e) = Js.sum (map mfe g) /\ accCount (snd e) = length g /\
  g <> [].
Proof.
  intros Hc He a b g.
  pose proof (pairMap_ok [] trades [] (Forall_nil _)) as Hok.
  simpl in Hok. rewrite Forall_forall in Hok.
  destruct (Hok e He) as [Hk [t [Ht Hin]]]. fold a b in Hk, Hin.
  destruct (cleanTrade_pair_noBar t a b (Hc t Ht) Hin) as [Ha Hne].
  destruct (tradePairs_In t a b Hin) as [Hle _].
  assert (Hg : filter (generatesKey (pairKey a b)) trades = g).
  { apply filter_ext_in. intros t' Ht'.
    apply generatesKey_exhibits; auto. }
  assert (Hget : Js.get (fst e) (fold_left collectPairs trades []) = Some (snd e)).
  { apply In_get; [apply pairMap_keys; constructor|].
    now rewrite <- surjective_pairing. }
  pose proof (pairMap_totals trades (fst e) Hc) as HT.
  unfold pairTotals in HT. rewrite Hget in HT. simpl in HT.
  rewrite Hk, Hg in HT.
  destruct g as [|x g']; [discriminate|].
  injection HT as HT1 HT2.
  repeat split; try assumption. discriminate.
Qed.

(** On trade lists in which no trade repeats an active level and no level
    name contains a vertical bar, [calculatePairStats] counts trades: the rows
    have distinct pairs of two different levels, the count of a row is the
    number of trades holding both levels (at least 2) and its average is the
    mean MFE of those trades; and every pair of different levels held
    together by at least two trades has its row. *)
Theorem calculatePairStats_counts_trades : forall trades : list Trade,
  (forall t, In t trades -> cleanTrade t) ->
  let rows := calculatePairStats trades in
  NoDup (map pair rows) /\
  (forall r : PairAnalysisResult, In r rows ->
     let g := filter (exhibitsPair (fst (pair r)) (snd (pair r))) trades in
     fst (pair r) <> snd (pair r) /\
     pairCount r = length g /\ (2 <= length g)%nat /\
     pairAvgMfe r = Js.sum (map mfe g) / numOfNat (length g)) /\
  (forall a b : string,
     String.leb a b = true -> a <> b ->
     (2 <= length (filter (exhibitsPair a b) trades))%nat ->
     exists r, In r rows /\ pair r = (a, b)).
Proof.
  intros trades Hc rows. subst rows.
  set (m := fold_left collectPairs trades []).
  assert (Hkeys : NoDup (map fst m)) by (apply pairMap_keys; constructor).
  assert (Hinj : forall e e', In e m -> In e' m ->
            pair (pairResultOf e) = pair (pairResultOf e') -> e = e').
  { intros e e' He He' E. unfold pairResultOf in E. simpl in E.
    injection E as E1 E2.
    destruct (pair_entry_facts trades e Hc He) as [Hk _].
    destruct (pair_entry_facts trades e' Hc He') as [Hk' _].
    assert (Ef : fst e = fst e') by (rewrite Hk, Hk', E1, E2; reflexivity).
    assert (G : Js.get (fst e) m = Some (snd e))
      by (apply In_get; [exact Hkeys | now rewrite <- surjective_pairing]).
    assert (G' : Js.get (fst e') m = Some (snd e'))
      by (apply In_get; [exact Hkeys | now rewrite <- surjective_pairing]).
    rewrite Ef, G' in G. injection G as G.
    rewrite (surjective_pairing e), (surjective_pairing e'). congruence. }
  split; [|split].
  - unfold calculatePairStats. fold m.
    eapply Permutation_NoDup;
      [apply Permutation_map, Permutation_sym, sort_perm|].
    apply NoDup_map_inj_in.
    + apply NoDup_filter. apply NoDup_map_inj_in.
      * apply (NoDup_map_inv fst), Hkeys.
      * intros e e' He He' E. apply Hinj; [exact He | exact He'|].
        now rewrite E.
    + intros x y Hx Hy E.
      apply filter_In in Hx, Hy. destruct Hx as [Hx _]. destruct Hy as [Hy _].
      apply in_map_iff in Hx, Hy.
      destruct Hx as [e [<- He]]. destruct Hy as [e' [<- He']].
      now rewrite (Hinj e e' He He' E).
  - intros r Hr.
    destruct (calculatePairStats_entry trades r Hr) as [e [He [-> H2]]].
    destruct (pair_entry_facts trades e Hc He)
      as (_ & _ & Hne & _ & Ht & Hn & _).
    unfold pairResultOf. simpl.
    split; [exact Hne|]. split; [exact Hn|]. split; [lia|].
    now rewrite Ht, Hn.
  - intros a b Hle Hne H2.
    set (g := filter (exhibitsPair a b) trades) in *.
    assert (Ha : noBar a).
    { destruct g as [|t g'] eqn:Eg; [simpl in H2; lia|].
      assert (Ht : In t (filter (exhibitsPair a b) trades))
        by (fold g; rewrite Eg; now left).
      apply filter_In in Ht. destruct Ht as [Ht Hx].
      unfold exhibitsPair in Hx. apply andb_true_iff in Hx.
      destruct Hx as [Hx _]. apply holdsLevel_iff in Hx.
      apply (proj2 (Hc t Ht)), Hx. }
    assert (Hg : filter (generatesKey (pairKey a b)) trades = g).
    { apply filter_ext_in. intros t' Ht'.
      apply generatesKey_exhibits; auto. }
    pose proof (pairMap_totals trades (pairKey a b) Hc) as HT.
    rewrite Hg in HT. fold m in HT. unfold pairTotals in HT.
    destruct (Js.get (pairKey a b) m) as [v|] eqn:G.
    2:{ destruct g; [simpl in H2; lia | discriminate]. }
    apply get_In in G.
    destruct (pair_entry_facts trades _ Hc G)
      as (Hk & Ha' & _ & _ & _ & Hn & _).
    simpl in Hk, Ha', Hn.
    destruct (noBar_pairKey _ _ _ _ Ha Ha' Hk) as [E1 E2].
    rewrite <- E1, <- E2 in Hn. fold g in Hn.
    exists (pairResultOf (pairKey a b, v)). split.
    + unfold calculatePairStats. fold m.
      apply sort_In, filter_In. split; [apply in_map, G|].
      unfold pairResultOf. cbn [pairCount snd]. apply Nat.leb_le.
      rewrite Hn. exact H2.
    + unfold pairResultOf. cbn [pair snd]. now rewrite <- E1, <- E2.
Qed.

Lemma calculatePairStats_counts_trades_witness :
  (forall t, In t scenario -> cleanTrade t) /\
  NoDup (map pair (calculatePairStats scenario)).
Proof.
  assert (Hc : forall t, In t scenario -> cleanTrade t).
  { intros t [<-|[<-|[<-|[]]]]; split; unfold distinctLevels; simpl;
      try (repeat constructor; simpl; intuition discriminate);
      intros l Hl; simpl in Hl;
      repeat (destruct Hl as [<-|Hl]; [simpl; intuition discriminate|]);
      destruct Hl. }
  split; [exact Hc|].
  apply (calculatePairStats_counts_trades scenario Hc).
Defined.

(** ** Heatmap labels *)

Lemma heatmapVariants_sort (f : list Trade -> HeatmapData)
  (xOf : Trade -> option string) :
  In (f, xOf) heatmapVariants ->
  exists leb : string -> string -> bool,
    forall trades, f trades = heatmapOf xOf (Js.sort leb) trades.
Proof.
  unfold heatmapVariants. simpl.
  intros [H|[H|[H|[]]]]; injection H as <- <-.
  - exists String.leb. apply calculateHeatmapStats_heatmapOf.
  - exists (byOrder sessionOrder). apply calculateSessionLevelHeatmap_heatmapOf.
  - exists (byOrder deltaOrder). apply calculateDeltaLevelHeatmap_heatmapOf.
Qed.


Lemma addCell_ok (x : string) (t : Trade) (st : HeatState) (l : string) :
  In x (xSet st) -> heatStateOk st ->
  heatStateOk (addCell x t st l) /\ In x (xSet (addCell x t st l)).
Proof.
  intros Hx (H1 & H2 & H3). split; [|exact Hx].
  unfold heatStateOk, addCell. cbn [levelSet xSet matrix].
  split; [apply setAdd_NoDup, H1|]. split; [exact H2|].
  intros k Hk. apply set_keys_In in Hk. destruct Hk as [->|Hk].
  - exists l, x. split; [apply setAdd_In; now left|]. now split.
  - destruct (H3 k Hk) as (y & x' & Hy & Hx' & E).
    exists y, x'. split; [apply setAdd_In; now right|]. now split.
Qed.

Lemma fold_addCell_ok (x : string) (t : Trade) (levels : list string)
  (st : HeatState) :
  In x (xSet st) -> heatStateOk st ->
  heatStateOk (fold_left (addCell x t) levels st).
Proof.
  revert st. induction levels as [|l r IH]; intros st Hx Hok; simpl;
    [exact Hok|].
  destruct (addCell_ok x t st l Hx Hok) as [Hok' Hx'].
  apply IH; assumption.
Qed.

Lemma heatStep_ok (xOf : Trade -> option string) (st : HeatState) (t : Trade) :
  heatStateOk st -> heatStateOk (heatStep xOf st t).
Proof.
  intros (H1 & H2 & H3). unfold heatStep.
  destruct (xOf t) as [x|]; [|repeat split; assumption].
  apply fold_addCell_ok; cbn [xSet]; [apply setAdd_In; now left|].
  unfold heatStateOk. cbn [levelSet xSet matrix].
  split; [exact H1|]. split; [apply setAdd_NoDup, H2|].
  intros k Hk. destruct (H3 k Hk) as (y & x' & Hy & Hx' & E).
  exists y, x'. split; [exact Hy|]. split; [|exact E].
  apply setAdd_In. now right.
Qed.

Lemma heat_ok (xOf : Trade -> option string) (trades : list Trade)
  (st : HeatState) :
  heatStateOk st -> heatStateOk (fold_left (heatStep xOf) trades st).
Proof.
  revert st. induction trades as [|t r IH]; intros st H; simpl; [exact H|].
  apply IH, heatStep_ok, H.
Qed.

(** In each of the three heatmaps the x labels and the y labels have no
    duplicates, the y labels are in ascending code-unit order, and every
    cell of the grid sits at the key "y::x" of a y label and an x label, so
    a walk over the labels reaches every cell.  An empty trade list gives
    the empty heatmap with [maxMfe] 0. *)
Theorem heatmap_labels :
  forall (f : list Trade -> HeatmapData) (xOf : Trade -> option string)
         (trades : list Trade),
  In (f, xOf) heatmapVariants ->
  let hm := f trades in
  NoDup (xLabels hm) /\ NoDup (yLabels hm) /\
  StronglySorted (fun a b => String.leb a b = true) (yLabels hm) /\
  (forall k, In k (map fst (grid hm)) ->
     exists y x, In y (yLabels hm) /\ In x (xLabels hm) /\ k = cellKey y x) /\
  f [] = mkHeatmapData [] [] [] 0.
Proof.
  intros f xOf trades Hv hm. subst hm.
  destruct (heatmapVariants_sort f xOf Hv) as [leb Ef].
  rewrite !Ef. unfold heatmapOf.
  set (st := fold_left (heatStep xOf) trades (mkHeatState [] [] [])).
  assert (Hok : heatStateOk st).
  { apply heat_ok. repeat split; try constructor. intros k []. }
  destruct Hok as (H1 & H2 & H3).
  assert (Hkeys : NoDup (map fst (matrix st))).
  { apply heat_keys. constructor. }
  rewrite (grid_fold (matrix st) [] 0) by exact Hkeys.
  cbn [grid maxMfe xLabels yLabels fst snd app].
  split; [|split; [|split; [|split]]].
  - eapply Permutation_NoDup; [apply Permutation_sym, sort_perm | exact H2].
  - eapply Permutation_NoDup; [apply Permutation_sym, sort_perm | exact H1].
  - apply sortStr_sorted.
  - intros k Hk. rewrite map_map in Hk. simpl in Hk.
    destruct (H3 k Hk) as (y & x & Hy & Hx & E).
    exists y, x. split; [apply (sort_In String.leb), Hy|].
    split; [apply sort_In, Hx | exact E].
  - reflexivity.
Qed.

Lemma heatmap_labels_witness :
  In (calculateSessionLevelHeatmap, sessionOf) heatmapVariants /\
  NoDup (xLabels (calculateSessionLevelHeatmap scenario)).
Proof.
  assert (Hv : In (calculateSessionLevelHeatmap, sessionOf) heatmapVariants)
    by (right; left; reflexivity).
  split; [exact Hv|].
  apply (heatmap_labels calculateSessionLevelHeatmap sessionOf scenario Hv).
Defined.

Lemma sort_byOrder_sorted (order l : list string) :
  StronglySorted
    (fun a b => (Js.indexOf a order <= Js.indexOf b order)%Z)
    (Js.sort (byOrder order) l).
Proof.
  pose proof (sort_strongly_sorted (byOrder order) (byOrder_total order)
                (byOrder_trans order) l) as H.
  induction H as [|x r Hr IH Hall]; constructor; [exact IH|].
  eapply Forall_impl; [|exact Hall].
  intros y Hy. apply Z.leb_le, Hy.
Qed.

(** The x labels of the entry-type heatmap are in ascending code-unit order
    and never contain the empty entry type; those of the session heatmap
    follow the order S1, S2, S3, S4, IS4, N/A, with any other session label
    before them; those of the delta heatmap are among High++, High, Low and
    in that order. *)
Theorem heatmap_x_order : forall trades : list Trade,
  StronglySorted (fun a b => String.leb a b = true)
    (xLabels (calculateHeatmapStats trades)) /\
  ~ In "" (xLabels (calculateHeatmapStats trades)) /\
  StronglySorted
    (fun a b => (Js.indexOf a sessionOrder <= Js.indexOf b sessionOrder)%Z)
    (xLabels (calculateSessionLevelHeatmap trades)) /\
  ~ In "" (xLabels (calculateSessionLevelHeatmap trades)) /\
  StronglySorted
    (fun a b => (Js.indexOf a deltaOrder <= Js.indexOf b deltaOrder)%Z)
    (xLabels (calculateDeltaLevelHeatmap trades)) /\
  (forall x, In x (xLabels (calculateDeltaLevelHeatmap trades)) ->
             In x ["High++"; "High"; "Low"]).
Proof.
  intros trades.
  rewrite calculateHeatmapStats_heatmapOf,
    calculateSessionLevelHeatmap_heatmapOf,
    calculateDeltaLevelHeatmap_heatmapOf.
  unfold heatmapOf. cbn [xLabels].
  split; [apply sortStr_sorted|].
  split.
  { intros Hin. apply (proj1 (sort_In String.leb _ _)) in Hin.
    apply (proj1 (heat_xSet _ _ _ _)) in Hin. destruct Hin as [[]|[t [_ Ht]]].
    unfold entryTypeOf in Ht.
    destruct (String.eqb_spec (entryType t) ""); [discriminate|].
    injection Ht as Ht. contradiction. }
  split; [apply sort_byOrder_sorted|].
  split.
  { intros Hin. apply (proj1 (sort_In _ _ _)) in Hin.
    apply (proj1 (heat_xSet _ _ _ _)) in Hin. destruct Hin as [[]|[t [_ Ht]]].
    unfold sessionOf, sessionOrNA in Ht.
    destruct (session t) as [s|]; [|discriminate].
    destruct (String.eqb_spec s ""); [discriminate|].
    injection Ht as Ht. contradiction. }
  split; [apply sort_byOrder_sorted|].
  intros x Hin. apply (proj1 (sort_In _ _ _)) in Hin.
  apply (proj1 (heat_xSet _ _ _ _)) in Hin. destruct Hin as [[]|[t [_ Ht]]].
  unfold deltaOf in Ht. injection Ht as <-.
  destruct (getDeltaCategory (delta t)); simpl; auto.
Qed.

(* ================================================================== *)
(** * Properties of the callers *)

(** ** The dashboard cards *)

Lemma filter_none {A : Type} (f : A -> bool) (l : list A) :
  (forall x, In x l -> f x = false) -> filter f l = [].
Proof.
  induction l as [|x r IH]; intros H; simpl; [reflexivity|].
  rewrite (H x) by now left. apply IH. intros y Hy. apply H. now right.
Qed.

Lemma filter_all {A : Type} (f : A -> bool) (l : list A) :
  (forall x, In x l -> f x = true) -> filter f l = l.
Proof.
  induction l as [|x r IH]; intros H; simpl; [reflexivity|].
  rewrite (H x) by now left. f_equal. apply IH. intros y Hy. apply H. now right.
Qed.

Lemma percentile75_small (trades : list Trade) :
  (length trades <= 4)%nat ->
  getOIPercentileValue trades 75 = getOIPercentileValue trades 100.
Proof.
  intros Hlen.
  destruct trades as [|t1 r]; [reflexivity|].
  rewrite !getOIPercentileValue_cons, percentileIndex_75, percentileIndex_100.
  destruct r as [|t2 [|t3 [|t4 [|t5 r]]]]; try reflexivity.
  simpl in Hlen. lia.
Qed.

(** With four trades or fewer the 75th-percentile threshold is the largest
    open interest of the list, so no trade lies above it: the card of the
    best level under high delta and high open interest is empty, while the
    low card ranks all the trades of low delta. *)
Theorem bestHighDeltaHighOI_small : forall displayedTrades : list Trade,
  (length displayedTrades <= 4)%nat ->
  (forall t, In t displayedTrades ->
     oi t <= getOIPercentileValue displayedTrades 75) /\
  bestHighDeltaHighOI displayedTrades = None /\
  bestLowDeltaLowOI displayedTrades =
    hd_error
      (calculateSingleFactorStats
         (filter (fun t => deltaCategory_eqb (getDeltaCategory (delta t)) LOW)
            displayedTrades)).
Proof.
  intros trades Hlen.
  assert (Hmax : forall t, In t trades -> oi t <= getOIPercentileValue trades 75).
  { intros t Ht. rewrite (percentile75_small trades Hlen).
    assert (Hne : trades <> []) by (intros ->; destruct Ht).
    apply (getOIPercentileValue_extremes trades 100 Hne); try exact Ht;
      unfold Qle; simpl; lia. }
  split; [exact Hmax|]. split.
  - unfold bestHighDeltaHighOI. rewrite getBestLevelForCondition_eq.
    rewrite filter_none; [reflexivity|].
    intros t Ht. unfold highDeltaHighOI.
    assert (E : Js.gtb (oi t) (getOIPercentileValue trades 75) = false)
      by (apply gtb_false_iff, Hmax, Ht).
    rewrite E. apply andb_false_r.
  - unfold bestLowDeltaLowOI. rewrite getBestLevelForCondition_eq.
    f_equal. f_equal. apply filter_ext_in. intros t Ht.
    unfold lowDeltaLowOI.
    assert (E : Qle_bool (oi t) (getOIPercentileValue trades 75) = true)
      by (apply Qle_bool_iff, Hmax, Ht).
    rewrite E. apply andb_true_r.
Qed.

Lemma bestHighDeltaHighOI_small_witness :
  (length scenario <= 4)%nat /\ bestHighDeltaHighOI scenario = None.
Proof.
  assert (H : (length scenario <= 4)%nat) by (simpl; lia).
  split; [exact H|]. apply (bestHighDeltaHighOI_small scenario H).
Defined.

(** ** Saving, deleting and importing trades *)

Lemma findIndexFrom_spec (p : Trade -> bool) (l : list Trade) (i : Z) :
  (findIndexFrom i p l = -1 /\ forall t, In t l -> p t = false)%Z \/
  exists (pre : list Trade) (x : Trade) (post : list Trade),
    l = (pre ++ x :: post)%list /\ p x = true /\
    (forall t, In t pre -> p t = false) /\
    findIndexFrom i p l = (i + Z.of_nat (length pre))%Z.
Proof.
  revert i. induction l as [|y r IH]; intros i; simpl.
  - left. split; [reflexivity | intros t []].
  - destruct (p y) eqn:E.
    + right. exists [], y, r. simpl. repeat split; auto.
      * intros t [].
      * lia.
    + destruct (IH (i + 1)%Z) as [[E1 Hn]|(pre & x & post & -> & Hx & Hpre & E1)].
      * left. split; [exact E1|]. intros t [<-|Ht]; auto.
      * right. exists (y :: pre), x, post. simpl. repeat split; auto.
        -- intros t [<-|Ht]; auto.
        -- rewrite E1. lia.
Qed.

Lemma setAt_middle (pre post : list Trade) (x y : Trade) :
  setAt (length pre) y (pre ++ x :: post) = (pre ++ y :: post)%list.
Proof. induction pre as [|a pre IH]; simpl; [reflexivity | now rewrite IH]. Qed.

Lemma handleSaveTrade_cases (trade : Trade) (prev : list Trade) :
  (~ In (id trade) (map id prev) /\ handleSaveTrade trade prev = trade :: prev) \/
  exists (pre : list Trade) (x : Trade) (post : list Trade),
    prev = (pre ++ x :: post)%list /\ id x = id trade /\
    ~ In (id trade) (map id pre) /\
    handleSaveTrade trade prev = (pre ++ trade :: post)%list.
Proof.
  unfold handleSaveTrade.
  destruct (findIndexFrom_spec (fun t => String.eqb (id t) (id trade)) prev 0)
    as [[E Hn]|(pre & x & post & -> & Hx & Hpre & E)]; rewrite E.
  - left. split; [|reflexivity].
    intros Hin. apply in_map_iff in Hin. destruct Hin as [t [Et Ht]].
    specialize (Hn t Ht). simpl in Hn. apply String.eqb_neq in Hn. contradiction.
  - right. exists pre, x, post.
    split; [reflexivity|]. split; [now apply String.eqb_eq|]. split.
    + intros Hin. apply in_map_iff in Hin. destruct Hin as [t [Et Ht]].
      specialize (Hpre t Ht). simpl in Hpre. apply String.eqb_neq in Hpre.
      contradiction.
    + assert (H0 : (0 <=? 0 + Z.of_nat (length pre))%Z = true)
        by (apply Z.leb_le; lia).
      rewrite H0.
      replace (Z.to_nat (0 + Z.of_nat (length pre))) with (length pre) by lia.
      apply setAt_middle.
Qed.

(** Saving a trade replaces, in place, the first trade of the same id and
    nothing else; when no trade has its id, the trade is put in front of the
    unchanged list.  So the list of ids stays as it was when the id is
    already there and gets the new id in front otherwise, ids that were
    unique stay unique, the saved trade is in the list, and every trade of
    another id is kept.  With two trades of the id "a" in the list, saving a
    trade of that id replaces the first of them only. *)
Theorem handleSaveTrade_ids : forall (trade : Trade) (prev : list Trade),
  map id (handleSaveTrade trade prev) =
    (if includes (id trade) (map id prev) then map id prev
     else id trade :: map id prev) /\
  (NoDup (map id prev) -> NoDup (map id (handleSaveTrade trade prev))) /\
  In trade (handleSaveTrade trade prev) /\
  (forall t, id t <> id trade ->
     (In t (handleSaveTrade trade prev) <-> In t prev)) /\
  ((~ In (id trade) (map id prev) /\
    handleSaveTrade trade prev = trade :: prev) \/
   (exists (pre : list Trade) (x : Trade) (post : list Trade),
      prev = (pre ++ x :: post)%list /\ id x = id trade /\
      ~ In (id trade) (map id pre) /\
      handleSaveTrade trade prev = (pre ++ trade :: post)%list)) /\
  (forall a1 b a2 : Trade,
     id a1 = id trade -> id b <> id trade ->
     handleSaveTrade trade [a1; b; a2] = [trade; b; a2] /\
     handleSaveTrade trade [b; a1; a2] = [b; trade; a2]).
Proof.
  intros trade prev. unfold includes.
  assert (Hex : forall a1 b a2 : Trade,
            id a1 = id trade -> id b <> id trade ->
            handleSaveTrade trade [a1; b; a2] = [trade; b; a2] /\
            handleSaveTrade trade [b; a1; a2] = [b; trade; a2]).
  { intros a1 b a2 E1 Eb. unfold handleSaveTrade. simpl.
    apply String.eqb_eq in E1. apply String.eqb_neq in Eb.
    rewrite E1, Eb. simpl. split; reflexivity. }
  pose proof (handleSaveTrade_cases trade prev) as Hcases.
  destruct (handleSaveTrade_cases trade prev)
    as [[Hn E]|(pre & x & post & -> & Hx & Hpre & E)]; rewrite E in *.
  - apply existsb_eqb_false in Hn. rewrite Hn.
    split; [reflexivity|]. split.
    + intros Hnd. simpl. constructor; [|exact Hnd].
      now apply existsb_eqb_false.
    + split; [now left|]. split; [|split; [exact Hcases | exact Hex]].
      intros t Ht. simpl. split; [|auto].
      intros [<-|H]; [contradiction | exact H].
  - assert (Hin : existsb (String.eqb (id trade)) (map id (pre ++ x :: post))
                  = true).
    { apply existsb_eqb_In. rewrite map_app. apply in_or_app. right.
      simpl. now left. }
    rewrite Hin.
    assert (Eids : map id (pre ++ trade :: post) = map id (pre ++ x :: post)).
    { rewrite !map_app. simpl. now rewrite Hx. }
    split; [exact Eids|]. split; [now rewrite Eids|].
    split; [apply in_or_app; right; now left|].
    split; [|split; [exact Hcases | exact Hex]].
    intros t Ht. rewrite !in_app_iff. simpl. split.
    + intros [H|[<-|H]]; auto. contradiction.
    + intros [H|[<-|H]]; auto. congruence.
Qed.

(** Saving a trade under a new id and deleting that id again gives back the
    list as it was. *)
Theorem handleDelete_handleSaveTrade : forall (trade : Trade) (prev : list Trade),
  ~ In (id trade) (map id prev) ->
  handleDelete (id trade) (handleSaveTrade trade prev) = prev.
Proof.
  intros trade prev Hn.
  destruct (handleSaveTrade_cases trade prev)
    as [[_ E]|(pre & x & post & -> & Hx & _ & _)].
  - rewrite E. unfold handleDelete. simpl. rewrite String.eqb_refl. simpl.
    apply filter_all. intros t Ht. apply negb_true_iff, String.eqb_neq.
    intros Et. apply Hn. rewrite <- Et. now apply in_map.
  - exfalso. apply Hn. rewrite map_app. apply in_or_app. right. simpl. now left.
Qed.

Lemma handleDelete_handleSaveTrade_witness :
  ~ In "n" (map id scenario) /\
  handleDelete "n"
    (handleSaveTrade
       (mkTrade "n" "2024-01-01T10:00" None None Long "ES" "Trend" ["s"]
          ["A"] 0 0 "E" "x" 1 0 None [])
       scenario) = scenario.
Proof.
  assert (H : ~ In "n" (map id scenario)).
  { simpl. intros [H|[H|[H|[]]]]; discriminate. }
  split; [exact H|].
  apply (handleDelete_handleSaveTrade
           (mkTrade "n" "2024-01-01T10:00" None None Long "ES" "Trend" ["s"]
              ["A"] 0 0 "E" "x" 1 0 None []) scenario H).
Defined.

(** *** The import *)

Lemma newUniqueTrades_filter (allTrades validTrades : list Trade) :
  newUniqueTrades allTrades validTrades =
  filter (fun t => negb (includes (id t) (map id allTrades))) validTrades.
Proof.
  unfold newUniqueTrades, includes. apply filter_ext. intros t. f_equal.
  apply eq_true_iff_eq. rewrite !existsb_eqb_In. apply setOf_In.
Qed.

Lemma newUniqueTrades_In (allTrades validTrades : list Trade) (t : Trade) :
  In t (newUniqueTrades allTrades validTrades) <->
  In t validTrades /\ ~ In (id t) (map id allTrades).
Proof.
  unfold newUniqueTrades. rewrite filter_In, negb_true_iff, existsb_eqb_false.
  now rewrite setOf_In.
Qed.

Section ImportFacts.

Variable parseFloat : string -> option Q.
Variable getHours : string -> Z.
Variable uuidv4 : nat -> string.

Local Abbreviation parseRow' := (parseRow parseFloat getHours uuidv4).
Local Abbreviation parseRows' := (parseRows parseFloat getHours uuidv4).
Local Abbreviation handleImport' := (handleImport parseFloat getHours uuidv4).

(** The step of the loop over the rows. *)
Local Abbreviation pushRow :=
  (fun (acc : list Trade * nat) (d : CsvRow) =>
     match parseRow' (snd acc) d with
     | (Some t, calls') => ((fst acc ++ [t])%list, calls')
     | (None, calls') => (fst acc, calls')
     end).

Lemma parseRow_id (calls : nat) (d : CsvRow) (t : Trade) (calls' : nat) :
  parseRow' calls d = (Some t, calls') ->
  (hasId d -> csvId d = Some (id t) /\ calls' = calls) /\
  (~ hasId d -> id t = uuidv4 calls /\ calls' = S calls).
Proof.
  unfold parseRow, hasId.
  destruct (parseFloat (csvDelta d)); [|discriminate].
  destruct (parseFloat (csvOi d)); [|discriminate].
  destruct (parseFloat (csvMfe d)); [|discriminate].
  destruct (parseFloat (csvMae d)); [|discriminate].
  destruct (csvId d) as [s|].
  - destruct (String.eqb_spec s "") as [->|Hs]; intros H; injection H as <- <-.
    + split; [intros [s [E Hs]]; congruence | auto].
    + split; [auto|]. intros Hn. exfalso. apply Hn. now exists s.
  - intros H; injection H as <- <-.
    split; [intros [s [E _]]; discriminate | auto].
Qed.

Lemma parseRow_hasId (calls : nat) (d : CsvRow) :
  hasId d -> parseRow' calls d = (fst (parseRow' 0 d), calls).
Proof.
  intros [s [E Hs]]. unfold parseRow. rewrite E.
  apply String.eqb_neq in Hs. rewrite Hs.
  destruct (parseFloat (csvDelta d)); [|reflexivity].
  destruct (parseFloat (csvOi d)); [|reflexivity].
  destruct (parseFloat (csvMfe d)); [|reflexivity].
  destruct (parseFloat (csvMae d)); reflexivity.
Qed.

Lemma parseRows_hasId (rows : list CsvRow) :
  Forall hasId rows ->
  forall (validTrades : list Trade) (calls : nat),
  fold_left pushRow rows (validTrades, calls) =
  (fst (fold_left pushRow rows (validTrades, 0%nat)), calls).
Proof.
  induction 1 as [|d r Hd _ IH]; intros validTrades calls; [reflexivity|].
  cbn [fold_left fst snd].
  rewrite (parseRow_hasId calls d Hd).
  destruct (parseRow' 0 d) as [[t|] c] eqn:E0; cbn [fst snd].
  - rewrite (IH (validTrades ++ [t])%list calls).
    pose proof (parseRow_hasId 0 d Hd) as E1. rewrite E0 in E1.
    injection E1 as ->. reflexivity.
  - rewrite (IH validTrades calls).
    pose proof (parseRow_hasId 0 d Hd) as E1. rewrite E0 in E1.
    injection E1 as ->. reflexivity.
Qed.

Lemma handleImport_eq (allTrades : list Trade) (calls : nat)
  (rows : list CsvRow) :
  handleImport' allTrades calls rows =
  ((allTrades ++ newUniqueTrades allTrades (fst (parseRows' calls rows)))%list,
   snd (parseRows' calls rows)).
Proof.
  unfold handleImport.
  destruct (parseRows' calls rows) as [validTrades calls']. cbn [fst snd].
  destruct (newUniqueTrades allTrades validTrades) as [|a r];
    simpl; [now rewrite app_nil_r | reflexivity].
Qed.

Lemma handleImport_again (allTrades : list Trade) (calls calls' : nat)
  (rows : list CsvRow) :
  Forall hasId rows ->
  handleImport' (fst (handleImport' allTrades calls rows)) calls' rows =
  (fst (handleImport' allTrades calls rows), calls').
Proof.
  intros Hids.
  assert (Ev : forall c, parseRows' c rows = (fst (parseRows' 0 rows), c)).
  { intros c. unfold parseRows. apply (parseRows_hasId rows Hids). }
  rewrite (handleImport_eq allTrades calls rows). cbn [fst].
  rewrite handleImport_eq, (Ev calls'), (Ev calls). cbn [fst snd].
  set (validTrades := fst (parseRows' 0 rows)).
  assert (Hnone : newUniqueTrades
                    (allTrades ++ newUniqueTrades allTrades validTrades)
                    validTrades = []).
  { unfold newUniqueTrades at 1. apply filter_none.
    intros t Ht. apply negb_false_iff, existsb_eqb_In, setOf_In.
    rewrite map_app. apply in_or_app.
    destruct (in_dec string_dec (id t) (map id allTrades)) as [Hi|Hn];
      [now left|].
    right. apply in_map. apply newUniqueTrades_In. now split. }
  rewrite Hnone. now rewrite app_nil_r.
Qed.

Lemma handleImport_single (allTrades : list Trade) (calls calls' : nat)
  (d : CsvRow) (t : Trade) :
  parseRow' calls d = (Some t, calls') ->
  ~ In (id t) (map id allTrades) ->
  handleImport' allTrades calls [d] = ((allTrades ++ [t])%list, calls').
Proof.
  intros E Hn. rewrite handleImport_eq. unfold parseRows.
  cbn [fold_left fst snd]. rewrite E. cbn [fst snd app].
  rewrite newUniqueTrades_filter. cbn [filter].
  apply (existsb_eqb_false (id t)) in Hn. unfold includes. rewrite Hn.
  reflexivity.
Qed.

End ImportFacts.



(** ** The level column of the export *)

Lemma ascii_bar_eqb (c : ascii) : c <> "|"%char -> Ascii.eqb c "|" = false.
Proof. intros H. now apply Ascii.eqb_neq. Qed.

Lemma splitBar_noBar (x : string) : noBar x -> splitBar x = [x].
Proof.
  induction x as [|c r IH]; simpl; [reflexivity|].
  intros [Hc Hr]. rewrite (ascii_bar_eqb c Hc), (IH Hr). reflexivity.
Qed.

Lemma splitBar_append (x rest : string) :
  noBar x -> splitBar (x ++ "|" ++ rest) = x :: splitBar rest.
Proof.
  induction x as [|c r IH]; simpl; [reflexivity|].
  intros [Hc Hr]. rewrite (ascii_bar_eqb c Hc). simpl in IH. rewrite (IH Hr).
  reflexivity.
Qed.

Lemma splitBar_joinBar (l : list string) :
  l <> [] -> (forall x, In x l -> noBar x) -> splitBar (joinBar l) = l.
Proof.
  induction l as [|x r IH]; intros Hne Hb; [contradiction|].
  destruct r as [|y r'].
  - simpl. apply splitBar_noBar, Hb. now left.
  - change (joinBar (x :: y :: r')) with (x ++ "|" ++ joinBar (y :: r'))%string.
    rewrite splitBar_append by (apply Hb; now left).
    f_equal. apply IH; [discriminate|]. intros z Hz. apply Hb. now right.
Qed.

Lemma joinBar_empty (l : list string) :
  joinBar l = "" -> l = [] \/ l = [""].
Proof.
  destruct l as [|x [|y r]]; simpl; auto.
  - intros ->. now right.
  - intros H. exfalso. destruct x; simpl in H; discriminate.
Qed.

(** Exporting the levels of a trade and importing them again gives back the
    same list when no level name contains a vertical bar, with one
    exception: the list holding a single empty slot comes back empty.  The
    active levels are the same in every case. *)
Theorem exportLevels_importLevels : forall levels : list string,
  (forall l, In l levels -> noBar l) ->
  (levels <> [""] -> importLevels (Some (exportLevels levels)) = levels) /\
  (levels = [""] -> importLevels (Some (exportLevels levels)) = []) /\
  filter activeLevel (importLevels (Some (exportLevels levels))) =
    filter activeLevel levels.
Proof.
  intros levels Hb. unfold importLevels, exportLevels.
  destruct (String.eqb_spec (joinBar levels) "") as [E|Hne].
  - destruct (joinBar_empty levels E) as [->| ->].
    + repeat split; auto.
    + split; [congruence|]. split; reflexivity.
  - assert (Hl : levels <> []) by (intros ->; apply Hne; reflexivity).
    rewrite (splitBar_joinBar levels Hl Hb).
    split; [reflexivity|]. split; [|reflexivity].
    intros ->. exfalso. apply Hne. reflexivity.
Qed.

Lemma exportLevels_importLevels_witness :
  (forall l, In l ["Daily Open"; "None"; "POC"] -> noBar l) /\
  importLevels (Some (exportLevels ["Daily Open"; "None"; "POC"]))
    = ["Daily Open"; "None"; "POC"].
Proof.
  assert (Hb : forall l, In l ["Daily Open"; "None"; "POC"] -> noBar l).
  { intros l [<-|[<-|[<-|[]]]]; simpl; intuition discriminate. }
  split; [exact Hb|].
  apply (exportLevels_importLevels _ Hb). discriminate.
Defined.

(** ** Strategy selection *)

Lemma strategySet_In (trades : list Trade) (set : list string) (s : string) :
  In s (fold_left
          (fun set t =>
             fold_left (fun set s => Js.setAdd s set) (strategyNames t) set)
          trades set) <->
  In s set \/ exists t, In t trades /\ In s (strategyNames t).
Proof.
  revert set. induction trades as [|t r IH]; intros set; simpl.
  - split; [tauto | intros [H|[t [[] _]]]; exact H].
  - rewrite IH. rewrite (proj2 (setOf_from (strategyNames t) set)). split.
    + intros [[H|H]|[t' [Ht' Hs]]]; eauto.
    + intros [H|[t' [[<-|Ht'] Hs]]]; eauto.
Qed.

Lemma strategySet_NoDup (trades : list Trade) (set : list string) :
  NoDup set ->
  NoDup (fold_left
           (fun set t =>
              fold_left (fun set s => Js.setAdd s set) (strategyNames t) set)
           trades set).
Proof.
  revert set. induction trades as [|t r IH]; intros set H; simpl; [exact H|].
  apply IH. apply (proj1 (setOf_from (strategyNames t) set)), H.
Qed.

Lemma allStrategies_In (trades : list Trade) (s : string) :
  In s (allStrategies trades) <-> exists t, In t trades /\ In s (strategyNames t).
Proof.
  unfold allStrategies, Js.sortStr. rewrite sort_In, strategySet_In. simpl.
  split; [intros [[]|H]; exact H | intros H; now right].
Qed.

(** The strategy list of the filter holds every strategy name of every
    trade once, in ascending order.  With no strategy selected and no date
    bound every trade is shown; with every strategy selected ("Select All")
    the trades without any strategy name are hidden, unless no trade has a
    strategy name at all. *)
Theorem filteredTrades_select_all :
  forall (getTime startOfDay endOfDay : string -> Q) (trades : list Trade),
  NoDup (allStrategies trades) /\
  StronglySorted (fun a b => String.leb a b = true) (allStrategies trades) /\
  (forall s, In s (allStrategies trades) <->
             exists t, In t trades /\ In s (strategyNames t)) /\
  filteredTrades getTime startOfDay endOfDay trades [] "" "" = trades /\
  filteredTrades getTime startOfDay endOfDay trades (allStrategies trades) "" ""
    = (if (0 <? length (allStrategies trades))%nat
       then filter (fun t => (0 <? length (strategyNames t))%nat) trades
       else trades).
Proof.
  intros getTime startOfDay endOfDay trades.
  split; [|split; [|split; [|split]]].
  - unfold allStrategies, Js.sortStr.
    eapply Permutation_NoDup; [apply Permutation_sym, sort_perm|].
    apply strategySet_NoDup. constructor.
  - apply sortStr_sorted.
  - apply allStrategies_In.
  - reflexivity.
  - unfold filteredTrades. simpl.
    destruct (0 <? length (allStrategies trades))%nat; [|reflexivity].
    apply filter_ext_in. intros t Ht.
    destruct (strategyNames t) as [|s r] eqn:E; [reflexivity|].
    simpl.
    assert (Hs : existsb (String.eqb s) (allStrategies trades) = true).
    { apply existsb_eqb_In, allStrategies_In. exists t.
      split; [exact Ht | rewrite E; now left]. }
    now rewrite Hs.
Qed.

Lemma filter_neq_In (l : list string) (s x : string) :
  In x (filter (fun y => negb (String.eqb y s)) l) <-> In x l /\ x <> s.
Proof.
  rewrite filter_In, negb_true_iff, String.eqb_neq. tauto.
Qed.

(** Toggling a strategy flips its membership in the selection and leaves
    every other strategy as it was; a selection without duplicates stays
    without duplicates. *)
Theorem handleToggleStrategy_flips :
  forall (selectedStrategies : list string) (strategy : string),
  let after :=
    handleToggleStrategy selectedStrategies strategy selectedStrategies in
  (In strategy after <-> ~ In strategy selectedStrategies) /\
  (forall s, s <> strategy -> (In s after <-> In s selectedStrategies)) /\
  (NoDup selectedStrategies -> NoDup after).
Proof.
  intros sel s after. subst after. unfold handleToggleStrategy.
  destruct (existsb (String.eqb s) sel) eqn:E.
  - apply existsb_eqb_In in E. split; [|split].
    + rewrite filter_neq_In. tauto.
    + intros x Hx. rewrite filter_neq_In. tauto.
    + apply NoDup_filter.
  - apply existsb_eqb_false in E. split; [|split].
    + rewrite in_app_iff. simpl. tauto.
    + intros x Hx. rewrite in_app_iff. simpl. intuition congruence.
    + intros Hnd. apply NoDup_app_intro; [exact Hnd | repeat constructor; auto|].
      intros x Hx [<-|[]]. contradiction.
Qed.

(** ** Strategy groups *)

Lemma get_Some_In {V : Type} (m : list (string * V)) (k : string) :
  (exists v, Js.get k m = Some v) <-> In k (map fst m).
Proof.
  pose proof (get_None m k) as H.
  destruct (Js.get k m) as [v|].
  - split; [intros _ | intros _; now exists v].
    destruct (in_dec string_dec k (map fst m)) as [Hi|Hn]; [exact Hi|].
    apply H in Hn. discriminate.
  - split; [intros [v Hv]; discriminate|].
    intros Hi. exfalso. apply (proj1 H); auto.
Qed.

Lemma fold_set_keys (gid : string) (strats : list string)
  (m : list (string * string)) (s : string) :
  In s (map fst (fold_left (fun m s => Js.set s gid m) strats m)) <->
  In s (map fst m) \/ In s strats.
Proof.
  revert m. induction strats as [|x r IH]; intros m; simpl; [tauto|].
  rewrite IH, set_keys_In. intuition.
Qed.

Lemma inGroup_In (strategies : list string) (g : StrategyGroup) (s : string) :
  In s (filter (fun s => includes s strategies) (groupStrategies g)) <->
  In s (groupStrategies g) /\ In s strategies.
Proof.
  rewrite filter_In. unfold includes. now rewrite existsb_eqb_In.
Qed.

Lemma addGroup_strategyMap (strategies : list string)
  (groups : list StrategyGroup)
  (acc : list (string * list string) * list (string * string)) (s : string) :
  In s (map fst (snd (fold_left (addGroup strategies) groups acc))) <->
  In s (map fst (snd acc)) \/
  exists g, In g groups /\ In s (groupStrategies g) /\ In s strategies.
Proof.
  revert acc. induction groups as [|g r IH]; intros acc; simpl.
  - split; [tauto | intros [H|[g [[] _]]]; exact H].
  - rewrite IH. destruct acc as [grouped s2g]. unfold addGroup.
    pose proof (inGroup_In strategies g s) as Hg.
    destruct (filter (fun s => includes s strategies) (groupStrategies g))
      as [|a l] eqn:E.
    + simpl. split.
      * intros [H|[g' [Hg' Hs]]]; eauto.
      * intros [H|[g' [[<-|Hg'] Hs]]]; eauto.
        exfalso. apply (proj2 Hg). exact Hs.
    + cbn [Nat.ltb Nat.leb length snd]. rewrite fold_set_keys. split.
      * intros [[H|H]|[g' [Hg' Hs]]]; eauto.
        right. exists g. split; [now left | apply Hg, H].
      * intros [H|[g' [[<-|Hg'] Hs]]]; eauto.
        left. right. apply Hg, Hs.
Qed.

Lemma addGroup_grouped_keys (strategies : list string)
  (groups : list StrategyGroup)
  (acc : list (string * list string) * list (string * string)) (k : string) :
  In k (map fst (fst (fold_left (addGroup strategies) groups acc))) ->
  In k (map fst (fst acc)) \/ In k (map groupId groups).
Proof.
  revert acc. induction groups as [|g r IH]; intros acc; simpl; [tauto|].
  intros H. apply IH in H. destruct H as [H|H]; [|tauto].
  destruct acc as [grouped s2g]. unfold addGroup in H.
  destruct (0 <? length (filter (fun s => includes s strategies)
                           (groupStrategies g)))%nat; [|tauto].
  simpl in H. apply set_keys_In in H. destruct H as [->|H]; tauto.
Qed.

Lemma addGroup_grouped_get (strategies : list string)
  (groups : list StrategyGroup) :
  NoDup (map groupId groups) ->
  forall g, In g groups ->
  Js.get (groupId g) (fst (fold_left (addGroup strategies) groups ([], []))) =
  match filter (fun s => includes s strategies) (groupStrategies g) with
  | [] => None
  | l => Some l
  end.
Proof.
  induction groups as [|g0 r IH] using rev_ind; intros Hnd g Hg; [destruct Hg|].
  rewrite map_app in Hnd. simpl in Hnd.
  assert (Hr : NoDup (map groupId r)) by (apply NoDup_remove_1 in Hnd;
    now rewrite app_nil_r in Hnd).
  assert (H0 : ~ In (groupId g0) (map groupId r)) by (apply NoDup_remove_2 in Hnd;
    now rewrite app_nil_r in Hnd).
  rewrite fold_left_app. simpl.
  destruct (fold_left (addGroup strategies) r ([], [])) as [grouped s2g] eqn:Ef.
  assert (Hkeys : forall k, In k (map fst grouped) -> In k (map groupId r)).
  { intros k Hk.
    pose proof (addGroup_grouped_keys strategies r ([], []) k) as HK.
    rewrite Ef in HK. destruct (HK Hk) as [[]|H]; exact H. }
  apply in_app_or in Hg. destruct Hg as [Hg|[<-|[]]].
  - assert (Hne : groupId g0 <> groupId g).
    { intros E. apply H0. rewrite E. now apply in_map. }
    specialize (IH Hr g Hg). simpl in IH.
    unfold addGroup.
    destruct (0 <? length (filter (fun s => includes s strategies)
                             (groupStrategies g0)))%nat; simpl.
    + rewrite (get_set_other _ _ _ _ Hne). exact IH.
    + exact IH.
  - unfold addGroup.
    destruct (filter (fun s => includes s strategies) (groupStrategies g0))
      as [|a l] eqn:E; simpl.
    + apply get_None. intros Hk. apply H0, Hkeys, Hk.
    + apply get_set_same.
Qed.

Lemma ungrouped_In (m : list (string * string)) (strategies u : list string)
  (s : string) :
  In s (fold_left
          (fun ungrouped s =>
             match Js.get s m with
             | Some _ => ungrouped
             | None => (ungrouped ++ [s])%list
             end) strategies u) <->
  In s u \/ (In s strategies /\ Js.get s m = None).
Proof.
  revert u. induction strategies as [|x r IH]; intros u; simpl; [tauto|].
  rewrite IH. destruct (Js.get x m) eqn:E.
  - split; [intuition|]. intros [H|[[<-|H] Hn]]; auto. congruence.
  - rewrite in_app_iff. simpl. split.
    + intros [[H|[<-|[]]]|H]; auto. tauto.
    + intros [H|[[<-|H] Hn]]; auto.
Qed.

(** The strategy filter shows every strategy: under "Ungrouped" exactly the
    strategies that belong to no group, and under a group (when the group
    ids are distinct) exactly the known strategies of that group, a group
    without known strategy not being shown at all. *)
Theorem groupedDisplay_covers :
  forall (strategies : list string) (strategyGroups : list StrategyGroup),
  let grouped := fst (groupedDisplay strategies strategyGroups) in
  let ungrouped := snd (groupedDisplay strategies strategyGroups) in
  (forall s, In s ungrouped <->
     In s strategies /\
     forall g, In g strategyGroups -> ~ In s (groupStrategies g)) /\
  (NoDup (map groupId strategyGroups) ->
   (forall g, In g strategyGroups ->
      Js.get (groupId g) grouped =
      match filter (fun s => includes s strategies) (groupStrategies g) with
      | [] => None
      | l => Some l
      end) /\
   (forall s, In s strategies ->
      In s ungrouped \/
      exists g l, In g strategyGroups /\
                  Js.get (groupId g) grouped = Some l /\ In s l)).
Proof.
  intros strategies groups grouped ungrouped.
  assert (Hu : forall s, In s ungrouped <->
             In s strategies /\
             forall g, In g groups -> ~ In s (groupStrategies g)).
  { intros s. unfold ungrouped, groupedDisplay. cbn [snd].
    rewrite ungrouped_In. rewrite get_None, addGroup_strategyMap. simpl.
    split.
    - intros [[]|[Hs Hn]]. split; [exact Hs|].
      intros g Hg Hin. apply Hn. right. exists g. auto.
    - intros [Hs Hn]. right. split; [exact Hs|].
      intros [[]|[g [Hg [Hin _]]]]. exact (Hn g Hg Hin). }
  split; [exact Hu|].
  intros Hnd.
  assert (Hget : forall g, In g groups ->
            Js.get (groupId g) grouped =
            match filter (fun s => includes s strategies) (groupStrategies g) with
            | [] => None
            | l => Some l
            end).
  { intros g Hg. unfold grouped, groupedDisplay. cbn [fst].
    now apply addGroup_grouped_get. }
  split; [exact Hget|].
  intros s Hs.
  destruct (in_dec string_dec s ungrouped) as [Hi|Hn]; [now left|].
  right.
  assert (Hex : exists g, In g groups /\ In s (groupStrategies g)).
  { destruct (existsb (fun g => includes s (groupStrategies g)) groups) eqn:E.
    - apply existsb_exists in E. destruct E as [g [Hg Hin]].
      exists g. split; [exact Hg|]. now apply existsb_eqb_In.
    - exfalso. apply Hn, Hu. split; [exact Hs|].
      intros g Hg Hin.
      assert (Ht : existsb (fun g => includes s (groupStrategies g)) groups = true).
      { apply existsb_exists. exists g. split; [exact Hg|].
        now apply existsb_eqb_In. }
      congruence. }
  destruct Hex as [g [Hg Hin]].
  assert (Hf : In s (filter (fun s => includes s strategies) (groupStrategies g)))
    by (apply inGroup_In; now split).
  exists g, (filter (fun s => includes s strategies) (groupStrategies g)).
  split; [exact Hg|]. split; [|exact Hf].
  rewrite (Hget g Hg).
  destruct (filter (fun s => includes s strategies) (groupStrategies g));
    [destruct Hf | reflexivity].
Qed.

Lemma fold_toggle_off (sel toggled prev : list string) (x : string) :
  (forall s, In s toggled -> In s sel) ->
  (In x (fold_left (fun prev s => handleToggleStrategy sel s prev) toggled prev)
   <-> In x prev /\ ~ In x toggled).
Proof.
  revert prev. induction toggled as [|s r IH]; intros prev Hsel; simpl; [tauto|].
  rewrite IH by (intros s' Hs'; apply Hsel; now right).
  unfold handleToggleStrategy.
  assert (E : existsb (String.eqb s) sel = true)
    by (apply existsb_eqb_In, Hsel; now left).
  rewrite E, filter_neq_In. intuition congruence.
Qed.

Lemma fold_toggle_on (sel toggled prev : list string) (x : string) :
  (forall s, In s toggled -> ~ In s sel) ->
  (In x (fold_left (fun prev s => handleToggleStrategy sel s prev) toggled prev)
   <-> In x prev \/ In x toggled).
Proof.
  revert prev. induction toggled as [|s r IH]; intros prev Hsel; simpl; [tauto|].
  rewrite IH by (intros s' Hs'; apply Hsel; now right).
  unfold handleToggleStrategy.
  assert (E : existsb (String.eqb s) sel = false)
    by (apply existsb_eqb_false, Hsel; now left).
  rewrite E, in_app_iff. simpl. intuition.
Qed.

(** Clicking a group header selects the whole group unless it is already
    wholly selected, in which case it deselects it; strategies outside the
    group keep their state. *)
Theorem toggleGroup_selects :
  forall (strategies : list string) (strategyGroups : list StrategyGroup)
         (selectedStrategies : list string) (group : string),
  let groupStrats :=
    match Js.get group (fst (groupedDisplay strategies strategyGroups)) with
    | Some l => l
    | None => []
    end in
  let after := toggleGroup strategies strategyGroups selectedStrategies group in
  ((forall s, In s groupStrats -> In s selectedStrategies) ->
   forall s, In s after <-> In s selectedStrategies /\ ~ In s groupStrats) /\
  (~ (forall s, In s groupStrats -> In s selectedStrategies) ->
   forall s, In s after <-> In s selectedStrategies \/ In s groupStrats).
Proof.
  intros strategies groups sel group gs after. subst after.
  unfold toggleGroup. fold gs.
  assert (Hall : forallb (fun s => includes s sel) gs = true <->
                 forall s, In s gs -> In s sel).
  { rewrite forallb_forall. unfold includes.
    split; intros H s Hs; apply existsb_eqb_In, H, Hs. }
  destruct (forallb (fun s => includes s sel) gs) eqn:E.
  - split; [|intros Hn; exfalso; apply Hn, Hall; reflexivity].
    intros Hsel s. rewrite fold_toggle_off.
    + rewrite filter_In. unfold includes.
      split; [intros [H1 H2]; split; [exact H1|]; intros H; apply H2; split;
               [exact H | apply existsb_eqb_In, Hsel, H]
             | intros [H1 H2]; split; [exact H1 | tauto]].
    + intros s' Hs'. apply filter_In in Hs'. apply Hsel, Hs'.
  - split; [intros Hsel; apply Hall in Hsel; discriminate|].
    intros _ s. rewrite fold_toggle_on.
    + rewrite filter_In, negb_true_iff. unfold includes.
      rewrite existsb_eqb_false. split; [tauto|].
      intros [H|H]; [now left|].
      destruct (in_dec string_dec s sel); [now left | right; now split].
    + intros s' Hs'. apply filter_In in Hs'. destruct Hs' as [_ Hs'].
      apply negb_true_iff in Hs'. now apply existsb_eqb_false.
Qed.

(** ** Settings lists *)

(** Adding a level to the settings adds its trimmed name at the end, and
    only when that name is not empty and not in the list yet, so a list
    without duplicates and without empty name stays so; deleting the level
    just added gives back the list as it was. *)
Theorem handleAddLevel_keeps_distinct :
  forall (trim : string -> string) (taLevels : list string) (newLevel : string),
  let after := handleAddLevel trim taLevels newLevel in
  (forall l, In l after <->
     In l taLevels \/ (l = trim newLevel /\ trim newLevel <> "")) /\
  (NoDup taLevels -> NoDup after) /\
  (~ In (trim newLevel) taLevels ->
   handleDeleteLevel after (trim newLevel) = taLevels).
Proof.
  intros trim levels new after. subst after.
  unfold handleAddLevel, includes.
  destruct (String.eqb_spec (trim new) "") as [E|Hne]; simpl.
  - split; [intros l; intuition|]. split; [auto|].
    intros Hn. unfold handleDeleteLevel. apply filter_all.
    intros x Hx. apply negb_true_iff, String.eqb_neq. congruence.
  - destruct (existsb (String.eqb (trim new)) levels) eqn:Ex; simpl.
    + apply existsb_eqb_In in Ex. split; [|split; [auto|contradiction]].
      intros l. split; [auto|]. intros [H|[-> _]]; assumption.
    + apply existsb_eqb_false in Ex. split; [|split].
      * intros l. rewrite in_app_iff. simpl. split.
        -- intros [H|[<-|[]]]; auto.
        -- intros [H|[-> _]]; auto.
      * intros Hnd. apply NoDup_app_intro; [exact Hnd | repeat constructor; auto|].
        intros x Hx [<-|[]]. contradiction.
      * intros _. unfold handleDeleteLevel. rewrite filter_app. simpl.
        rewrite String.eqb_refl. simpl. rewrite app_nil_r.
        apply filter_all. intros x Hx. apply negb_true_iff, String.eqb_neq.
        congruence.
Qed.

(** ** Image sizes *)

Lemma scale_factor (a m : Q) :
  0 < m -> m < a ->
  0 < m / a /\ m / a < 1 /\ a * (m / a) == m.
Proof.
  intros Hm Ha.
  assert (Hpos : 0 < a) by lra.
  assert (E : a * (m / a) == m) by (field; lra).
  assert (Hinv : 0 < / a) by (apply Qinv_lt_0_compat, Hpos).
  assert (H0 : 0 < m / a).
  { unfold Qdiv. apply Qmult_lt_0_compat; assumption. }
  split; [exact H0|]. split; [|exact E].
  destruct (Qlt_le_dec (m / a) 1) as [H|H]; [exact H|].
  exfalso.
  assert (a * 1 <= a * (m / a)).
  { apply Qmult_le_l; assumption. }
  lra.
Qed.

(** The size computed for an uploaded image keeps the proportions of the
    picture and never enlarges it; the width never exceeds 800 and the
    height never exceeds 800 either.  The limit of 600 on the height holds
    for pictures that are not wider than high; a picture wider than high and
    at most 800 wide is left as it is, whatever its height. *)
Theorem scaledSize_bounds : forall width height : Q,
  0 < width -> 0 < height ->
  let w := fst (scaledSize width height) in
  let h := snd (scaledSize width height) in
  0 < w /\ 0 < h /\ w <= width /\ h <= height /\
  w * height == width * h /\
  w <= 800 /\ h <= 800 /\
  (width <= height -> h <= 600) /\
  (height < width -> width <= 800 ->
   scaledSize width height = (width, height)).
Proof.
  intros width height Hw Hh w h. subst w h.
  assert (Hland : height < width -> width <= 800 ->
                  scaledSize width height = (width, height)).
  { intros H1 H2. unfold scaledSize. cbv zeta.
    rewrite (proj2 (gtb_iff width height) H1).
    now rewrite (proj2 (gtb_false_iff width 800) H2). }
  cut (0 < fst (scaledSize width height) /\
       0 < snd (scaledSize width height) /\
       fst (scaledSize width height) <= width /\
       snd (scaledSize width height) <= height /\
       fst (scaledSize width height) * height ==
         width * snd (scaledSize width height) /\
       fst (scaledSize width height) <= 800 /\
       snd (scaledSize width height) <= 800 /\
       (width <= height -> snd (scaledSize width height) <= 600)).
  { intros (A & B & C & D & E & F & G & H). repeat split; assumption. }
  clear Hland. unfold scaledSize. cbv zeta.
  destruct (Js.gtb width height) eqn:E1.
  - apply gtb_iff in E1.
    destruct (Js.gtb width 800) eqn:E2.
    + apply gtb_iff in E2.
      assert (H800 : (0:Q) < 800) by (unfold Qlt; simpl; lia).
      destruct (scale_factor width 800 H800 E2) as [F0 [F1 FE]].
      set (r := 800 / width) in *. cbn [fst snd].
      assert (Hhr0 : 0 < height * r) by (apply Qmult_lt_0_compat; assumption).
      assert (Hhr1 : height * r <= height * 1).
      { apply Qmult_le_l; [exact Hh | lra]. }
      assert (Hhr2 : height * r <= width * r).
      { apply Qmult_le_compat_r; lra. }
      assert (Ewr : width * r == 800) by exact FE.
      repeat split; try lra.
      * rewrite <- FE. ring.
    + apply gtb_false_iff in E2. cbn [fst snd].
      repeat split; try lra.
  - apply gtb_false_iff in E1.
    destruct (Js.gtb height 600) eqn:E2.
    + apply gtb_iff in E2.
      assert (H600 : (0:Q) < 600) by (unfold Qlt; simpl; lia).
      destruct (scale_factor height 600 H600 E2) as [F0 [F1 FE]].
      set (r := 600 / height) in *. cbn [fst snd].
      assert (Hwr0 : 0 < width * r) by (apply Qmult_lt_0_compat; assumption).
      assert (Hwr1 : width * r <= width * 1).
      { apply Qmult_le_l; [exact Hw | lra]. }
      assert (Hwr2 : width * r <= height * r).
      { apply Qmult_le_compat_r; lra. }
      assert (Ehr : height * r == 600) by exact FE.
      repeat split; try lra.
      * rewrite <- FE. ring.
    + apply gtb_false_iff in E2. cbn [fst snd].
      repeat split; try lra.
Qed.

Lemma scaledSize_bounds_witness :
  0 < 1600 /\ 0 < 1500 /\
  fst (scaledSize 1600 1500) <= 800 /\ snd (scaledSize 1600 1500) <= 800.
Proof.
  assert (Hw : 0 < 1600) by (unfold Qlt; simpl; lia).
  assert (Hh : 0 < 1500) by (unfold Qlt; simpl; lia).
  split; [exact Hw | split; [exact Hh|]].
  destruct (scaledSize_bounds 1600 1500 Hw Hh) as (_ & _ & _ & _ & _ & A & B & _).
  split; assumption.
Defined.

(** ** Heatmap colours and asset statistics *)

Lemma mathMin_spec (a b : Q) :
  mathMin a b <= a /\ mathMin a b <= b /\ (mathMin a b = a \/ mathMin a b = b).
Proof.
  unfold mathMin. destruct (Qle_bool a b) eqn:E.
  - apply Qle_bool_iff in E. repeat split; [apply Qle_refl | exact E | now left].
  - assert (H : b <= a).
    { destruct (Qle_bool_total a b) as [H|H]; [congruence|].
      apply Qle_bool_iff, H. }
    repeat split; [exact H | apply Qle_refl | now right].
Qed.

Lemma heatmapOf_max (xOf : Trade -> option string)
  (sortX : list string -> list string) (trades : list Trade) :
  let hm := heatmapOf xOf sortX trades in
  (forall k c, In (k, c) (grid hm) -> cellAvgMfe c <= maxMfe hm) /\
  (maxMfe hm = 0 \/
   exists k c, In (k, c) (grid hm) /\ maxMfe hm = cellAvgMfe c).
Proof.
  intros hm. subst hm. unfold heatmapOf.
  set (st := fold_left (heatStep xOf) trades (mkHeatState [] [] [])).
  assert (Hkeys : NoDup (map fst (matrix st))) by (apply heat_keys; constructor).
  rewrite (grid_fold (matrix st) [] 0) by exact Hkeys.
  cbn [grid maxMfe fst snd app].
  destruct (maxStep_fold (matrix st) 0) as [M1 [M2 M3]].
  split.
  - intros k c Hin. apply in_map_iff in Hin.
    destruct Hin as [e [E Hin]]. specialize (M2 e Hin).
    rewrite E in M2. exact M2.
  - destruct M3 as [M3|[e [He M3]]]; [now left|].
    right. exists (fst (cellOfAcc e)), (snd (cellOfAcc e)).
    split; [|exact M3].
    rewrite <- surjective_pairing. apply in_map, He.
Qed.

(** When the largest average of a heatmap is positive, every populated cell
    is drawn with an intensity between 0.1 and 1, and the cell holding that
    largest average is drawn at full intensity. *)
Theorem cellIntensity_scale :
  forall (f : list Trade -> HeatmapData) (xOf : Trade -> option string)
         (trades : list Trade),
  In (f, xOf) heatmapVariants ->
  0 < maxMfe (f trades) ->
  (forall k c, In (k, c) (grid (f trades)) ->
     1 # 10 <= cellIntensity (f trades) c /\ cellIntensity (f trades) c <= 1) /\
  (exists k c, In (k, c) (grid (f trades)) /\ cellIntensity (f trades) c == 1).
Proof.
  intros f xOf trades Hv Hpos.
  destruct (heatmapVariants_sort f xOf Hv) as [leb Ef].
  rewrite Ef in *.
  destruct (heatmapOf_max xOf (Js.sort leb) trades) as [Hle Hex].
  set (hm := heatmapOf xOf (Js.sort leb) trades) in *.
  assert (Hbounds : forall c, 1 # 10 <= cellIntensity hm c /\
                              cellIntensity hm c <= 1).
  { intros c. unfold cellIntensity.
    destruct (mathMin_spec 1 (mathMax (1 # 10) (cellAvgMfe c / maxMfe hm)))
      as [A [B C]].
    destruct (mathMax_spec (1 # 10) (cellAvgMfe c / maxMfe hm)) as [D _].
    split; [|exact A].
    destruct C as [C|C]; rewrite C; [unfold Qle; simpl; lia | exact D]. }
  split; [intros k c _; apply Hbounds|].
  destruct Hex as [E0|(k & c & Hin & Ec)]; [rewrite E0 in Hpos; lra|].
  exists k, c. split; [exact Hin|].
  assert (Eq : cellAvgMfe c / maxMfe hm == 1).
  { rewrite <- Ec. field. lra. }
  destruct (Hbounds c) as [_ Hup].
  unfold cellIntensity in *.
  destruct (mathMin_spec 1 (mathMax (1 # 10) (cellAvgMfe c / maxMfe hm)))
    as [_ [_ [C|C]]]; rewrite C; [reflexivity|].
  destruct (mathMax_spec (1 # 10) (cellAvgMfe c / maxMfe hm)) as [_ [D _]].
  rewrite C in Hup. lra.
Qed.

Lemma cellIntensity_scale_witness :
  In (calculateHeatmapStats, entryTypeOf) heatmapVariants /\
  0 < maxMfe (calculateHeatmapStats scenario) /\
  exists k c, In (k, c) (grid (calculateHeatmapStats scenario)) /\
              cellIntensity (calculateHeatmapStats scenario) c == 1.
Proof.
  assert (Hv : In (calculateHeatmapStats, entryTypeOf) heatmapVariants)
    by (left; reflexivity).
  assert (Hp : 0 < maxMfe (calculateHeatmapStats scenario))
    by (vm_compute; reflexivity).
  split; [exact Hv | split; [exact Hp|]].
  apply (cellIntensity_scale calculateHeatmapStats entryTypeOf scenario Hv Hp).
Defined.

Lemma sort_sorted_by {A : Type} (leb : A -> A -> bool) (R : A -> A -> Prop)
  (leb_total : forall a b, leb a b = true \/ leb b a = true)
  (leb_trans : forall a b c, leb a b = true -> leb b c = true -> leb a c = true)
  (l : list A) :
  (forall a b, leb a b = true -> R a b) ->
  StronglySorted R (Js.sort leb l).
Proof.
  intros HR.
  pose proof (sort_strongly_sorted leb leb_total leb_trans l) as H.
  induction H as [|x r Hr IH Hall]; constructor; [exact IH|].
  eapply Forall_impl; [|exact Hall].
  intros y Hy. apply HR, Hy.
Qed.

Lemma addAsset_get (m : list (string * AssetAcc)) (t : Trade) (k : string) :
  Js.get k (addAsset m t) =
  if String.eqb (symbolOrUNK t) k
  then Some (match Js.get k m with
             | Some c => mkAssetAcc (accMfe c + mfe t) (accTrades c + 1)
             | None => mkAssetAcc (0 + mfe t) (0 + 1)
             end)
  else Js.get k m.
Proof.
  unfold addAsset.
  destruct (String.eqb_spec (symbolOrUNK t) k) as [<-|Hne].
  - rewrite get_set_same. destruct (Js.get (symbolOrUNK t) m); reflexivity.
  - now apply get_set_other.
Qed.

Lemma assetMap_keys (trades : list Trade) (m : list (string * AssetAcc)) :
  NoDup (map fst m) -> NoDup (map fst (fold_left addAsset trades m)).
Proof.
  revert m. induction trades as [|t r IH]; intros m H; simpl; [exact H|].
  apply IH. unfold addAsset. apply set_keys_NoDup, H.
Qed.

Lemma assetMap_get (trades : list Trade) (k : string) :
  Js.get k (fold_left addAsset trades []) =
  match filter (fun t => String.eqb (symbolOrUNK t) k) trades with
  | [] => None
  | g => Some (mkAssetAcc (Js.sum (map mfe g)) (length g))
  end.
Proof.
  induction trades as [|t r IH] using rev_ind; [reflexivity|].
  rewrite fold_left_app, filter_app. simpl.
  rewrite addAsset_get, IH.
  destruct (String.eqb (symbolOrUNK t) k).
  - destruct (filter _ r) as [|a g]; [reflexivity|].
    cbn [app map length accMfe accTrades].
    f_equal. f_equal.
    + change (mfe a :: map mfe g) with (map mfe (a :: g)).
      rewrite <- sum_snoc. cbn [app map]. now rewrite map_app.
    + rewrite length_app. simpl. lia.
  - now rewrite app_nil_r.
Qed.

Lemma assetMap_total (trades : list Trade) (m : list (string * AssetAcc)) :
  list_sum (map (fun e => accTrades (snd e)) (fold_left addAsset trades m)) =
  (list_sum (map (fun e => accTrades (snd e)) m) + length trades)%nat.
Proof.
  revert m. induction trades as [|t r IH]; intros m; simpl; [lia|].
  rewrite IH. unfold addAsset.
  generalize (symbolOrUNK t) as k. generalize (mfe t) as x. intros x k.
  assert (E : list_sum (map (fun e => accTrades (snd e))
                (Js.set k (mkAssetAcc
                   (accMfe match Js.get k m with
                           | Some c => c | None => mkAssetAcc 0 0 end + x)
                   (accTrades match Js.get k m with
                              | Some c => c | None => mkAssetAcc 0 0 end + 1))
                   m)) =
              S (list_sum (map (fun e => accTrades (snd e)) m))).
  { induction m as [|[k' v'] r' IHm]; simpl; [reflexivity|].
    destruct (String.eqb k' k); simpl; [lia | rewrite IHm; lia]. }
  rewrite E. lia.
Qed.

(** The asset table of the dashboard counts every trade of the chosen
    direction in exactly one row, the row of its symbol or of "UNK" when the
    symbol is empty: the rows have distinct symbols, the counts add up to the
    number of those trades, the average of a row is the mean MFE of the
    trades of its symbol, and the rows are sorted by descending average. *)
Theorem assetStats_partition :
  forall (trades : list Trade) (analysisDirection : AnalysisDirection),
  let baseTrades :=
    match analysisDirection with
    | AllDirections => trades
    | _ => filter (hasDirection analysisDirection) trades
    end in
  let rows := assetStats trades analysisDirection in
  NoDup (map assetSymbol rows) /\
  list_sum (map assetCount rows) = length baseTrades /\
  (forall r, In r rows ->
     let g := filter (fun t => String.eqb (symbolOrUNK t) (assetSymbol r))
                baseTrades in
     assetCount r = length g /\ (1 <= assetCount r)%nat /\
     assetAvgMfe r = Js.sum (map mfe g) / numOfNat (length g)) /\
  StronglySorted (fun a b => assetAvgMfe b <= assetAvgMfe a) rows.
Proof.
  intros trades d baseTrades rows. subst rows. unfold assetStats.
  fold baseTrades.
  set (m := fold_left addAsset baseTrades []).
  assert (Hkeys : NoDup (map fst m)) by (apply assetMap_keys; constructor).
  assert (HP : Permutation (Js.sort byAssetAvgMfeDesc (map assetStatOf m))
                 (map assetStatOf m)) by apply sort_perm.
  assert (Hsym : map assetSymbol (map assetStatOf m) = map fst m).
  { rewrite map_map. apply map_ext. intros [k v]. reflexivity. }
  assert (Hcnt : map assetCount (map assetStatOf m)
                 = map (fun e => accTrades (snd e)) m).
  { rewrite map_map. apply map_ext. intros [k v]. reflexivity. }
  split; [|split; [|split]].
  - eapply Permutation_NoDup;
      [apply Permutation_map, Permutation_sym, HP|].
    rewrite Hsym. exact Hkeys.
  - rewrite (list_sum_Permutation _ _ (Permutation_map assetCount HP)).
    rewrite Hcnt. unfold m. rewrite assetMap_total. reflexivity.
  - intros r Hr.
    apply sort_In, in_map_iff in Hr. destruct Hr as [[k v] [<- Hin]].
    apply In_get in Hin; [|exact Hkeys].
    unfold m in Hin. rewrite assetMap_get in Hin. simpl assetSymbol.
    destruct (filter (fun t => String.eqb (symbolOrUNK t) k) baseTrades)
      as [|a g]; [discriminate|].
    injection Hin as <-. simpl. repeat split. lia.
  - assert (Htot : forall a b, byAssetAvgMfeDesc a b = true \/
                               byAssetAvgMfeDesc b a = true).
    { intros a b. unfold byAssetAvgMfeDesc.
      destruct (Qle_bool_total (assetAvgMfe a) (assetAvgMfe b)); auto. }
    assert (Htr : forall a b c, byAssetAvgMfeDesc a b = true ->
              byAssetAvgMfeDesc b c = true -> byAssetAvgMfeDesc a c = true).
    { intros a b c. unfold byAssetAvgMfeDesc. intros H1 H2.
      eapply Qle_bool_trans; eassumption. }
    apply (sort_sorted_by byAssetAvgMfeDesc _ Htot Htr).
    intros a b Hab. apply Qle_bool_iff, Hab.
Qed.
